(** * Barycentric Gaussian-to-mesh mapping: a shallow embedding of
      [barycentric_mapping.py] and the properties of its mapping core.

    Number model.  The NumPy/CuPy arrays of the program hold IEEE floats.
    They are embedded here as exact real numbers ([R]): every arithmetic
    operation is the exact one, [np.inf] is a separate value of the
    distance type ([PInf]), and rounding, overflow and NaN are outside
    the model.  Arrays are lists, a row of three floats is a [vec3], and
    an integer index array is a list of [nat].  Index arithmetic that may
    go below zero is done in [Z]. *)

From Stdlib Require Import String.
From Stdlib Require Import Reals.Reals Reals.RIneq Reals.R_sqrt.
From Stdlib Require Import Lra Lia List Arith ZArith Bool.
Import ListNotations.

Open Scope R_scope.

(** ** Scalars *)

(** The literal [1e-10] that floors every divisor of the program. *)
Definition eps : R := 1 / 10000000000.

Definition Rltb (x y : R) : bool := if Rlt_dec x y then true else false.

(** [np.clip(x, lo, hi)] is [minimum(maximum(x, lo), hi)]. *)
Definition clip (x lo hi : R) : R := Rmin (Rmax x lo) hi.

(** A float that may be [np.inf]: the running minimum distance starts
    at [np.inf]. *)
Inductive dist : Type :=
| Fin (r : R)
| PInf.

(** [x < best] for a finite [x] and a possibly infinite [best]. *)
Definition lt_dist (x : R) (best : dist) : bool :=
  match best with
  | PInf => true
  | Fin b => Rltb x b
  end.

(** ** Rows of three floats *)

Record vec3 : Type := V3 { vx : R; vy : R; vz : R }.

Definition vadd (a b : vec3) : vec3 := V3 (vx a + vx b) (vy a + vy b) (vz a + vz b).
Definition vsub (a b : vec3) : vec3 := V3 (vx a - vx b) (vy a - vy b) (vz a - vz b).
Definition vscale (k : R) (a : vec3) : vec3 := V3 (k * vx a) (k * vy a) (k * vz a).
Definition vdiv (a : vec3) (k : R) : vec3 := V3 (vx a / k) (vy a / k) (vz a / k).

(** [np.sum(a * b, axis=1)] on one row, also [np.dot(a, b)]. *)
Definition dot (a b : vec3) : R := vx a * vx b + vy a * vy b + vz a * vz b.

(** [np.cross(a, b)] on one row. *)
Definition cross (a b : vec3) : vec3 :=
  V3 (vy a * vz b - vz a * vy b)
     (vz a * vx b - vx a * vz b)
     (vx a * vy b - vy a * vx b).

(** [np.linalg.norm(a, axis=1)] on one row. *)
Definition norm (a : vec3) : R := sqrt (dot a a).

Definition vzero : vec3 := V3 0 0 0.

(** ** Narrow phase: [point_to_triangle_distance_and_projection] *)

(** A barycentric row [(u, v, w)]. *)
Definition bary3 : Type := (R * R * R)%type.

(** [denom = np.where(np.abs(denom) < 1e-10, 1e-10, denom)]. *)
Definition floor_denom (denom : R) : R :=
  if Rltb (Rabs denom) eps then eps else denom.

(** [total = np.where(total < 1e-10, 1.0, total)]. *)
Definition floor_total (total : R) : R :=
  if Rltb total eps then 1 else total.

(** The unclamped solution [(u, v, w)] of the 2x2 system. *)
Definition solve_bary (p v0 v1 v2 : vec3) : bary3 :=
  let edge0 := vsub v1 v0 in
  let edge1 := vsub v2 v0 in
  let v0_to_p := vsub p v0 in
  let d00 := dot edge0 edge0 in
  let d01 := dot edge0 edge1 in
  let d11 := dot edge1 edge1 in
  let d20 := dot v0_to_p edge0 in
  let d21 := dot v0_to_p edge1 in
  let denom := floor_denom (d00 * d11 - d01 * d01) in
  let v := (d11 * d20 - d01 * d21) / denom in
  let w := (d00 * d21 - d01 * d20) / denom in
  let u := 1 - v - w in
  (u, v, w).

(** The sum of the three clamped coordinates, before [floor_total]. *)
Definition clamped_total (b : bary3) : R :=
  let '(u, v, w) := b in clip u 0 1 + clip v 0 1 + clip w 0 1.

(** Clamp each coordinate to [0, 1] and renormalize by the floored sum. *)
Definition clamp_renorm (b : bary3) : bary3 :=
  let '(u, v, w) := b in
  let u_clamped := clip u 0 1 in
  let v_clamped := clip v 0 1 in
  let w_clamped := clip w 0 1 in
  let total := floor_total (u_clamped + v_clamped + w_clamped) in
  (u_clamped / total, v_clamped / total, w_clamped / total).

(** [u * v0 + v * v1 + w * v2]. *)
Definition bary_combine (b : bary3) (v0 v1 v2 : vec3) : vec3 :=
  let '(u, v, w) := b in
  vadd (vadd (vscale u v0) (vscale v v1)) (vscale w v2).

(** One row of [point_to_triangle_distance_and_projection]: the closest
    point, the clamped barycentric row and the distance. *)
Definition point_to_triangle_distance_and_projection
    (p v0 v1 v2 : vec3) : vec3 * bary3 * R :=
  let bary := clamp_renorm (solve_bary p v0 v1 v2) in
  let closest := bary_combine bary v0 v1 v2 in
  let distances := norm (vsub p closest) in
  (closest, bary, distances).

(** ** Exceptions *)

Inductive exn : Type :=
| IndexError
| ValueError (msg : string).

(** The outcome of a call that may raise. *)
Inductive outcome (A : Type) : Type :=
| Return (a : A)
| Raise (e : exn).

Arguments Return {A} a.
Arguments Raise {A} e.

Definition bind {A B : Type} (m : outcome A) (k : A -> outcome B) : outcome B :=
  match m with
  | Return a => k a
  | Raise e => Raise e
  end.

Notation "x <- m ;; k" := (bind m (fun x => k))
  (at level 61, m at next level, right associativity).
Notation "' pat <- m ;; k" := (bind m (fun x => match x with pat => k end))
  (at level 61, pat pattern, m at next level, right associativity).

(** A loop body run on every element in order, stopping at the first raise. *)
Fixpoint mapM {A B : Type} (f : A -> outcome B) (l : list A) : outcome (list B) :=
  match l with
  | [] => Return []
  | a :: t => b <- f a ;; bs <- mapM f t ;; Return (b :: bs)
  end.

(** A loop that threads a state through its iterations. *)
Fixpoint foldM {A S : Type} (f : S -> A -> outcome S) (l : list A) (s : S) : outcome S :=
  match l with
  | [] => Return s
  | a :: t => s' <- f s a ;; foldM f t s'
  end.

(** ** Arrays *)

(** [a[i]] on a NumPy array with a non-negative index: [IndexError] when
    out of range. *)
Definition np_index {A : Type} (a : list A) (i : nat) : outcome A :=
  match nth_error a i with
  | Some x => Return x
  | None => Raise IndexError
  end.

(** [a[idx]] with an integer index array, on NumPy. *)
Definition np_take {A : Type} (a : list A) (idx : list nat) : outcome (list A) :=
  mapM (np_index a) idx.

(** [a[i]] inside a CuPy integer-array index: CuPy does not raise on an
    index out of range, it wraps it around (the index is taken modulo the
    length, negative indices included).  [d] is returned for an empty
    array, where the device read is undefined. *)
Definition cp_index {A : Type} (a : list A) (i : Z) (d : A) : A :=
  nth (Z.to_nat (i mod Z.of_nat (length a))) a d.

Definition cp_take {A : Type} (a : list A) (idx : list Z) (d : A) : list A :=
  map (fun i => cp_index a i d) idx.

(** [a[start:stop]] for [0 <= start <= stop]. *)
Definition slice {A : Type} (a : list A) (start stop : nat) : list A :=
  firstn (stop - start) (skipn start a).

(** [range(0, stop, step)] for a positive [step] (Python rejects a zero
    step). *)
Definition range_step (stop step : nat) : list nat :=
  map (fun j => (j * step)%nat) (seq 0 ((stop + step - 1) / step)).

(** [np.argmin] of a row: the first index of the minimum. *)
Fixpoint argmin_from (best_i : nat) (best : R) (i : nat) (row : list R) : nat :=
  match row with
  | [] => best_i
  | x :: t =>
      if Rltb x best then argmin_from i x (S i) t
      else argmin_from best_i best (S i) t
  end.

Definition argmin (row : list R) : nat :=
  match row with
  | [] => 0%nat
  | x :: t => argmin_from 0 x 1 t
  end.

(** ** Mesh and face attributes *)

(** A face: three vertex indices. *)
Definition face : Type := (nat * nat * nat)%type.

(** The three corner positions of a face. *)
Definition tri : Type := (vec3 * vec3 * vec3)%type.

Definition face0 (f : face) : nat := fst (fst f).
Definition face1 (f : face) : nat := snd (fst f).
Definition face2 (f : face) : nat := snd f.

Definition tri0 (t : tri) : vec3 := fst (fst t).
Definition tri1 (t : tri) : vec3 := snd (fst t).
Definition tri2 (t : tri) : vec3 := snd t.

(** [np.stack([v0, v1, v2], axis=1)]: rows of three corners. *)
Fixpoint stack3 (v0 v1 v2 : list vec3) : list tri :=
  match v0, v1, v2 with
  | a :: v0', b :: v1', c :: v2' => (a, b, c) :: stack3 v0' v1' v2'
  | _, _, _ => []
  end.

(** [(v0 + v1 + v2) / 3.0] on one row. *)
Definition centroid_row (t : tri) : vec3 :=
  vdiv (vadd (vadd (tri0 t) (tri1 t)) (tri2 t)) 3.

(** The floored norm that divides the raw normal:
    [np.maximum(np.linalg.norm(normals), 1e-10)]. *)
Definition floor_norm (raw : vec3) : R := Rmax (norm raw) eps.

(** The unit normal of one row: the cross product of the two edges from
    vertex 0, divided by its floored norm. *)
Definition normal_row (t : tri) : vec3 :=
  let edge1 := vsub (tri1 t) (tri0 t) in
  let edge2 := vsub (tri2 t) (tri0 t) in
  let normals := cross edge1 edge2 in
  let norms := floor_norm normals in
  vdiv normals norms.

(** [compute_face_data]: centroids, unit normals and corner triples. *)
Definition compute_face_data (vertices : list vec3) (faces : list face)
  : outcome (list vec3 * list vec3 * list tri) :=
  v0 <- np_take vertices (map face0 faces) ;;
  v1 <- np_take vertices (map face1 faces) ;;
  v2 <- np_take vertices (map face2 faces) ;;
  let face_vertices := stack3 v0 v1 v2 in
  let centroids := map centroid_row face_vertices in
  let normals := map normal_row face_vertices in
  Return (centroids, normals, face_vertices).

(** ** The mapping result (four parallel arrays) *)

Record MappingResult : Type := mkResult {
  face_indices : list nat;
  bary_coords : list bary3;
  normal_offsets : list R;
  distances : list dist
}.

(** One entry of each of the four arrays, as the loops produce them. *)
Record record : Type := mkRecord {
  r_face : nat;
  r_bary : bary3;
  r_offset : R;
  r_dist : dist
}.

Definition assemble (rs : list record) : MappingResult :=
  mkResult (map r_face rs) (map r_bary rs) (map r_offset rs) (map r_dist rs).

(** The point batches [positions[start:end]] of the outer loop, for a
    positive [batch_size] (with [batch_size = 0] the program divides by
    zero; the properties below all take a positive size). *)
Definition batches {A : Type} (positions : list A) (batch_size : nat) : list (list A) :=
  let n := length positions in
  let n_batches := ((n + batch_size - 1) / batch_size)%nat in
  map (fun batch_idx =>
         let start := (batch_idx * batch_size)%nat in
         let stop := Nat.min (start + batch_size) n in
         slice positions start stop)
      (seq 0 n_batches).

(** ** Index-accelerated strategy: [compute_mapping_cpu] *)

(** The running best of the candidate loop:
    [(best_dist, best_face, best_bary)]. *)
Definition cpu_best : Type := (dist * nat * bary3)%type.

(** The values the candidate loop starts from. *)
Definition cpu_init : cpu_best := (PInf, 0%nat, (1 / 3, 1 / 3, 1 / 3)).

(** One iteration of [for face_idx in candidates]. *)
Definition cpu_candidate (n_faces : nat) (face_verts : list tri) (point : vec3)
    (best : cpu_best) (face_idx : nat) : outcome cpu_best :=
  if (n_faces <=? face_idx)%nat then Return best
  else
    t <- np_index face_verts face_idx ;;
    let '(_, bary, d) :=
      point_to_triangle_distance_and_projection point (tri0 t) (tri1 t) (tri2 t) in
    let '(best_dist, best_face, best_bary) := best in
    if lt_dist d best_dist then Return (Fin d, face_idx, bary)
    else Return best.

(** The body of [for i, point in enumerate(batch_points)]. *)
Definition cpu_point (n_faces : nat) (normals : list vec3) (face_verts : list tri)
    (point : vec3) (candidates : list nat) : outcome record :=
  '(best_dist, best_face, best_bary) <-
     foldM (cpu_candidate n_faces face_verts point) candidates cpu_init ;;
  face_normal <- np_index normals best_face ;;
  t <- np_index face_verts best_face ;;
  let v0 := tri0 t in
  let point_to_v0 := vsub point v0 in
  Return (mkRecord best_face best_bary (dot point_to_v0 face_normal) best_dist).

Section IndexStrategy.

(** [scipy.spatial.KDTree] is not part of this program: the tree type,
    its constructor and its [query] method are parameters.
    [query tree p k] is the row of [k] candidate face indices that
    [tree.query] returns for the point [p] (for [k = 1], where SciPy
    returns a scalar, the one-element list the program wraps it in). *)
Variable kdtree : Type.
Variable KDTree : list vec3 -> outcome kdtree.
Variable query : kdtree -> vec3 -> nat -> list nat.

(** One iteration of [for batch_idx in range(n_batches)]. *)
Definition cpu_batch (tree : kdtree) (n_faces : nat) (normals : list vec3)
    (face_verts : list tri) (k_nearest : nat) (batch_points : list vec3)
  : outcome (list record) :=
  let candidate_faces := map (fun p => query tree p k_nearest) batch_points in
  mapM (fun pc => cpu_point n_faces normals face_verts (fst pc) (snd pc))
       (combine batch_points candidate_faces).

(** [compute_mapping_cpu], with its local constant [batch_size] as a
    parameter. *)
Definition compute_mapping_cpu_with (batch_size : nat)
    (gaussian_positions vertices : list vec3) (faces : list face)
    (k_nearest : nat) : outcome MappingResult :=
  '(centroids, normals, face_verts) <- compute_face_data vertices faces ;;
  tree <- KDTree centroids ;;
  rs <- mapM (cpu_batch tree (length faces) normals face_verts k_nearest)
             (batches gaussian_positions batch_size) ;;
  Return (assemble (concat rs)).

(** [compute_mapping_cpu]: [batch_size = 10000]. *)
Definition compute_mapping_cpu := compute_mapping_cpu_with 10000.

(** The point loop of all batches, run over the whole point array. *)
Definition cpu_points (tree : kdtree) (n_faces : nat) (normals : list vec3)
    (face_verts : list tri) (k_nearest : nat) (points : list vec3)
  : outcome (list record) :=
  mapM (fun p => cpu_point n_faces normals face_verts p (query tree p k_nearest))
       points.

End IndexStrategy.

(** ** Exhaustive batched strategy: [compute_mapping_cuda] *)

(** The per-point values a batch starts from: [batch_face_indices],
    [batch_bary], [batch_normal_offset] are zero and [batch_min_dist] is
    [inf]. *)
Definition cuda_init : record := mkRecord 0 (0, 0, 0) 0 PInf.

(** One iteration of [for face_start in range(0, n_faces, face_batch_size)],
    for one point of the batch.  The loop body works on arrays of shape
    (batch, chunk); each of its operations acts on the rows of the batch
    independently, so the batch is embedded row by row.  The body
    repeats, on that grid, the formulas of
    [point_to_triangle_distance_and_projection]: [rows] holds their
    results for the faces of the chunk. *)
Definition cuda_chunk (face_batch_size n_faces : nat) (v0 v1 v2 normals : list vec3)
    (point : vec3) (st : record) (face_start : nat) : record :=
  let face_end := Nat.min (face_start + face_batch_size) n_faces in
  let v0_batch := slice v0 face_start face_end in
  let v1_batch := slice v1 face_start face_end in
  let v2_batch := slice v2 face_start face_end in
  let normals_batch := slice normals face_start face_end in
  let rows :=
    map (fun t => point_to_triangle_distance_and_projection
                    point (tri0 t) (tri1 t) (tri2 t))
        (stack3 v0_batch v1_batch v2_batch) in
  let clamped := map (fun r => snd (fst r)) rows in
  let distances := map snd rows in
  let min_face_idx := argmin distances in
  let min_dist := nth min_face_idx distances 0 in
  let update_mask := lt_dist min_dist (r_dist st) in
  let best := nth min_face_idx clamped (0, 0, 0) in
  let best_normals :=
    cp_index normals_batch (Z.of_nat min_face_idx - Z.of_nat face_start) vzero in
  let best_v0 :=
    cp_index v0_batch (Z.of_nat min_face_idx - Z.of_nat face_start) vzero in
  let point_to_v0 := vsub point best_v0 in
  let new_normal_offset := dot point_to_v0 best_normals in
  mkRecord
    (if update_mask then (min_face_idx + face_start)%nat else r_face st)
    (if update_mask then best else r_bary st)
    (if update_mask then new_normal_offset else r_offset st)
    (if update_mask then Fin min_dist else r_dist st).

(** The face loop of one point. *)
Definition cuda_point (face_batch_size n_faces : nat) (v0 v1 v2 normals : list vec3)
    (point : vec3) : record :=
  fold_left (cuda_chunk face_batch_size n_faces v0 v1 v2 normals point)
            (range_step n_faces face_batch_size) cuda_init.

(** [compute_mapping_cuda], with its local constants [batch_size] and
    [face_batch_size] as parameters.  [k_nearest] is accepted and not
    used.  No statement of the function raises. *)
Definition compute_mapping_cuda_with (batch_size face_batch_size : nat)
    (gaussian_positions vertices : list vec3) (faces : list face)
    (k_nearest : nat) : outcome MappingResult :=
  let v0 := cp_take vertices (map (fun f => Z.of_nat (face0 f)) faces) vzero in
  let v1 := cp_take vertices (map (fun f => Z.of_nat (face1 f)) faces) vzero in
  let v2 := cp_take vertices (map (fun f => Z.of_nat (face2 f)) faces) vzero in
  let normals := map normal_row (stack3 v0 v1 v2) in
  let n_faces := length faces in
  let rs :=
    map (fun batch_points =>
           map (cuda_point face_batch_size n_faces v0 v1 v2 normals) batch_points)
        (batches gaussian_positions batch_size) in
  Return (assemble (concat rs)).

(** [compute_mapping_cuda]: [batch_size = 1000], [face_batch_size = 50000]. *)
Definition compute_mapping_cuda := compute_mapping_cuda_with 1000 50000.

(** ** [reconstruct_positions] *)

(** The four arrays of a result have the same length in every result
    the mapping returns; the embedding pairs them entry by entry. *)
Definition reconstruct_positions (vertices : list vec3) (faces : list face)
    (result : MappingResult) : outcome (list vec3) :=
  fs <- np_take faces (face_indices result) ;;
  v0 <- np_take vertices (map face0 fs) ;;
  v1 <- np_take vertices (map face1 fs) ;;
  v2 <- np_take vertices (map face2 fs) ;;
  let corners := stack3 v0 v1 v2 in
  let positions :=
    map (fun bt => bary_combine (fst bt) (tri0 (snd bt)) (tri1 (snd bt)) (tri2 (snd bt)))
        (combine (bary_coords result) corners) in
  let normals := map normal_row corners in
  Return (map (fun x => vadd (fst (fst x)) (vscale (snd x) (snd (fst x))))
              (combine (combine positions normals) (normal_offsets result))).

(** ** [save_mapping] and the files it writes *)

(** What a written file holds.  The three containers are kept abstract:
    each holds the arrays the program hands to the serializer. *)
Inductive file_content : Type :=
| NpzFile (face_indices : list nat) (bary_coords : list bary3)
          (normal_offsets : list R) (distances : list dist)
| BinFile (count : nat) (records : list (nat * bary3 * R))
| JsonFile (count : nat) (face_indices : list nat) (bary_coords : list bary3)
           (normal_offsets : list R) (distances : list dist).

(** The part of the world [save_mapping] acts on: the files by path and
    the lines printed so far. *)
Record world : Type := mkWorld {
  files : string -> option file_content;
  stdout : list string
}.

(** A world with no file and nothing printed. *)
Definition empty_world : world := mkWorld (fun _ => None) [].

Definition write_file (w : world) (path : string) (c : file_content) : world :=
  mkWorld (fun p => if String.eqb p path then Some c else files w p) (stdout w).

Definition print (w : world) (line : string) : world :=
  mkWorld (files w) (stdout w ++ [line]).

Definition ends_with (suffix s : string) : bool :=
  let ls := String.length s in
  let lf := String.length suffix in
  if (lf <=? ls)%nat then String.eqb (substring (ls - lf) lf s) suffix else false.

(** [np.savez_compressed] appends [.npz] to a file name that lacks it. *)
Definition npz_path (output_path : string) : string :=
  if ends_with ".npz" output_path then output_path
  else (output_path ++ ".npz")%string.

(** The record loop of the [bin] branch: the records written so far and
    whether the loop raised. *)
Fixpoint bin_records (result : MappingResult) (idxs : list nat)
    (written : list (nat * bary3 * R)) : list (nat * bary3 * R) * outcome unit :=
  match idxs with
  | [] => (written, Return tt)
  | i :: rest =>
      match np_index (face_indices result) i, np_index (bary_coords result) i,
            np_index (normal_offsets result) i with
      | Return f, Return b, Return o =>
          bin_records result rest (written ++ [(f, b, o)])
      | _, _, _ => (written, Raise IndexError)
      end
  end.

Definition save_mapping (result : MappingResult) (output_path format : string)
    (w : world) : outcome unit * world :=
  if String.eqb format "npz" then
    let w1 := write_file w (npz_path output_path)
                (NpzFile (face_indices result) (bary_coords result)
                         (normal_offsets result) (distances result)) in
    (Return tt, print w1 ("Saved mapping to " ++ output_path)%string)
  else if String.eqb format "bin" then
    let n := length (face_indices result) in
    let '(written, status) := bin_records result (seq 0 n) [] in
    let w1 := write_file w output_path (BinFile n written) in
    match status with
    | Return _ => (Return tt, print w1 ("Saved mapping to " ++ output_path)%string)
    | Raise e => (Raise e, w1)
    end
  else if String.eqb format "json" then
    let w1 := write_file w output_path
                (JsonFile (length (face_indices result))
                          (face_indices result) (bary_coords result)
                          (normal_offsets result) (distances result)) in
    (Return tt, print w1 ("Saved mapping to " ++ output_path)%string)
  else
    (Raise (ValueError ("Unknown format: " ++ format)%string), w).


(** ** Vocabulary of the properties *)

(** Partition of unity of a barycentric row: the sum is 1 within 1e-5
    and each coordinate lies in [0, 1]. *)
Definition unity (b : bary3) : Prop :=
  let '(u, v, w) := b in
  Rabs (u + v + w - 1) <= 1 / 100000 /\
  0 <= u <= 1 /\ 0 <= v <= 1 /\ 0 <= w <= 1.

(** The per-point records of the exhaustive strategy, without the point
    batching. *)
Definition cuda_points (face_batch_size : nat) (vertices : list vec3)
    (faces : list face) (points : list vec3) : list record :=
  let v0 := cp_take vertices (map (fun f => Z.of_nat (face0 f)) faces) vzero in
  let v1 := cp_take vertices (map (fun f => Z.of_nat (face1 f)) faces) vzero in
  let v2 := cp_take vertices (map (fun f => Z.of_nat (face2 f)) faces) vzero in
  let normals := map normal_row (stack3 v0 v1 v2) in
  map (cuda_point face_batch_size (length faces) v0 v1 v2 normals) points.

(** [i] is the first index at which the row [l] takes its minimum. *)
Definition first_min (l : list R) (i : nat) : Prop :=
  (i < length l)%nat /\
  (forall j, (j < length l)%nat -> nth i l 0 <= nth j l 0) /\
  (forall j, (j < i)%nat -> nth i l 0 < nth j l 0).

(** The narrow-phase rows of one point against a list of triangles. *)
Definition face_rows (tris : list tri) (p : vec3) : list (vec3 * bary3 * R) :=
  map (fun t => point_to_triangle_distance_and_projection p (tri0 t) (tri1 t) (tri2 t))
      tris.

(** A record that names a face of the mesh, carries a partition of unity
    and a finite distance. *)
Definition record_ok (n_faces : nat) (r : record) : Prop :=
  (r_face r < n_faces)%nat /\ unity (r_bary r) /\ r_dist r <> PInf.

(** The corners of a face in the vertex array. *)
Definition face_tri (vertices : list vec3) (f : face) : tri :=
  (nth (face0 f) vertices vzero, nth (face1 f) vertices vzero,
   nth (face2 f) vertices vzero).

(** The input contract of the mesh: every vertex index of every face is
    in range. *)
Definition valid_mesh (vertices : list vec3) (faces : list face) : Prop :=
  Forall (fun f => (face0 f < length vertices)%nat /\
                   (face1 f < length vertices)%nat /\
                   (face2 f < length vertices)%nat) faces.

(** ** A reference nearest-centroid search

    A brute-force stand-in for [scipy.spatial.KDTree], following the
    documented behaviour of [query]: the [k] nearest points in order of
    increasing distance, missing neighbours reported with the index [n]
    (the number of points).  Equal distances are listed by increasing
    index. *)
Module RefKDTree.

Definition kdtree : Type := list vec3.

Definition KDTree (data : list vec3) : outcome kdtree := Return data.

Fixpoint insert_by (d : nat -> R) (i : nat) (l : list nat) : list nat :=
  match l with
  | [] => [i]
  | j :: t => if Rltb (d j) (d i) then j :: insert_by d i t else i :: j :: t
  end.

Definition sorted_by (d : nat -> R) (n : nat) : list nat :=
  fold_right (insert_by d) [] (seq 0 n).

Definition query (tree : kdtree) (p : vec3) (k : nat) : list nat :=
  let n := length tree in
  let d := fun i => norm (vsub (nth i tree vzero) p) in
  firstn k (sorted_by d n ++ repeat n k).

End RefKDTree.

(** The narrow-phase distance and barycentric row of point [p] against
    face [j]. *)
Definition face_dist (tris : list tri) (p : vec3) (j : nat) : R :=
  snd (nth j (face_rows tris p) (vzero, (0, 0, 0), 0)).

Definition face_bary (tris : list tri) (p : vec3) (j : nat) : bary3 :=
  snd (fst (nth j (face_rows tris p) (vzero, (0, 0, 0), 0))).

(** What the candidate loop holds after the candidates [seen]: its
    starting values while no candidate was in range, afterwards a
    candidate in range that is at least as near as every other one. *)
Definition cpu_loop_inv (n_faces : nat) (tris : list tri) (p : vec3)
    (seen : list nat) (best : cpu_best) : Prop :=
  (best = cpu_init /\ forall c, In c seen -> (n_faces <= c)%nat) \/
  (exists f, (f < n_faces)%nat /\ In f seen /\
             best = (Fin (face_dist tris p f), f, face_bary tris p f) /\
             forall c, In c seen -> (c < n_faces)%nat ->
                       face_dist tris p f <= face_dist tris p c).

(** All narrow-phase distances of one point, one per face. *)
Definition all_dists (tris : list tri) (p : vec3) : list R :=
  map snd (face_rows tris p).

(** What the face loop of the exhaustive strategy holds after the first
    [m] faces: its starting values for [m = 0], afterwards the first
    face of minimal distance among them, with its barycentric row and
    distance. *)
Definition cuda_loop_inv (tris : list tri) (p : vec3) (m : nat) (st : record) : Prop :=
  (m = 0%nat /\ st = cuda_init) \/
  ((0 < m)%nat /\
   r_face st = argmin (firstn m (all_dists tris p)) /\
   r_bary st = face_bary tris p (r_face st) /\
   r_dist st = Fin (face_dist tris p (r_face st))).

(** ** Concrete inputs *)

(** The unit square of the concrete scenario: two triangles in the plane
    z = 0 and one query point above their common edge. *)
Module Square.
Definition vertices : list vec3 := [V3 0 0 0; V3 1 0 0; V3 1 1 0; V3 0 1 0].
Definition faces : list face := [(0, 1, 2); (0, 2, 3)]%nat.
Definition point : vec3 := V3 (1 / 4) (1 / 4) (1 / 2).
(** A point in the interior of face 0. *)
Definition inner : vec3 := V3 (1 / 2) (1 / 4) 0.
End Square.

(** A mesh of [m + 3] faces: [m] copies of a triangle in the plane
    z = 10, then a triangle in the plane z = 0 directly below the query
    point, then two more copies of the far triangle. *)
Module Chunked.
Definition vertices : list vec3 :=
  [V3 0 0 10; V3 1 0 10; V3 1 1 10; V3 0 0 0; V3 1 0 0; V3 1 1 0].
Definition far_face : face := (0, 1, 2)%nat.
Definition near_face : face := (3, 4, 5)%nat.
Definition faces (m : nat) : list face :=
  repeat far_face m ++ [near_face; far_face; far_face].
Definition point : vec3 := V3 (1 / 2) (1 / 4) (1 / 2).
End Chunked.

(** The triangle [(0,0,h), (1,0,h), (1,1,h)]. *)
Definition lower_tri (h : R) : tri := (V3 0 0 h, V3 1 0 h, V3 1 1 h).

(** The triangle [(0,0,h), (1,1,h), (0,1,h)]. *)
Definition upper_tri (h : R) : tri := (V3 0 0 h, V3 1 1 h, V3 0 1 h).

(** Agreement of two floats within the tolerance 1e-4. *)
Definition approx (x y : R) : Prop := Rabs (x - y) <= 1 / 10000.

(** The values the concrete scenario announces for a result on the unit
    square: face 0, barycentric row about (0.5, 0.25, 0.25), offset and
    distance about 0.5. *)
Definition scenario_announced (res : MappingResult) : Prop :=
  exists u v w o d,
    res = mkResult [0%nat] [(u, v, w)] [o] [Fin d] /\
    approx u (1 / 2) /\ approx v (1 / 4) /\ approx w (1 / 4) /\
    approx o (1 / 2) /\ approx d (1 / 2).

(** Two triangles in the plane z = 0, the second inside the first, and a
    query point above both: the point is equally far from the two faces
    and nearer to the centroid of the second. *)
Module Overlap.
Definition vertices : list vec3 :=
  [V3 0 0 0; V3 2 0 0; V3 2 2 0; V3 1 0 0; V3 1 1 0].
Definition faces : list face := [(0, 1, 2); (0, 3, 4)]%nat.
Definition point : vec3 := V3 (1 / 2) (1 / 4) (1 / 2).
End Overlap.




(** Two triangles one above the other and a query point between them,
    nearer to the second. *)
Module Stacked.
Definition vertices : list vec3 := Chunked.vertices.
Definition faces : list face := [Chunked.far_face; Chunked.near_face].
Definition point : vec3 := Chunked.point.
End Stacked.

(** ** Round trip *)


(** The determinant of the 2x2 system of a triangle,
    [d00 * d11 - d01 * d01]. *)
Definition gram_det (t : tri) : R :=
  let edge0 := vsub (tri1 t) (tri0 t) in
  let edge1 := vsub (tri2 t) (tri0 t) in
  dot edge0 edge0 * dot edge1 edge1 - dot edge0 edge1 * dot edge0 edge1.

(** The position [reconstruct_positions] computes for one record. *)
Definition reconstruct_one (vertices : list vec3) (faces : list face) (r : record) : vec3 :=
  let t := face_tri vertices (nth (r_face r) faces (0, 0, 0)%nat) in
  vadd (bary_combine (r_bary r) (tri0 t) (tri1 t) (tri2 t))
       (vscale (r_offset r) (normal_row t)).

(** A mesh of one thin triangle, one millionth of a unit high, and a
    query point in its interior. *)
Module Sliver.
Definition vertices : list vec3 := [V3 0 0 0; V3 1 0 0; V3 0 (1 / 1000000) 0].
Definition faces : list face := [(0, 1, 2)%nat].
Definition point : vec3 := V3 (1 / 2) (1 / 4000000) 0.
End Sliver.

(** ** Vocabulary of the further properties *)

(** The records of a result, entry by entry of its four arrays. *)
Fixpoint zip_records (fs : list nat) (bs : list bary3) (os : list R) (ds : list dist)
  : list record :=
  match fs, bs, os, ds with
  | f :: fs', b :: bs', o :: os', d :: ds' =>
      mkRecord f b o d :: zip_records fs' bs' os' ds'
  | _, _, _, _ => []
  end.

Definition records_of (res : MappingResult) : list record :=
  zip_records (face_indices res) (bary_coords res) (normal_offsets res) (distances res).

(** The signed offset of [p] from the plane of face [f], along its normal
    and from its vertex 0. *)
Definition offset_of_face (vertices : list vec3) (faces : list face) (p : vec3)
    (f : nat) : R :=
  let t := face_tri vertices (nth f faces (0, 0, 0)%nat) in
  dot (vsub p (tri0 t)) (normal_row t).


(** The cross product of the two edges of a triangle from its vertex 0. *)
Definition raw_normal (t : tri) : vec3 :=
  cross (vsub (tri1 t) (tri0 t)) (vsub (tri2 t) (tri0 t)).

(** The sum of a barycentric row. *)
Definition bary_total (b : bary3) : R := let '(u, v, w) := b in u + v + w.

(** A triangle moved by the vector [d]. *)
Definition translate_tri (d : vec3) (t : tri) : tri :=
  (vadd d (tri0 t), vadd d (tri1 t), vadd d (tri2 t)).

(** ** [load_glb]: the merge of the primitives

    [load_glb] is embedded from the point where the accessors of a
    primitive have been decoded: reading the file with pygltflib,
    locating the buffer views and decoding the bytes with
    [np.frombuffer] are not modelled.  A primitive is given by the rows
    of its POSITION accessor and, when [primitive.indices] is not None,
    by the component type of its index accessor and the index array read
    with the dtype the code picks for that type.  Index values and
    vertex counts stay below 2^31 (the [int32] of the code). *)

From Stdlib Require DecimalString.

(** An integer as an f-string prints it. *)
Definition str_nat (n : nat) : string :=
  DecimalString.NilEmpty.string_of_uint (Nat.to_uint n).

Definition str_int (z : Z) : string :=
  DecimalString.NilEmpty.string_of_int (Z.to_int z).

Record primitive : Type := mkPrimitive {
  prim_vertices : list vec3;
  prim_indices : option (Z * list nat)
}.

(** The rows of [a.reshape(-1, 3)], when the size of [a] is a multiple
    of 3. *)
Fixpoint reshape3 (a : list nat) : option (list face) :=
  match a with
  | [] => Some []
  | i :: j :: k :: rest =>
      match reshape3 rest with
      | Some rows => Some ((i, j, k) :: rows)
      | None => None
      end
  | _ => None
  end.

(** [a.reshape(-1, 3)], with the ValueError of NumPy. *)
Definition reshape_rows (a : list nat) : outcome (list face) :=
  match reshape3 a with
  | Some rows => Return rows
  | None =>
      Raise (ValueError ("cannot reshape array of size " ++ str_nat (length a)
                         ++ " into shape (3)")%string)
  end.

(** [faces + vertex_offset] on one row. *)
Definition shift_face (vertex_offset : nat) (f : face) : face :=
  (face0 f + vertex_offset, face1 f + vertex_offset, face2 f + vertex_offset)%nat.

(** The variables of the loop: [all_vertices], [all_faces] and
    [vertex_offset]. *)
Definition glb_state : Type := (list (list vec3) * list (list face) * nat)%type.

(** The body of [for primitive in mesh.primitives], after decoding. *)
Definition load_primitive (st : glb_state) (prim : primitive) : outcome glb_state :=
  let '(all_vertices, all_faces, vertex_offset) := st in
  let vertices := prim_vertices prim in
  faces <- match prim_indices prim with
           | Some (component_type, indices) =>
               if ((component_type =? 5121) || (component_type =? 5123)
                   || (component_type =? 5125))%Z
               then rows <- reshape_rows indices ;;
                    Return (map (shift_face vertex_offset) rows)
               else Raise (ValueError ("Unknown index component type: "
                                       ++ str_int component_type)%string)
           | None =>
               rows <- reshape_rows (seq 0 (length vertices)) ;;
               Return (map (shift_face vertex_offset) rows)
           end ;;
  Return (all_vertices ++ [vertices], all_faces ++ [faces],
          (vertex_offset + length vertices)%nat).

(** [np.vstack] of a list of arrays of rows of equal width. *)
Definition vstack {A : Type} (arrays : list (list A)) : outcome (list A) :=
  match arrays with
  | [] => Raise (ValueError "need at least one array to concatenate")
  | _ => Return (concat arrays)
  end.

(** [load_glb] on the decoded primitives of the meshes of the file: the
    two loops, the two [np.vstack] and the printed line. *)
Definition load_glb (meshes : list (list primitive)) (w : world)
  : outcome (list vec3 * list face) * world :=
  match (st <- foldM (fun st mesh => foldM load_primitive mesh st) meshes
                 ([], [], 0%nat) ;;
         vertices <- vstack (fst (fst st)) ;;
         faces <- vstack (snd (fst st)) ;;
         Return (vertices, faces)) with
  | Return (vertices, faces) =>
      (Return (vertices, faces),
       print w ("Loaded mesh: " ++ str_nat (length vertices) ++ " vertices, "
                ++ str_nat (length faces) ++ " faces")%string)
  | Raise e => (Raise e, w)
  end.

(** The flat index array of a primitive: its index accessor, or
    [np.arange(len(vertices))] without one. *)
Definition prim_flat (prim : primitive) : list nat :=
  match prim_indices prim with
  | Some (_, indices) => indices
  | None => seq 0 (length (prim_vertices prim))
  end.

(** The faces of a primitive in its own numbering. *)
Definition prim_faces (prim : primitive) : list face :=
  match reshape3 (prim_flat prim) with
  | Some rows => rows
  | None => []
  end.

(** A primitive the loop body accepts: a known index component type and
    a number of indices that is a multiple of 3. *)
Definition prim_well_formed (prim : primitive) : Prop :=
  match prim_indices prim with
  | Some (component_type, _) =>
      (component_type = 5121 \/ component_type = 5123 \/ component_type = 5125)%Z
  | None => True
  end /\
  (length (prim_flat prim) mod 3 = 0)%nat.

(** Every index of the primitive names one of its own vertices. *)
Definition prim_in_range (prim : primitive) : Prop :=
  Forall (fun i => (i < length (prim_vertices prim))%nat) (prim_flat prim).

(** The face arrays the loop appends, for a starting [vertex_offset]. *)
Fixpoint merged_faces (vertex_offset : nat) (prims : list primitive) : list (list face) :=
  match prims with
  | [] => []
  | prim :: rest =>
      map (shift_face vertex_offset) (prim_faces prim)
      :: merged_faces (vertex_offset + length (prim_vertices prim)) rest
  end.

(** Two meshes of one triangle each, the first without an index
    accessor, the second with unsigned-short indices, and a primitive
    whose indices are declared as floats (component type 5126). *)
Module Glb.
Definition plain : primitive :=
  mkPrimitive [V3 0 0 0; V3 1 0 0; V3 0 1 0] None.
Definition indexed : primitive :=
  mkPrimitive [V3 0 0 1; V3 1 0 1; V3 0 1 1] (Some (5123%Z, [0; 2; 1]%nat)).
Definition float_indexed : primitive :=
  mkPrimitive [V3 0 0 2; V3 1 0 2; V3 0 1 2] (Some (5126%Z, [0; 1; 2]%nat)).
Definition meshes : list (list primitive) := [[plain]; [indexed]].
End Glb.

(** ** [load_ply]

    The file is given by the lines [f.readline().decode('ascii')]
    returns one after the other (each with its line end); past the last
    line [readline] returns the empty string for ever.  Decoding is taken
    to succeed (the bytes read as lines are ASCII).  Python's [int] and
    [float] and the binary decoder ([np.dtype], [f.read],
    [np.frombuffer], [np.column_stack]) are parameters. *)

(** [c.isspace()] on an ASCII character: codes 9 to 13 and 28 to 32. *)
Definition is_space (c : Ascii.ascii) : bool :=
  let n := Ascii.nat_of_ascii c in
  ((9 <=? n) && (n <=? 13) || (28 <=? n) && (n <=? 32))%nat.

Fixpoint lstrip (s : string) : string :=
  match s with
  | EmptyString => EmptyString
  | String c t => if is_space c then lstrip t else s
  end.

Fixpoint rstrip (s : string) : string :=
  match s with
  | EmptyString => EmptyString
  | String c t =>
      match rstrip t with
      | EmptyString => if is_space c then EmptyString else String c EmptyString
      | t' => String c t'
      end
  end.

(** [s.strip()]. *)
Definition strip (s : string) : string := rstrip (lstrip s).

(** [s.split()]: the maximal runs of characters that are not white space;
    [cur] is the run being read. *)
Fixpoint split_from (s cur : string) : list string :=
  match s with
  | EmptyString => match cur with EmptyString => [] | _ => [cur] end
  | String c t =>
      if is_space c then
        match cur with
        | EmptyString => split_from t EmptyString
        | _ => cur :: split_from t EmptyString
        end
      else split_from t (cur ++ String c EmptyString)
  end.

Definition split (s : string) : list string := split_from s EmptyString.

(** [sub in s]. *)
Fixpoint contains (sub s : string) : bool :=
  if prefix sub s then true
  else match s with
       | EmptyString => false
       | String _ t => contains sub t
       end.

(** [l[i]] on a Python list, for [i >= 0]. *)
Definition item {A : Type} (l : list A) (i : nat) : outcome A :=
  match nth_error l i with
  | Some x => Return x
  | None => Raise IndexError
  end.

(** [l[-1]] on a Python list. *)
Definition last_item {A : Type} (l : list A) : outcome A :=
  match rev l with
  | x :: _ => Return x
  | [] => Raise IndexError
  end.

(** [l.index(x)]: the first position of [x], when there is one. *)
Fixpoint list_index (x : string) (l : list string) : option nat :=
  match l with
  | [] => None
  | y :: t => if String.eqb y x then Some 0%nat
              else option_map S (list_index x t)
  end.

(** The loop [while True] that reads the header: the stripped lines up
    to the first one that is ['end_header'], and the lines left in the
    file.  When no line of the file strips to ['end_header'] the loop
    never ends (every later [readline] returns the empty string): that
    is [None]. *)
Fixpoint read_header (lines : list string) : option (list string * list string) :=
  match lines with
  | [] => None
  | raw :: rest =>
      let line := strip raw in
      if String.eqb line "end_header" then Some ([line], rest)
      else match read_header rest with
           | Some (header_lines, body) => Some (line :: header_lines, body)
           | None => None
           end
  end.

(** [vertex_count], [properties] (name, type), [is_binary] and
    [is_little_endian]. *)
Definition ply_header : Type := (Z * list (string * string) * bool * bool)%type.

(** [type_map.get(ptype, 'f4')]. *)
Definition type_map (ptype : string) : string :=
  if String.eqb ptype "float" then "f4"
  else if String.eqb ptype "double" then "f8"
  else if String.eqb ptype "int" then "i4"
  else if String.eqb ptype "uint" then "u4"
  else if String.eqb ptype "short" then "i2"
  else if String.eqb ptype "ushort" then "u2"
  else if String.eqb ptype "char" then "i1"
  else if String.eqb ptype "uchar" then "u1"
  else "f4".

Section Ply.

Variable int : string -> outcome Z.
Variable float : string -> outcome R.
(** The binary branch from [np.dtype] on: the list of (name, NumPy type),
    [is_little_endian], [vertex_count] and the bytes left in the file. *)
Variable read_binary : list (string * string) -> bool -> Z -> string -> outcome (list vec3).

(** The body of [for line in header_lines]. *)
Definition parse_header_line (h : ply_header) (line : string) : outcome ply_header :=
  let '(vertex_count, properties, is_binary, is_little_endian) := h in
  if prefix "element vertex" line then
    token <- last_item (split line) ;;
    n <- int token ;;
    Return (n, properties, is_binary, is_little_endian)
  else if prefix "property" line then
    let parts := split line in
    prop_type <- item parts 1 ;;
    prop_name <- item parts 2 ;;
    Return (vertex_count, properties ++ [(prop_name, prop_type)], is_binary,
            is_little_endian)
  else if prefix "format" line then
    if contains "binary_little_endian" line then
      Return (vertex_count, properties, true, true)
    else if contains "binary_big_endian" line then
      Return (vertex_count, properties, true, false)
    else if contains "ascii" line then
      Return (vertex_count, properties, false, is_little_endian)
    else Return h
  else Return h.

Definition parse_header (header_lines : list string) : outcome ply_header :=
  foldM parse_header_line header_lines (0%Z, [], false, true).

(** The three [prop_names.index] calls inside [try]. *)
Definition find_xyz (properties : list (string * string)) : outcome (nat * nat * nat) :=
  let prop_names := map fst properties in
  match list_index "x" prop_names, list_index "y" prop_names,
        list_index "z" prop_names with
  | Some x_idx, Some y_idx, Some z_idx => Return (x_idx, y_idx, z_idx)
  | _, _, _ => Raise (ValueError "PLY file must have x, y, z properties")
  end.

(** One iteration of the ASCII loop, on the line [readline] returned. *)
Definition read_ascii_row (x_idx y_idx z_idx : nat) (raw : string) : outcome vec3 :=
  let values := split (strip raw) in
  sx <- item values x_idx ;;
  x <- float sx ;;
  sy <- item values y_idx ;;
  y <- float sy ;;
  sz <- item values z_idx ;;
  z <- float sz ;;
  Return (V3 x y z).

(** The ASCII branch: [np.zeros((vertex_count, 3))] rejects a negative
    count; row [i] is read from the [i]-th line left in the file, the
    empty string past the end. *)
Definition read_ascii (x_idx y_idx z_idx : nat) (vertex_count : Z) (body : list string)
  : outcome (list vec3) :=
  if (vertex_count <? 0)%Z then
    Raise (ValueError "negative dimensions are not allowed")
  else
    mapM (fun i => read_ascii_row x_idx y_idx z_idx (nth i body EmptyString))
         (seq 0 (Z.to_nat vertex_count)).

(** [load_ply] on the lines of the file; [None] when it never returns. *)
Definition load_ply (lines : list string) (w : world)
  : option (outcome (list vec3) * world) :=
  match read_header lines with
  | None => None
  | Some (header_lines, body) =>
      let result :=
        h <- parse_header header_lines ;;
        let '(vertex_count, properties, is_binary, is_little_endian) := h in
        idx <- find_xyz properties ;;
        let '(x_idx, y_idx, z_idx) := idx in
        if is_binary then
          let dtype_list := map (fun p => (fst p, type_map (snd p))) properties in
          read_binary dtype_list is_little_endian vertex_count
                      (String.concat EmptyString body)
        else read_ascii x_idx y_idx z_idx vertex_count body in
      Some (match result with
            | Return positions =>
                (Return positions,
                 print w ("Loaded " ++ str_nat (length positions)
                          ++ " Gaussians from PLY")%string)
            | Raise e => (Raise e, w)
            end)
  end.

End Ply.

(** Stand-ins for the parameters of [load_ply], used to run it on the
    example files below: [int] and [float] read unsigned decimal
    integers only, and the binary decoder is not exercised. *)
Module RefPly.
Fixpoint digits (s : string) (acc : Z) : option Z :=
  match s with
  | EmptyString => Some acc
  | String c t =>
      let n := Ascii.nat_of_ascii c in
      if ((48 <=? n) && (n <=? 57))%nat
      then digits t (10 * acc + Z.of_nat (n - 48))%Z
      else None
  end.
Definition int (s : string) : outcome Z :=
  match s with
  | EmptyString => Raise (ValueError "invalid literal for int()")
  | _ => match digits s 0%Z with
         | Some z => Return z
         | None => Raise (ValueError "invalid literal for int()")
         end
  end.
Definition float (s : string) : outcome R :=
  z <- int s ;; Return (IZR z).
Definition read_binary (dtype_list : list (string * string)) (is_little_endian : bool)
    (vertex_count : Z) (data : string) : outcome (list vec3) :=
  Raise (ValueError "binary files are not decoded here").
End RefPly.

(** Two small ASCII files: one point with x, y and z, and a header that
    declares no z. *)
Module PlyFile.
Definition nl : string := String (Ascii.ascii_of_nat 10) EmptyString.
Definition one_point : list string :=
  map (fun s => (s ++ nl)%string)
      ["ply"; "format ascii 1.0"; "element vertex 1"; "property float x";
       "property float y"; "property float z"; "end_header"; "1 2 3"]%string.
Definition no_z : list string :=
  map (fun s => (s ++ nl)%string)
      ["ply"; "format ascii 1.0"; "element vertex 1"; "property float x";
       "property float y"; "end_header"; "1 2"]%string.
End PlyFile.
(** ** Properties of the narrow phase *)

Lemma eps_pos : 0 < eps.
Proof. unfold eps; lra. Qed.

Lemma clip01_bounds (x : R) : 0 <= clip x 0 1 <= 1.
Proof.
  unfold clip, Rmin, Rmax.
  repeat (destruct (Rle_dec _ _)); lra.
Qed.

Lemma clip01_ge (x : R) : x <= 1 -> x <= clip x 0 1.
Proof.
  unfold clip, Rmin, Rmax.
  repeat (destruct (Rle_dec _ _)); lra.
Qed.

Lemma clip01_gt1 (x : R) : 1 < x -> clip x 0 1 = 1.
Proof.
  unfold clip, Rmin, Rmax.
  repeat (destruct (Rle_dec _ _)); lra.
Qed.

Lemma solve_bary_sum (p v0 v1 v2 : vec3) :
  let '(u, v, w) := solve_bary p v0 v1 v2 in u + v + w = 1.
Proof. unfold solve_bary; cbv zeta; lra. Qed.

Lemma clamped_total_ge_1 (u v w : R) :
  u + v + w = 1 -> 1 <= clamped_total (u, v, w).
Proof.
  intros Hs; unfold clamped_total.
  pose proof (clip01_bounds u) as Hu.
  pose proof (clip01_bounds v) as Hv.
  pose proof (clip01_bounds w) as Hw.
  destruct (Rle_lt_dec u 1) as [Hu1|Hu1];
  destruct (Rle_lt_dec v 1) as [Hv1|Hv1];
  destruct (Rle_lt_dec w 1) as [Hw1|Hw1];
  try (rewrite (clip01_gt1 u) in * by assumption);
  try (rewrite (clip01_gt1 v) in * by assumption);
  try (rewrite (clip01_gt1 w) in * by assumption);
  try lra.
  pose proof (clip01_ge u Hu1); pose proof (clip01_ge v Hv1);
  pose proof (clip01_ge w Hw1); lra.
Qed.

(** ** Batching is transparent *)

Lemma firstn_app_slice {A : Type} (l : list A) (a bs : nat) :
  firstn a l ++ slice l a (Nat.min (a + bs) (length l)) = firstn (a + bs) l.
Proof.
  unfold slice.
  destruct (Nat.le_gt_cases (a + bs) (length l)) as [Hle|Hgt].
  - rewrite Nat.min_l by assumption.
    replace (a + bs - a)%nat with bs by lia.
    rewrite <- (firstn_skipn a l) at 3.
    rewrite firstn_app, firstn_length_le by lia.
    replace (a + bs - a)%nat with bs by lia.
    rewrite (@firstn_all2 _ (a + bs)%nat (firstn a l))
      by (rewrite firstn_length_le; lia).
    reflexivity.
  - rewrite Nat.min_r by lia.
    rewrite (@firstn_all2 _ (a + bs)%nat l) by lia.
    rewrite (@firstn_all2 _ _ (skipn a l)) by (rewrite length_skipn; lia).
    apply firstn_skipn.
Qed.

Lemma concat_slices {A : Type} (l : list A) (bs m : nat) :
  concat (map (fun batch_idx =>
                 slice l (batch_idx * bs) (Nat.min (batch_idx * bs + bs) (length l)))
              (seq 0 m))
  = firstn (m * bs) l.
Proof.
  induction m as [|m IH].
  - reflexivity.
  - rewrite seq_S, map_app, concat_app, IH. cbn [map concat plus].
    rewrite app_nil_r, firstn_app_slice.
    f_equal; lia.
Qed.

Lemma ceil_div_covers (n bs : nat) : (0 < bs)%nat -> (n <= (n + bs - 1) / bs * bs)%nat.
Proof.
  intros Hbs.
  pose proof (Nat.div_mod_eq (n + bs - 1) bs) as Hd.
  pose proof (Nat.mod_upper_bound (n + bs - 1) bs ltac:(lia)) as Hm.
  nia.
Qed.

Lemma concat_batches {A : Type} (l : list A) (bs : nat) :
  (0 < bs)%nat -> concat (batches l bs) = l.
Proof.
  intros Hbs. unfold batches.
  rewrite concat_slices.
  apply firstn_all2, ceil_div_covers, Hbs.
Qed.

Lemma mapM_app {A B : Type} (f : A -> outcome B) (l1 l2 : list A) :
  mapM f (l1 ++ l2)
  = (r1 <- mapM f l1 ;; r2 <- mapM f l2 ;; Return (r1 ++ r2)).
Proof.
  induction l1 as [|a l1 IH]; cbn [mapM app bind].
  - destruct (mapM f l2); reflexivity.
  - destruct (f a); cbn [bind]; [|reflexivity].
    rewrite IH. destruct (mapM f l1); cbn [bind]; [|reflexivity].
    destruct (mapM f l2); reflexivity.
Qed.

Lemma mapM_concat {A B : Type} (f : A -> outcome B) (ls : list (list A)) :
  mapM f (concat ls) = (rss <- mapM (mapM f) ls ;; Return (concat rss)).
Proof.
  induction ls as [|l ls IH]; cbn [concat mapM bind].
  - reflexivity.
  - rewrite mapM_app, IH.
    destruct (mapM f l); cbn [bind]; [|reflexivity].
    destruct (mapM (mapM f) ls); reflexivity.
Qed.

Lemma mapM_ext {A B : Type} (f g : A -> outcome B) (l : list A) :
  (forall a, f a = g a) -> mapM f l = mapM g l.
Proof.
  intros H; induction l as [|a l IH]; cbn [mapM]; [reflexivity|].
  rewrite H, IH; reflexivity.
Qed.

Lemma mapM_combine_map {A B C : Type} (g : A -> B) (f : A * B -> outcome C) (l : list A) :
  mapM f (combine l (map g l)) = mapM (fun a => f (a, g a)) l.
Proof.
  induction l as [|a l IH]; cbn [mapM combine map]; [reflexivity|].
  rewrite IH; reflexivity.
Qed.

Lemma mapM_length {A B : Type} (f : A -> outcome B) (l : list A) (rs : list B) :
  mapM f l = Return rs -> length rs = length l.
Proof.
  revert rs; induction l as [|a l IH]; cbn [mapM bind]; intros rs H.
  - inversion H; reflexivity.
  - destruct (f a); cbn [bind] in H; [|discriminate].
    destruct (mapM f l) as [bs|]; cbn [bind] in H; [|discriminate].
    inversion H; subst. cbn [length]. f_equal. apply IH; reflexivity.
Qed.

Lemma mapM_nth_error {A B : Type} (f : A -> outcome B) (l : list A) (rs : list B)
    (i : nat) (b : B) :
  mapM f l = Return rs -> nth_error rs i = Some b ->
  exists a, nth_error l i = Some a /\ f a = Return b.
Proof.
  revert rs i; induction l as [|a l IH]; cbn [mapM bind]; intros rs i H Hi.
  - inversion H; subst. destruct i; discriminate.
  - destruct (f a) as [b0|] eqn:Hfa; cbn [bind] in H; [|discriminate].
    destruct (mapM f l) as [bs|]; cbn [bind] in H; [|discriminate].
    inversion H; subst. destruct i as [|i]; cbn [nth_error] in *.
    + inversion Hi; subst. exists a; auto.
    + eapply IH; eauto.
Qed.

Lemma mapM_total {A B : Type} (f : A -> outcome B) (l : list A) :
  (forall a, In a l -> exists b, f a = Return b) ->
  exists rs, mapM f l = Return rs.
Proof.
  induction l as [|a l IH]; intros H; cbn [mapM bind].
  - eexists; reflexivity.
  - destruct (H a (or_introl eq_refl)) as [b Hb]. rewrite Hb. cbn [bind].
    destruct IH as [rs Hrs]; [intros; apply H; right; assumption|].
    rewrite Hrs. eexists; reflexivity.
Qed.

Section IndexStrategyFacts.

Variable kdtree : Type.
Variable KDTree : list vec3 -> outcome kdtree.
Variable query : kdtree -> vec3 -> nat -> list nat.

Lemma cpu_batch_points tree n_faces normals face_verts k batch :
  cpu_batch kdtree query tree n_faces normals face_verts k batch
  = cpu_points kdtree query tree n_faces normals face_verts k batch.
Proof.
  unfold cpu_batch, cpu_points.
  rewrite (mapM_combine_map (fun p => query tree p k)
             (fun pc => cpu_point n_faces normals face_verts (fst pc) (snd pc))).
  reflexivity.
Qed.

Lemma compute_mapping_cpu_unbatched batch_size positions vertices faces k :
  (0 < batch_size)%nat ->
  compute_mapping_cpu_with kdtree KDTree query batch_size positions vertices faces k
  = ('(centroids, normals, face_verts) <- compute_face_data vertices faces ;;
     tree <- KDTree centroids ;;
     rs <- cpu_points kdtree query tree (length faces) normals face_verts k positions ;;
     Return (assemble rs)).
Proof.
  intros Hbs. unfold compute_mapping_cpu_with.
  destruct (compute_face_data vertices faces) as [[[centroids normals] face_verts]|];
    cbn [bind]; [|reflexivity].
  destruct (KDTree centroids) as [tree|]; cbn [bind]; [|reflexivity].
  rewrite (mapM_ext _ _ _ (cpu_batch_points tree (length faces) normals face_verts k)).
  unfold cpu_points at 2.
  rewrite <- (concat_batches positions batch_size Hbs) at 2.
  rewrite mapM_concat.
  unfold cpu_points.
  destruct (mapM _ (batches positions batch_size)); reflexivity.
Qed.

End IndexStrategyFacts.

Lemma compute_mapping_cuda_unbatched batch_size face_batch_size positions vertices faces k :
  (0 < batch_size)%nat ->
  compute_mapping_cuda_with batch_size face_batch_size positions vertices faces k
  = Return (assemble (cuda_points face_batch_size vertices faces positions)).
Proof.
  intros Hbs. unfold compute_mapping_cuda_with, cuda_points. cbv zeta.
  rewrite <- concat_map, concat_batches by assumption.
  reflexivity.
Qed.

(** ** Partition of unity *)

Lemma Rltb_true (x y : R) : x < y -> Rltb x y = true.
Proof. intros H; unfold Rltb; destruct (Rlt_dec x y); [reflexivity|contradiction]. Qed.

Lemma Rltb_false (x y : R) : ~ x < y -> Rltb x y = false.
Proof. intros H; unfold Rltb; destruct (Rlt_dec x y); [contradiction|reflexivity]. Qed.

Lemma floor_total_id (t : R) : 1 <= t -> floor_total t = t.
Proof.
  intros H; unfold floor_total.
  rewrite Rltb_false; [reflexivity|]. pose proof eps_pos. unfold eps in *. lra.
Qed.

Lemma clamp_renorm_exact (u v w : R) :
  u + v + w = 1 ->
  let '(u', v', w') := clamp_renorm (u, v, w) in
  u' + v' + w' = 1 /\ 0 <= u' <= 1 /\ 0 <= v' <= 1 /\ 0 <= w' <= 1.
Proof.
  intros Hs. unfold clamp_renorm.
  pose proof (clamped_total_ge_1 u v w Hs) as Ht. unfold clamped_total in Ht.
  rewrite (floor_total_id _ Ht).
  pose proof (clip01_bounds u) as Hu.
  pose proof (clip01_bounds v) as Hv.
  pose proof (clip01_bounds w) as Hw.
  set (a := clip u 0 1) in *. set (b := clip v 0 1) in *. set (c := clip w 0 1) in *.
  set (t := a + b + c) in *.
  assert (Hti : 0 < / t) by (apply Rinv_0_lt_compat; lra).
  assert (Htt : t * / t = 1) by (apply Rinv_r; lra).
  assert (Hle : forall x, 0 <= x -> x <= t -> 0 <= x * / t <= 1).
  { intros x Hx0 Hxt. split.
    - apply Rmult_le_pos; lra.
    - rewrite <- Htt. apply Rmult_le_compat_r; lra. }
  unfold Rdiv. split.
  - replace (a * / t + b * / t + c * / t) with (t * / t) by (unfold t; ring).
    exact Htt.
  - repeat split; apply Hle; unfold t; lra.
Qed.

Lemma projection_unity (p v0 v1 v2 : vec3) :
  unity (snd (fst (point_to_triangle_distance_and_projection p v0 v1 v2))).
Proof.
  unfold point_to_triangle_distance_and_projection. cbn [fst snd].
  pose proof (solve_bary_sum p v0 v1 v2) as Hs.
  destruct (solve_bary p v0 v1 v2) as [[u v] w].
  pose proof (clamp_renorm_exact u v w Hs) as H.
  destruct (clamp_renorm (u, v, w)) as [[u' v'] w'].
  destruct H as (Hsum & Hu & Hv & Hw).
  unfold unity. repeat split; try lra.
  rewrite Hsum. replace (1 - 1) with 0 by lra. rewrite Rabs_R0. lra.
Qed.

Lemma unity_third : unity (1 / 3, 1 / 3, 1 / 3).
Proof.
  unfold unity. repeat split; try lra.
  replace (1 / 3 + 1 / 3 + 1 / 3 - 1) with 0 by lra. rewrite Rabs_R0. lra.
Qed.

Lemma foldM_inv {A S : Type} (P : S -> Prop) (f : S -> A -> outcome S) (l : list A) :
  (forall s a s', P s -> f s a = Return s' -> P s') ->
  forall s s', P s -> foldM f l s = Return s' -> P s'.
Proof.
  intros Hstep. induction l as [|a l IH]; cbn [foldM bind]; intros s s' Hs H.
  - inversion H; subst; assumption.
  - destruct (f s a) as [s1|] eqn:Hf; cbn [bind] in H; [|discriminate].
    eapply IH; [eapply Hstep; eauto|exact H].
Qed.

Lemma fold_left_inv {A S : Type} (P : S -> Prop) (f : S -> A -> S) (l : list A) :
  (forall s a, P s -> P (f s a)) -> forall s, P s -> P (fold_left f l s).
Proof.
  intros Hstep. induction l as [|a l IH]; cbn [fold_left]; intros s Hs; auto.
Qed.

(** ** Array facts *)

Lemma length_cp_take {A : Type} (a : list A) (idx : list Z) (d : A) :
  length (cp_take a idx d) = length idx.
Proof. unfold cp_take; apply length_map. Qed.

Lemma length_stack3 (v0 v1 v2 : list vec3) (n : nat) :
  length v0 = n -> length v1 = n -> length v2 = n -> length (stack3 v0 v1 v2) = n.
Proof.
  revert v1 v2 n; induction v0 as [|a v0 IH]; intros [|b v1] [|c v2] n H0 H1 H2;
    cbn [stack3 length] in *; try congruence.
  destruct n; [discriminate|]. f_equal. apply IH; congruence.
Qed.

Lemma stack3_firstn (k : nat) (v0 v1 v2 : list vec3) :
  stack3 (firstn k v0) (firstn k v1) (firstn k v2) = firstn k (stack3 v0 v1 v2).
Proof.
  revert v0 v1 v2; induction k as [|k IH]; intros v0 v1 v2; [reflexivity|].
  destruct v0 as [|a v0]; [reflexivity|].
  destruct v1 as [|b v1]; [destruct v0; reflexivity|].
  destruct v2 as [|c v2]; [destruct v0, v1; reflexivity|].
  cbn [firstn stack3]. rewrite IH; reflexivity.
Qed.

Lemma stack3_skipn (k : nat) (v0 v1 v2 : list vec3) :
  length v1 = length v0 -> length v2 = length v0 ->
  stack3 (skipn k v0) (skipn k v1) (skipn k v2) = skipn k (stack3 v0 v1 v2).
Proof.
  revert v0 v1 v2; induction k as [|k IH]; intros v0 v1 v2 H1 H2; [reflexivity|].
  destruct v0 as [|a v0], v1 as [|b v1], v2 as [|c v2];
    cbn [length] in *; try discriminate; try reflexivity.
  cbn [skipn stack3]. apply IH; congruence.
Qed.

Lemma stack3_slice (a b : nat) (v0 v1 v2 : list vec3) :
  length v1 = length v0 -> length v2 = length v0 ->
  stack3 (slice v0 a b) (slice v1 a b) (slice v2 a b) = slice (stack3 v0 v1 v2) a b.
Proof.
  intros H1 H2. unfold slice.
  rewrite stack3_firstn, stack3_skipn by assumption. reflexivity.
Qed.

Lemma length_slice {A : Type} (l : list A) (a b : nat) :
  length (slice l a b) = Nat.min (b - a) (length l - a).
Proof. unfold slice. rewrite length_firstn, length_skipn. reflexivity. Qed.

Lemma slice_map {A B : Type} (f : A -> B) (l : list A) (a b : nat) :
  slice (map f l) a b = map f (slice l a b).
Proof. unfold slice. rewrite skipn_map, firstn_map. reflexivity. Qed.

Lemma nth_slice {A : Type} (l : list A) (a b i : nat) (d : A) :
  (i < b - a)%nat -> nth i (slice l a b) d = nth (a + i) l d.
Proof.
  intros Hi. unfold slice.
  rewrite nth_firstn.
  destruct (Nat.ltb_spec i (b - a)); [|lia].
  apply nth_skipn.
Qed.

Lemma range_step_bound (stop step start : nat) :
  (0 < step)%nat -> In start (range_step stop step) -> (start < stop)%nat.
Proof.
  intros Hs Hin. unfold range_step in Hin.
  apply in_map_iff in Hin. destruct Hin as (j & <- & Hj).
  apply in_seq in Hj.
  pose proof (Nat.div_mod_eq (stop + step - 1) step) as Hd.
  pose proof (Nat.mod_upper_bound (stop + step - 1) step ltac:(lia)) as Hm.
  nia.
Qed.

Lemma range_step_nonempty (stop step : nat) :
  (0 < step)%nat -> (0 < stop)%nat -> range_step stop step <> [].
Proof.
  intros Hs Hn. unfold range_step.
  assert (1 <= (stop + step - 1) / step)%nat as Hq.
  { apply Nat.div_le_lower_bound; lia. }
  destruct ((stop + step - 1) / step)%nat; [lia|]. discriminate.
Qed.

(** ** [argmin] returns the first index of the minimum *)

Lemma argmin_from_first_min (pre row : list R) (best_i : nat) (best : R) (i : nat) :
  first_min pre best_i -> best = nth best_i pre 0 -> i = length pre ->
  first_min (pre ++ row) (argmin_from best_i best i row).
Proof.
  revert pre best_i best i; induction row as [|x row IH];
    intros pre best_i best i Hfm Hbest Hi.
  - cbn [argmin_from]. rewrite app_nil_r. exact Hfm.
  - cbn [argmin_from]. destruct Hfm as (Hlt & Hmin & Hfirst).
    replace (pre ++ x :: row) with ((pre ++ [x]) ++ row)
      by (rewrite <- app_assoc; reflexivity).
    assert (Hlen : length (pre ++ [x]) = S (length pre))
      by (rewrite length_app; cbn; lia).
    assert (Hlast : nth (length pre) (pre ++ [x]) 0 = x)
      by (rewrite app_nth2, Nat.sub_diag by lia; reflexivity).
    unfold Rltb. destruct (Rlt_dec x best) as [Hx|Hx].
    + apply IH; [|symmetry; subst i; exact Hlast|lia].
      subst i. repeat split.
      * lia.
      * intros j Hj. rewrite Hlast.
        destruct (Nat.eq_dec j (length pre)) as [->|Hne].
        -- rewrite Hlast; lra.
        -- rewrite app_nth1 by lia. specialize (Hmin j ltac:(lia)). lra.
      * intros j Hj. rewrite Hlast.
        rewrite app_nth1 by lia. specialize (Hmin j ltac:(lia)). lra.
    + apply IH; [|rewrite app_nth1 by lia; exact Hbest|lia].
      repeat split.
      * lia.
      * intros j Hj. rewrite (app_nth1 pre [x] 0 (n := best_i)) by lia.
        destruct (Nat.eq_dec j (length pre)) as [->|Hne].
        -- rewrite Hlast; lra.
        -- rewrite app_nth1 by lia. apply Hmin; lia.
      * intros j Hj. rewrite !app_nth1 by lia. apply Hfirst; lia.
Qed.

Lemma argmin_first_min (l : list R) : l <> [] -> first_min l (argmin l).
Proof.
  destruct l as [|x l]; [congruence|]. intros _. unfold argmin.
  change (x :: l) with ([x] ++ l).
  apply argmin_from_first_min; [|reflexivity|reflexivity].
  repeat split; cbn [length nth]; try lia.
  intros [|j] Hj; [lra|cbn in Hj; lia].
Qed.

Lemma first_min_unique (l : list R) (i j : nat) :
  first_min l i -> first_min l j -> i = j.
Proof.
  intros (Hi & Hmi & Hfi) (Hj & Hmj & Hfj).
  destruct (Nat.lt_trichotomy i j) as [H|[H|H]]; [|assumption|].
  - specialize (Hfj i H). specialize (Hmi j Hj). lra.
  - specialize (Hfi j H). specialize (Hmj i Hi). lra.
Qed.

Lemma argmin_lt_length (l : list R) : l <> [] -> (argmin l < length l)%nat.
Proof. intros H; apply (argmin_first_min l H). Qed.

(** ** The face loop of the exhaustive strategy *)

Lemma fold_left_inv_in {A S : Type} (P : S -> Prop) (f : S -> A -> S) (l : list A) :
  (forall s a, In a l -> P s -> P (f s a)) -> forall s, P s -> P (fold_left f l s).
Proof.
  induction l as [|a l IH]; cbn [fold_left]; intros Hstep s Hs; [assumption|].
  apply IH.
  - intros s' a' Hin. apply Hstep. right; assumption.
  - apply Hstep; [left; reflexivity|assumption].
Qed.

Lemma nth_map_lt {A B : Type} (f : A -> B) (l : list A) (i : nat) (d : B) (d' : A) :
  (i < length l)%nat -> nth i (map f l) d = f (nth i l d').
Proof.
  revert i; induction l as [|a l IH]; intros i Hi; cbn [length] in Hi; [lia|].
  destruct i; cbn [map nth]; [reflexivity|]. apply IH; lia.
Qed.

Lemma face_rows_unity (tris : list tri) (p : vec3) (i : nat) :
  (i < length tris)%nat ->
  unity (nth i (map (fun r => snd (fst r)) (face_rows tris p)) (0, 0, 0)).
Proof.
  intros Hi. unfold face_rows. rewrite map_map.
  rewrite (nth_map_lt _ _ _ _ (vzero, vzero, vzero)) by exact Hi.
  apply projection_unity.
Qed.

Lemma lt_dist_false_finite (x : R) (d : dist) : lt_dist x d = false -> d <> PInf.
Proof. destruct d; [discriminate|]. cbn. discriminate. Qed.

Lemma cuda_chunk_ok (fbs n_faces : nat) (v0 v1 v2 normals : list vec3) (p : vec3)
    (st : record) (face_start : nat) :
  length v0 = n_faces -> length v1 = n_faces -> length v2 = n_faces ->
  (0 < fbs)%nat -> (face_start < n_faces)%nat ->
  st = cuda_init \/ record_ok n_faces st ->
  record_ok n_faces (cuda_chunk fbs n_faces v0 v1 v2 normals p st face_start).
Proof.
  intros H0 H1 H2 Hfbs Hstart Hst. unfold cuda_chunk. cbv zeta.
  rewrite stack3_slice by congruence.
  set (face_end := Nat.min (face_start + fbs) n_faces).
  set (tris := slice (stack3 v0 v1 v2) face_start face_end).
  fold (face_rows tris p).
  set (rows := face_rows tris p).
  assert (Hlen : length tris = (face_end - face_start)%nat).
  { unfold tris. rewrite length_slice, (length_stack3 v0 v1 v2 n_faces) by assumption.
    unfold face_end. lia. }
  assert (Hpos : (0 < length tris)%nat) by (rewrite Hlen; unfold face_end; lia).
  assert (Hrows : length (map snd rows) = length tris)
    by (unfold rows, face_rows; rewrite !length_map; reflexivity).
  assert (Hne : map snd rows <> []).
  { intros E. rewrite E in Hrows. cbn in Hrows. lia. }
  pose proof (argmin_lt_length _ Hne) as Harg. rewrite Hrows in Harg.
  destruct (lt_dist _ (r_dist st)) eqn:Hmask.
  - repeat split; cbn [r_face r_bary r_dist].
    + rewrite Hlen in Harg. unfold face_end in Harg. lia.
    + apply face_rows_unity; assumption.
    + discriminate.
  - apply lt_dist_false_finite in Hmask.
    destruct Hst as [->|Hok]; [contradiction Hmask; reflexivity|].
    destruct Hok as (Hf & Hb & Hd).
    repeat split; cbn [r_face r_bary r_dist]; assumption.
Qed.

Lemma cuda_point_ok (fbs n_faces : nat) (v0 v1 v2 normals : list vec3) (p : vec3) :
  length v0 = n_faces -> length v1 = n_faces -> length v2 = n_faces ->
  (0 < fbs)%nat -> (0 < n_faces)%nat ->
  record_ok n_faces (cuda_point fbs n_faces v0 v1 v2 normals p).
Proof.
  intros H0 H1 H2 Hfbs Hn. unfold cuda_point.
  pose proof (range_step_nonempty n_faces fbs Hfbs Hn) as Hne.
  assert (Hin : forall s, In s (range_step n_faces fbs) -> (s < n_faces)%nat)
    by (intros s; apply range_step_bound; assumption).
  destruct (range_step n_faces fbs) as [|s0 starts]; [congruence|].
  cbn [fold_left].
  apply (fold_left_inv_in (record_ok n_faces)).
  - intros st a Ha Hst. apply cuda_chunk_ok; auto. apply Hin; right; assumption.
  - apply cuda_chunk_ok; auto. apply Hin; left; reflexivity.
Qed.

Lemma cuda_points_ok (fbs : nat) (vertices : list vec3) (faces : list face)
    (points : list vec3) (r : record) :
  (0 < fbs)%nat -> faces <> [] ->
  In r (cuda_points fbs vertices faces points) -> record_ok (length faces) r.
Proof.
  intros Hfbs Hne Hin. unfold cuda_points in Hin. cbv zeta in Hin.
  apply in_map_iff in Hin. destruct Hin as (p & <- & _).
  apply cuda_point_ok; try (rewrite length_cp_take, length_map; reflexivity); auto.
  destruct faces; [congruence|cbn; lia].
Qed.

(** ** Face attributes *)

Lemma np_index_lt {A : Type} (a : list A) (i : nat) (d : A) :
  (i < length a)%nat -> np_index a i = Return (nth i a d).
Proof.
  intros Hi. unfold np_index.
  rewrite (nth_error_nth' a d Hi). reflexivity.
Qed.

Lemma np_index_Return {A : Type} (a : list A) (i : nat) (x : A) (d : A) :
  np_index a i = Return x -> (i < length a)%nat /\ x = nth i a d.
Proof.
  unfold np_index. destruct (nth_error a i) as [y|] eqn:E; [|discriminate].
  intros H; inversion H; subst. split.
  - apply nth_error_Some. congruence.
  - symmetry. apply nth_error_nth. exact E.
Qed.

Lemma np_take_valid {A : Type} (a : list A) (idx : list nat) (d : A) :
  Forall (fun i => (i < length a)%nat) idx ->
  np_take a idx = Return (map (fun i => nth i a d) idx).
Proof.
  unfold np_take. induction 1 as [|i idx Hi _ IH]; cbn [mapM map bind]; [reflexivity|].
  rewrite (np_index_lt a i d Hi). cbn [bind]. rewrite IH. reflexivity.
Qed.

Lemma np_take_Return {A : Type} (a : list A) (idx : list nat) (l : list A) (d : A) :
  np_take a idx = Return l ->
  Forall (fun i => (i < length a)%nat) idx /\ l = map (fun i => nth i a d) idx.
Proof.
  unfold np_take. revert l; induction idx as [|i idx IH]; cbn [mapM map bind]; intros l H.
  - inversion H; subst. split; [constructor|reflexivity].
  - destruct (np_index a i) as [x|] eqn:Hx; cbn [bind] in H; [|discriminate].
    destruct (mapM (np_index a) idx) as [xs|] eqn:Hxs; cbn [bind] in H; [|discriminate].
    inversion H; subst.
    destruct (np_index_Return a i x d Hx) as [Hi ->].
    destruct (IH xs eq_refl) as [Hall ->].
    split; [constructor; assumption|reflexivity].
Qed.

Lemma stack3_map {A : Type} (f0 f1 f2 : A -> vec3) (l : list A) :
  stack3 (map f0 l) (map f1 l) (map f2 l) = map (fun x => (f0 x, f1 x, f2 x)) l.
Proof. induction l as [|a l IH]; cbn [map stack3]; [reflexivity|]. rewrite IH; reflexivity. Qed.

Lemma face_tris_stack (vertices : list vec3) (faces : list face) :
  stack3 (map (fun i => nth i vertices vzero) (map face0 faces))
         (map (fun i => nth i vertices vzero) (map face1 faces))
         (map (fun i => nth i vertices vzero) (map face2 faces))
  = map (face_tri vertices) faces.
Proof. rewrite !map_map. apply stack3_map. Qed.

Lemma compute_face_data_valid (vertices : list vec3) (faces : list face) :
  valid_mesh vertices faces ->
  compute_face_data vertices faces
  = Return (map centroid_row (map (face_tri vertices) faces),
            map normal_row (map (face_tri vertices) faces),
            map (face_tri vertices) faces).
Proof.
  intros Hv. unfold compute_face_data.
  rewrite (np_take_valid vertices (map face0 faces) vzero)
    by (apply Forall_map; eapply Forall_impl; [|exact Hv]; cbn; tauto).
  rewrite (np_take_valid vertices (map face1 faces) vzero)
    by (apply Forall_map; eapply Forall_impl; [|exact Hv]; cbn; tauto).
  rewrite (np_take_valid vertices (map face2 faces) vzero)
    by (apply Forall_map; eapply Forall_impl; [|exact Hv]; cbn; tauto).
  cbn [bind]. rewrite face_tris_stack. reflexivity.
Qed.

Lemma compute_face_data_Return (vertices : list vec3) (faces : list face)
    (centroids normals : list vec3) (face_verts : list tri) :
  compute_face_data vertices faces = Return (centroids, normals, face_verts) ->
  valid_mesh vertices faces /\
  centroids = map centroid_row face_verts /\
  normals = map normal_row face_verts /\
  face_verts = map (face_tri vertices) faces.
Proof.
  unfold compute_face_data. intros H.
  destruct (np_take vertices (map face0 faces)) as [v0|] eqn:E0; cbn [bind] in H;
    [|discriminate].
  destruct (np_take vertices (map face1 faces)) as [v1|] eqn:E1; cbn [bind] in H;
    [|discriminate].
  destruct (np_take vertices (map face2 faces)) as [v2|] eqn:E2; cbn [bind] in H;
    [|discriminate].
  inversion H; subst; clear H.
  destruct (np_take_Return _ _ _ vzero E0) as [A0 ->].
  destruct (np_take_Return _ _ _ vzero E1) as [A1 ->].
  destruct (np_take_Return _ _ _ vzero E2) as [A2 ->].
  rewrite face_tris_stack. repeat split; try reflexivity.
  unfold valid_mesh. rewrite Forall_map in A0, A1, A2.
  rewrite Forall_forall in *. intros f Hf. auto.
Qed.

(** ** The candidate loop of the index-accelerated strategy *)

Lemma face_rows_nth (tris : list tri) (p : vec3) (j : nat) :
  (j < length tris)%nat ->
  point_to_triangle_distance_and_projection
    p (tri0 (nth j tris (vzero, vzero, vzero))) (tri1 (nth j tris (vzero, vzero, vzero)))
    (tri2 (nth j tris (vzero, vzero, vzero)))
  = (fst (fst (nth j (face_rows tris p) (vzero, (0, 0, 0), 0))),
     face_bary tris p j, face_dist tris p j).
Proof.
  intros Hj. unfold face_bary, face_dist, face_rows.
  rewrite (nth_map_lt _ _ _ _ (vzero, vzero, vzero)) by exact Hj.
  destruct (point_to_triangle_distance_and_projection _ _ _ _) as [[c b] d].
  reflexivity.
Qed.

Lemma cpu_candidate_step (n_faces : nat) (tris : list tri) (p : vec3)
    (best : cpu_best) (c : nat) :
  length tris = n_faces ->
  cpu_candidate n_faces tris p best c
  = Return (if (n_faces <=? c)%nat then best
            else if lt_dist (face_dist tris p c) (fst (fst best))
                 then (Fin (face_dist tris p c), c, face_bary tris p c)
                 else best).
Proof.
  intros Hlen. unfold cpu_candidate.
  destruct (Nat.leb_spec n_faces c) as [Hge|Hlt]; [reflexivity|].
  rewrite (np_index_lt tris c (vzero, vzero, vzero)) by lia. cbn [bind].
  rewrite face_rows_nth by lia.
  destruct best as [[bd bf] bb]. cbn [fst].
  destruct (lt_dist _ bd); reflexivity.
Qed.

Lemma lt_dist_true_iff (x : R) (b : R) : lt_dist x (Fin b) = true <-> x < b.
Proof.
  cbn. unfold Rltb. destruct (Rlt_dec x b); split; intros; try assumption;
    try reflexivity; try discriminate; contradiction.
Qed.

Lemma cpu_loop_step (n_faces : nat) (tris : list tri) (p : vec3)
    (seen : list nat) (best : cpu_best) (c : nat) :
  cpu_loop_inv n_faces tris p seen best ->
  cpu_loop_inv n_faces tris p (seen ++ [c])
    (if (n_faces <=? c)%nat then best
     else if lt_dist (face_dist tris p c) (fst (fst best))
          then (Fin (face_dist tris p c), c, face_bary tris p c)
          else best).
Proof.
  intros Hinv.
  destruct (Nat.leb_spec n_faces c) as [Hge|Hlt].
  - destruct Hinv as [[-> Hall]|(f & Hf & Hin & -> & Hmin)].
    + left. split; [reflexivity|].
      intros c' Hc'. apply in_app_or in Hc'. destruct Hc' as [Hc'|[<-|[]]]; auto.
    + right. exists f. repeat split; auto.
      * apply in_or_app; left; assumption.
      * intros c' Hc' Hlt'. apply in_app_or in Hc'.
        destruct Hc' as [Hc'|[<-|[]]]; [auto|lia].
  - destruct Hinv as [[-> Hall]|(f & Hf & Hin & -> & Hmin)].
    + cbn [cpu_init fst lt_dist]. right. exists c. repeat split; auto.
      * apply in_or_app; right; left; reflexivity.
      * intros c' Hc' Hlt'. apply in_app_or in Hc'.
        destruct Hc' as [Hc'|[<-|[]]]; [specialize (Hall c' Hc'); lia|lra].
    + cbn [fst]. destruct (lt_dist _ _) eqn:Hl.
      * apply lt_dist_true_iff in Hl. right. exists c. repeat split; auto.
        -- apply in_or_app; right; left; reflexivity.
        -- intros c' Hc' Hlt'. apply in_app_or in Hc'.
           destruct Hc' as [Hc'|[<-|[]]]; [specialize (Hmin c' Hc' Hlt'); lra|lra].
      * assert (~ face_dist tris p c < face_dist tris p f) as Hnl.
        { intros Hx. apply lt_dist_true_iff in Hx. congruence. }
        right. exists f. repeat split; auto.
        -- apply in_or_app; left; assumption.
        -- intros c' Hc' Hlt'. apply in_app_or in Hc'.
           destruct Hc' as [Hc'|[<-|[]]]; [auto|lra].
Qed.

Lemma cpu_loop_spec (n_faces : nat) (tris : list tri) (p : vec3) (cands : list nat) :
  length tris = n_faces ->
  forall seen best,
    cpu_loop_inv n_faces tris p seen best ->
    exists best',
      foldM (cpu_candidate n_faces tris p) cands best = Return best' /\
      cpu_loop_inv n_faces tris p (seen ++ cands) best'.
Proof.
  intros Hlen. induction cands as [|c cands IH]; intros seen best Hinv.
  - exists best. rewrite app_nil_r. split; [reflexivity|assumption].
  - cbn [foldM]. rewrite cpu_candidate_step by assumption. cbn [bind].
    destruct (IH (seen ++ [c]) _ (cpu_loop_step n_faces tris p seen best c Hinv))
      as (best' & Hfold & Hinv').
    exists best'. split; [exact Hfold|].
    rewrite <- app_assoc in Hinv'. exact Hinv'.
Qed.

Lemma cpu_loop_from_init (n_faces : nat) (tris : list tri) (p : vec3) (cands : list nat) :
  length tris = n_faces ->
  exists best,
    foldM (cpu_candidate n_faces tris p) cands cpu_init = Return best /\
    cpu_loop_inv n_faces tris p cands best.
Proof.
  intros Hlen.
  apply (cpu_loop_spec n_faces tris p cands Hlen [] cpu_init).
  left. split; [reflexivity|]. intros c [].
Qed.

Lemma face_bary_unity (tris : list tri) (p : vec3) (f : nat) :
  (f < length tris)%nat -> unity (face_bary tris p f).
Proof.
  intros Hf. unfold face_bary, face_rows.
  rewrite (nth_map_lt _ _ _ _ (vzero, vzero, vzero)) by exact Hf.
  apply projection_unity.
Qed.

Lemma cpu_loop_inv_ok (n_faces : nat) (tris : list tri) (p : vec3) (seen : list nat)
    (bd : dist) (bf : nat) (bb : bary3) :
  length tris = n_faces -> (0 < n_faces)%nat ->
  cpu_loop_inv n_faces tris p seen (bd, bf, bb) ->
  (bf < n_faces)%nat /\ unity bb.
Proof.
  intros Hlen Hpos [[Hinit _]|(f & Hf & _ & Hbest & _)].
  - unfold cpu_init in Hinit. inversion Hinit; subst. split; [lia|apply unity_third].
  - inversion Hbest; subst. split; [assumption|].
    apply face_bary_unity. lia.
Qed.

(** The record of one point: the loop's best face, its barycentric row,
    the offset along that face's normal from its vertex 0, and the
    distance. *)
Lemma cpu_point_spec (n_faces : nat) (normals : list vec3) (tris : list tri)
    (p : vec3) (cands : list nat) :
  length tris = n_faces -> length normals = n_faces -> (0 < n_faces)%nat ->
  exists bd bf bb,
    cpu_loop_inv n_faces tris p cands (bd, bf, bb) /\
    (bf < n_faces)%nat /\ unity bb /\
    cpu_point n_faces normals tris p cands
    = Return (mkRecord bf bb
                (dot (vsub p (tri0 (nth bf tris (vzero, vzero, vzero))))
                     (nth bf normals vzero))
                bd).
Proof.
  intros Hlen Hn Hpos.
  destruct (cpu_loop_from_init n_faces tris p cands Hlen) as ([[bd bf] bb] & Hfold & Hinv).
  destruct (cpu_loop_inv_ok _ _ _ _ _ _ _ Hlen Hpos Hinv) as [Hbf Hbb].
  exists bd, bf, bb. repeat split; try assumption.
  unfold cpu_point. rewrite Hfold. cbn [bind].
  rewrite (np_index_lt normals bf vzero) by lia. cbn [bind].
  rewrite (np_index_lt tris bf (vzero, vzero, vzero)) by lia. cbn [bind].
  reflexivity.
Qed.

Section IndexStrategyResults.

Variable kdtree : Type.
Variable KDTree : list vec3 -> outcome kdtree.
Variable query : kdtree -> vec3 -> nat -> list nat.

(** What a returned result of the index-accelerated strategy is made of. *)
Lemma compute_mapping_cpu_Return batch_size positions vertices faces k res :
  (0 < batch_size)%nat ->
  compute_mapping_cpu_with kdtree KDTree query batch_size positions vertices faces k
  = Return res ->
  let tris := map (face_tri vertices) faces in
  exists tree rs,
    valid_mesh vertices faces /\
    KDTree (map centroid_row tris) = Return tree /\
    cpu_points kdtree query tree (length faces) (map normal_row tris) tris k positions
    = Return rs /\
    res = assemble rs.
Proof.
  intros Hbs. rewrite compute_mapping_cpu_unbatched by assumption.
  destruct (compute_face_data vertices faces) as [[[centroids normals] face_verts]|] eqn:Hfd;
    cbn [bind]; [|discriminate].
  apply compute_face_data_Return in Hfd. destruct Hfd as (Hv & -> & -> & ->).
  destruct (KDTree _) as [tree|] eqn:Htree; cbn [bind]; [|discriminate].
  destruct (cpu_points _ _ _ _ _ _ _ _) as [rs|] eqn:Hrs; cbn [bind]; [|discriminate].
  intros H; inversion H; subst. cbv zeta.
  exists tree, rs. auto.
Qed.

(** The index-accelerated strategy returns on every valid mesh with a
    face on which the tree can be built. *)
Lemma compute_mapping_cpu_returns batch_size positions vertices faces k tree :
  (0 < batch_size)%nat -> valid_mesh vertices faces -> faces <> [] ->
  KDTree (map centroid_row (map (face_tri vertices) faces)) = Return tree ->
  exists rs,
    cpu_points kdtree query tree (length faces)
      (map normal_row (map (face_tri vertices) faces))
      (map (face_tri vertices) faces) k positions = Return rs /\
    compute_mapping_cpu_with kdtree KDTree query batch_size positions vertices faces k
    = Return (assemble rs).
Proof.
  intros Hbs Hv Hne Htree.
  rewrite compute_mapping_cpu_unbatched by assumption.
  rewrite (compute_face_data_valid _ _ Hv). cbn [bind]. rewrite Htree. cbn [bind].
  assert (Hpos : (0 < length faces)%nat) by (destruct faces; [congruence|cbn; lia]).
  destruct (mapM_total
              (fun p => cpu_point (length faces)
                          (map normal_row (map (face_tri vertices) faces))
                          (map (face_tri vertices) faces) p (query tree p k)) positions)
    as [rs Hrs].
  { intros p _.
    destruct (cpu_point_spec (length faces)
                (map normal_row (map (face_tri vertices) faces))
                (map (face_tri vertices) faces) p (query tree p k))
      as (bd & bf & bb & _ & _ & _ & Hp);
      rewrite ?length_map; auto.
    eexists; exact Hp. }
  exists rs. unfold cpu_points. rewrite Hrs. cbn [bind]. split; reflexivity.
Qed.

(** Every record of a returned result comes from the candidate loop of
    its point. *)
Lemma compute_mapping_cpu_record batch_size positions vertices faces k res i r :
  (0 < batch_size)%nat -> faces <> [] ->
  compute_mapping_cpu_with kdtree KDTree query batch_size positions vertices faces k
  = Return res ->
  nth_error (face_indices res) i = Some (r_face r) ->
  nth_error (bary_coords res) i = Some (r_bary r) ->
  nth_error (normal_offsets res) i = Some (r_offset r) ->
  nth_error (distances res) i = Some (r_dist r) ->
  let tris := map (face_tri vertices) faces in
  exists tree p,
    KDTree (map centroid_row tris) = Return tree /\
    nth_error positions i = Some p /\
    cpu_loop_inv (length faces) tris p (query tree p k) (r_dist r, r_face r, r_bary r) /\
    (r_face r < length faces)%nat /\ unity (r_bary r) /\
    r_offset r = dot (vsub p (tri0 (nth (r_face r) tris (vzero, vzero, vzero))))
                     (nth (r_face r) (map normal_row tris) vzero).
Proof.
  intros Hbs Hne Hres Hf Hb Ho Hd. cbv zeta.
  destruct (compute_mapping_cpu_Return _ _ _ _ _ _ Hbs Hres)
    as (tree & rs & Hv & Htree & Hrs & ->).
  cbn [assemble face_indices bary_coords normal_offsets distances] in *.
  rewrite nth_error_map in Hf, Hb, Ho, Hd.
  destruct (nth_error rs i) as [r'|] eqn:Hr'; cbn in Hf, Hb, Ho, Hd; [|discriminate].
  inversion Hf; inversion Hb; inversion Ho; inversion Hd.
  assert (r' = r) as -> by (destruct r', r; cbn in *; congruence).
  unfold cpu_points in Hrs.
  destruct (mapM_nth_error _ _ _ _ _ Hrs Hr') as (p & Hp & Hcp).
  assert (Hpos : (0 < length faces)%nat) by (destruct faces; [congruence|cbn; lia]).
  destruct (cpu_point_spec (length faces)
              (map normal_row (map (face_tri vertices) faces))
              (map (face_tri vertices) faces) p (query tree p k))
    as (bd & bf & bb & Hinv & Hbf & Hbb & Hp');
    rewrite ?length_map; auto.
  rewrite Hp' in Hcp. inversion Hcp; subst; clear Hcp. cbn [r_face r_bary r_offset r_dist].
  exists tree, p. repeat split; auto.
Qed.

End IndexStrategyResults.

Lemma mapM_Forall {A B : Type} (P : B -> Prop) (f : A -> outcome B) (l : list A)
    (rs : list B) :
  (forall a b, In a l -> f a = Return b -> P b) ->
  mapM f l = Return rs -> Forall P rs.
Proof.
  revert rs; induction l as [|a l IH]; cbn [mapM bind]; intros rs HP H.
  - inversion H; constructor.
  - destruct (f a) as [b|] eqn:Hfa; cbn [bind] in H; [|discriminate].
    destruct (mapM f l) as [bs|]; cbn [bind] in H; [|discriminate].
    inversion H; subst. constructor.
    + apply (HP a b); [left; reflexivity|assumption].
    + apply IH; [|reflexivity]. intros a' b' Hin. apply HP. right; assumption.
Qed.

Lemma cpu_points_ok (kdtree : Type) (query : kdtree -> vec3 -> nat -> list nat)
    (tree : kdtree) (n_faces : nat) (normals : list vec3) (tris : list tri) (k : nat)
    (points : list vec3) (rs : list record) :
  length tris = n_faces -> length normals = n_faces -> (0 < n_faces)%nat ->
  cpu_points kdtree query tree n_faces normals tris k points = Return rs ->
  Forall (fun r => (r_face r < n_faces)%nat /\ unity (r_bary r)) rs.
Proof.
  intros Hlen Hn Hpos. unfold cpu_points. apply mapM_Forall.
  intros p r _ Hr.
  destruct (cpu_point_spec n_faces normals tris p (query tree p k) Hlen Hn Hpos)
    as (bd & bf & bb & _ & Hbf & Hbb & Hp).
  rewrite Hp in Hr. inversion Hr; subst. cbn [r_face r_bary]. auto.
Qed.

Lemma faces_nonempty_pos (faces : list face) : faces <> [] -> (0 < length faces)%nat.
Proof. destruct faces; [congruence|cbn; lia]. Qed.

(** ** C9: index validity *)

(** C9.  For every point set and every mesh with at least one face, every
    face index of the result lies in [0, F), in the index-accelerated
    strategy (for every [k_nearest] and every behaviour of the tree
    query: a candidate index at or above F is skipped and the starting
    face 0 is a valid index; the strategy returns a result on every valid
    mesh on which the tree is built) and in the exhaustive strategy
    (which always returns). *)
Theorem face_index_in_range
    (kdtree : Type) (KDTree : list vec3 -> outcome kdtree)
    (query : kdtree -> vec3 -> nat -> list nat)
    (cpu_batch_size batch_size face_batch_size k_nearest : nat)
    (positions vertices : list vec3) (faces : list face) :
  (0 < cpu_batch_size)%nat -> (0 < batch_size)%nat -> (0 < face_batch_size)%nat ->
  faces <> [] ->
  (forall res,
      compute_mapping_cpu_with kdtree KDTree query cpu_batch_size
        positions vertices faces k_nearest = Return res ->
      Forall (fun f => (f < length faces)%nat) (face_indices res)) /\
  (forall tree,
      valid_mesh vertices faces ->
      KDTree (map centroid_row (map (face_tri vertices) faces)) = Return tree ->
      exists res,
        compute_mapping_cpu_with kdtree KDTree query cpu_batch_size
          positions vertices faces k_nearest = Return res) /\
  (exists res,
      compute_mapping_cuda_with batch_size face_batch_size
        positions vertices faces k_nearest = Return res /\
      Forall (fun f => (f < length faces)%nat) (face_indices res)).
Proof.
  intros Hcbs Hbs Hfbs Hne.
  pose proof (faces_nonempty_pos faces Hne) as Hpos.
  split; [|split].
  - intros res Hres.
    destruct (compute_mapping_cpu_Return _ _ _ _ _ _ _ _ _ Hcbs Hres)
      as (tree & rs & _ & _ & Hrs & ->).
    apply cpu_points_ok in Hrs; rewrite ?length_map; auto.
    cbn [assemble face_indices]. apply Forall_map.
    eapply Forall_impl; [|exact Hrs]. cbn. tauto.
  - intros tree Hv Htree.
    destruct (compute_mapping_cpu_returns kdtree KDTree query cpu_batch_size positions
                vertices faces k_nearest tree Hcbs Hv Hne Htree) as (rs & _ & Hret).
    eexists; exact Hret.
  - rewrite compute_mapping_cuda_unbatched by assumption.
    eexists; split; [reflexivity|].
    cbn [assemble face_indices]. apply Forall_map, Forall_forall.
    intros r Hr. apply (cuda_points_ok _ _ _ _ _ Hfbs Hne Hr).
Qed.

(** ** C4: partition of unity *)


(** ** The exhaustive strategy selects the first nearest face *)

Lemma first_min_app_l (l1 l2 : list R) (i : nat) :
  first_min l1 i ->
  (forall j, (j < length l2)%nat -> nth i l1 0 <= nth j l2 0) ->
  first_min (l1 ++ l2) i.
Proof.
  intros (Hi & Hmin & Hfirst) H2. repeat split.
  - rewrite length_app; lia.
  - intros j Hj. rewrite length_app in Hj. rewrite (app_nth1 l1 l2 0 Hi).
    destruct (Nat.lt_ge_cases j (length l1)) as [Hlt|Hge].
    + rewrite app_nth1 by assumption. apply Hmin; assumption.
    + rewrite app_nth2 by assumption. apply H2; lia.
  - intros j Hj. rewrite !app_nth1 by lia. apply Hfirst; assumption.
Qed.

Lemma first_min_app_r (l1 l2 : list R) (i : nat) :
  first_min l2 i ->
  (forall j, (j < length l1)%nat -> nth i l2 0 < nth j l1 0) ->
  first_min (l1 ++ l2) (length l1 + i).
Proof.
  intros (Hi & Hmin & Hfirst) H1.
  assert (Hnth : nth (length l1 + i) (l1 ++ l2) 0 = nth i l2 0).
  { rewrite app_nth2 by lia. f_equal; lia. }
  repeat split.
  - rewrite length_app; lia.
  - intros j Hj. rewrite length_app in Hj. rewrite Hnth.
    destruct (Nat.lt_ge_cases j (length l1)) as [Hlt|Hge].
    + rewrite app_nth1 by assumption. specialize (H1 j Hlt). lra.
    + rewrite app_nth2 by assumption. apply Hmin; lia.
  - intros j Hj. rewrite Hnth.
    destruct (Nat.lt_ge_cases j (length l1)) as [Hlt|Hge].
    + rewrite app_nth1 by assumption. apply H1; assumption.
    + rewrite app_nth2 by assumption. apply Hfirst; lia.
Qed.

Lemma first_min_argmin (l : list R) (i : nat) : first_min l i -> argmin l = i.
Proof.
  intros Hfm. apply (first_min_unique l); [|assumption].
  apply argmin_first_min. destruct Hfm as (Hi & _). destruct l; [cbn in Hi; lia|discriminate].
Qed.

Lemma firstn_slice_split {A : Type} (l : list A) (a b : nat) :
  (a <= b)%nat -> firstn b l = firstn a l ++ slice l a b.
Proof.
  intros Hab. unfold slice.
  rewrite <- (firstn_skipn a l) at 1.
  rewrite firstn_app.
  destruct (Nat.le_gt_cases a (length l)) as [Hle|Hgt].
  - rewrite length_firstn, Nat.min_l by assumption.
    rewrite (@firstn_all2 _ b (firstn a l)) by (rewrite length_firstn; lia).
    reflexivity.
  - rewrite length_firstn, Nat.min_r by lia.
    rewrite (@firstn_all2 _ b (firstn a l)) by (rewrite length_firstn; lia).
    rewrite skipn_all2 by lia. rewrite !firstn_nil. reflexivity.
Qed.

Lemma all_dists_nth (tris : list tri) (p : vec3) (j : nat) :
  nth j (all_dists tris p) 0 = face_dist tris p j.
Proof.
  unfold all_dists, face_dist.
  change 0 with (snd (vzero, (0, 0, 0), 0)) at 1.
  apply map_nth.
Qed.

Lemma length_all_dists (tris : list tri) (p : vec3) :
  length (all_dists tris p) = length tris.
Proof. unfold all_dists, face_rows. rewrite !length_map. reflexivity. Qed.

(** One chunk of the face loop, on the rows of the whole mesh. *)
Lemma cuda_chunk_rows (fbs n_faces : nat) (v0 v1 v2 normals : list vec3) (p : vec3)
    (st : record) (a : nat) :
  length v0 = n_faces -> length v1 = n_faces -> length v2 = n_faces ->
  (0 < fbs)%nat -> (a < n_faces)%nat ->
  let tris := stack3 v0 v1 v2 in
  let b := Nat.min (a + fbs) n_faces in
  let i := argmin (slice (all_dists tris p) a b) in
  let shifted := (Z.of_nat i - Z.of_nat a)%Z in
  (i < b - a)%nat /\
  cuda_chunk fbs n_faces v0 v1 v2 normals p st a
  = if lt_dist (face_dist tris p (a + i)) (r_dist st)
    then mkRecord (i + a) (face_bary tris p (a + i))
           (dot (vsub p (cp_index (slice v0 a b) shifted vzero))
                (cp_index (slice normals a b) shifted vzero))
           (Fin (face_dist tris p (a + i)))
    else st.
Proof.
  intros H0 H1 H2 Hfbs Ha. cbv zeta.
  set (b := Nat.min (a + fbs) n_faces).
  set (tris := stack3 v0 v1 v2).
  assert (Htris : length tris = n_faces) by (apply length_stack3; assumption).
  set (D := slice (all_dists tris p) a b).
  assert (HDlen : length D = (b - a)%nat).
  { unfold D. rewrite length_slice, length_all_dists, Htris. unfold b. lia. }
  assert (HDne : D <> []).
  { intros E. rewrite E in HDlen. cbn in HDlen. unfold b in HDlen. lia. }
  pose proof (argmin_lt_length D HDne) as Hi. rewrite HDlen in Hi.
  split; [exact Hi|].
  unfold cuda_chunk. cbv zeta. fold b.
  rewrite stack3_slice by congruence. fold tris.
  fold (face_rows (slice tris a b) p).
  assert (Hrows : face_rows (slice tris a b) p = slice (face_rows tris p) a b)
    by (unfold face_rows; rewrite slice_map; reflexivity).
  rewrite Hrows.
  assert (HD : map snd (slice (face_rows tris p) a b) = D)
    by (unfold D, all_dists; rewrite slice_map; reflexivity).
  rewrite HD.
  assert (Hmin : nth (argmin D) D 0 = face_dist tris p (a + argmin D)).
  { unfold D at 2. rewrite nth_slice by exact Hi. apply all_dists_nth. }
  rewrite Hmin.
  assert (Hbary : nth (argmin D) (map (fun r => snd (fst r)) (slice (face_rows tris p) a b))
                      (0, 0, 0) = face_bary tris p (a + argmin D)).
  { change (0, 0, 0) with ((fun r : vec3 * bary3 * R => snd (fst r)) (vzero, (0, 0, 0), 0)).
    rewrite map_nth, nth_slice by exact Hi. reflexivity. }
  rewrite Hbary.
  destruct (lt_dist _ (r_dist st)); [reflexivity|].
  destruct st; reflexivity.
Qed.

Lemma nth_firstn_lt {A : Type} (l : list A) (n i : nat) (d : A) :
  (i < n)%nat -> nth i (firstn n l) d = nth i l d.
Proof.
  intros Hi. rewrite nth_firstn. destruct (Nat.ltb_spec i n); [reflexivity|lia].
Qed.

Lemma cuda_chunk_inv (fbs n_faces : nat) (v0 v1 v2 normals : list vec3) (p : vec3)
    (st : record) (a : nat) :
  length v0 = n_faces -> length v1 = n_faces -> length v2 = n_faces ->
  (0 < fbs)%nat -> (a < n_faces)%nat ->
  cuda_loop_inv (stack3 v0 v1 v2) p a st ->
  cuda_loop_inv (stack3 v0 v1 v2) p (Nat.min (a + fbs) n_faces)
    (cuda_chunk fbs n_faces v0 v1 v2 normals p st a).
Proof.
  intros H0 H1 H2 Hfbs Ha Hinv.
  destruct (cuda_chunk_rows fbs n_faces v0 v1 v2 normals p st a H0 H1 H2 Hfbs Ha)
    as [Hi Hchunk].
  cbv zeta in Hi, Hchunk. rewrite Hchunk. clear Hchunk.
  set (tris := stack3 v0 v1 v2) in *.
  set (b := Nat.min (a + fbs) n_faces) in *.
  set (D := all_dists tris p) in *.
  set (i := argmin (slice D a b)) in *.
  assert (Htris : length tris = n_faces) by (apply length_stack3; assumption).
  assert (HDlen : length D = n_faces)
    by (unfold D; rewrite length_all_dists; exact Htris).
  assert (Hab : (a < b)%nat) by (unfold b; lia).
  assert (Hbn : (b <= n_faces)%nat) by (unfold b; lia).
  assert (Hclen : length (slice D a b) = (b - a)%nat)
    by (rewrite length_slice, HDlen; lia).
  assert (Hcne : slice D a b <> []).
  { intros E. rewrite E in Hclen. cbn in Hclen. lia. }
  pose proof (argmin_first_min _ Hcne) as Hfmc. fold i in Hfmc.
  assert (Hci : forall j, (j < b - a)%nat -> nth j (slice D a b) 0 = face_dist tris p (a + j)).
  { intros j Hj. rewrite nth_slice by exact Hj. apply all_dists_nth. }
  assert (Hsplit : firstn b D = firstn a D ++ slice D a b)
    by (apply firstn_slice_split; lia).
  assert (Hl1 : length (firstn a D) = a) by (rewrite length_firstn, HDlen; lia).
  unfold cuda_loop_inv in Hinv |- *. fold D in Hinv |- *.
  right. split; [lia|].
  destruct Hinv as [[-> ->]|(Hapos & Hface & Hbary & Hdist)].
  - cbn [cuda_init r_dist lt_dist r_face r_bary].
    rewrite Nat.add_0_r, Nat.add_0_l.
    repeat split.
    rewrite Hsplit. cbn [firstn app]. reflexivity.
  - assert (Hl1ne : firstn a D <> []).
    { intros E. rewrite E in Hl1. cbn in Hl1. lia. }
    pose proof (argmin_first_min _ Hl1ne) as Hfm1. rewrite <- Hface in Hfm1.
    assert (Hf : (r_face st < a)%nat) by (destruct Hfm1 as (Hx & _); lia).
    assert (Hnf : nth (r_face st) (firstn a D) 0 = face_dist tris p (r_face st)).
    { rewrite nth_firstn_lt by exact Hf. apply all_dists_nth. }
    rewrite Hdist.
    destruct (lt_dist _ _) eqn:Hl.
    + apply lt_dist_true_iff in Hl.
      cbn [r_face r_bary r_dist]. rewrite (Nat.add_comm i a).
      repeat split.
      rewrite Hsplit. symmetry.
      pose proof (first_min_app_r (firstn a D) (slice D a b) i Hfmc) as Hr.
      rewrite Hl1 in Hr. apply first_min_argmin, Hr.
      intros j Hj. rewrite Hci by exact Hi.
      destruct Hfm1 as (_ & Hmin1 & _). specialize (Hmin1 j ltac:(lia)).
      rewrite Hnf in Hmin1. lra.
    + assert (Hnl : ~ face_dist tris p (a + i) < face_dist tris p (r_face st)).
      { intros Hx. apply lt_dist_true_iff in Hx. congruence. }
      repeat split; try assumption.
      rewrite Hsplit. symmetry.
      apply first_min_argmin, first_min_app_l; [exact Hfm1|].
      intros j Hj. rewrite Hclen in Hj. rewrite Hnf.
      destruct Hfmc as (_ & Hminc & _). specialize (Hminc j ltac:(rewrite Hclen; lia)).
      rewrite (Hci i Hi), (Hci j Hj) in Hminc. rewrite (Hci j Hj). lra.
Qed.

Lemma ceil_div_below (n bs q : nat) :
  (0 < bs)%nat -> (q < (n + bs - 1) / bs)%nat -> (q * bs < n)%nat.
Proof.
  intros Hbs Hq.
  pose proof (Nat.div_mod_eq (n + bs - 1) bs) as Hd.
  pose proof (Nat.mod_upper_bound (n + bs - 1) bs ltac:(lia)) as Hm.
  nia.
Qed.

Lemma cuda_loop_prefix (fbs n_faces : nat) (v0 v1 v2 normals : list vec3) (p : vec3) (q : nat) :
  length v0 = n_faces -> length v1 = n_faces -> length v2 = n_faces ->
  (0 < fbs)%nat -> (q <= (n_faces + fbs - 1) / fbs)%nat ->
  cuda_loop_inv (stack3 v0 v1 v2) p (Nat.min (q * fbs) n_faces)
    (fold_left (cuda_chunk fbs n_faces v0 v1 v2 normals p)
               (map (fun j => (j * fbs)%nat) (seq 0 q)) cuda_init).
Proof.
  intros H0 H1 H2 Hfbs. induction q as [|q IH]; intros Hq.
  - left. split; reflexivity.
  - rewrite seq_S, map_app, fold_left_app. cbn [map fold_left plus].
    pose proof (ceil_div_below n_faces fbs q Hfbs ltac:(lia)) as Ha.
    specialize (IH ltac:(lia)). rewrite Nat.min_l in IH by lia.
    replace (S q * fbs)%nat with (q * fbs + fbs)%nat by lia.
    apply cuda_chunk_inv; assumption.
Qed.

(** The face loop ends on the first face of minimal distance, for every
    positive chunk size. *)
Lemma cuda_point_select (fbs n_faces : nat) (v0 v1 v2 normals : list vec3) (p : vec3) :
  length v0 = n_faces -> length v1 = n_faces -> length v2 = n_faces ->
  (0 < fbs)%nat -> (0 < n_faces)%nat ->
  let tris := stack3 v0 v1 v2 in
  let st := cuda_point fbs n_faces v0 v1 v2 normals p in
  r_face st = argmin (all_dists tris p) /\
  r_bary st = face_bary tris p (r_face st) /\
  r_dist st = Fin (face_dist tris p (r_face st)).
Proof.
  intros H0 H1 H2 Hfbs Hn. cbv zeta.
  pose proof (cuda_loop_prefix fbs n_faces v0 v1 v2 normals p
                ((n_faces + fbs - 1) / fbs) H0 H1 H2 Hfbs (Nat.le_refl _)) as Hinv.
  rewrite Nat.min_r in Hinv by (apply ceil_div_covers; assumption).
  fold (range_step n_faces fbs) in Hinv.
  fold (cuda_point fbs n_faces v0 v1 v2 normals p) in Hinv.
  destruct Hinv as [[Hz _]|(_ & Hface & Hbary & Hdist)]; [lia|].
  rewrite firstn_all2 in Hface
    by (rewrite length_all_dists, (length_stack3 v0 v1 v2 n_faces); auto).
  auto.
Qed.

(** ** Evaluating the narrow phase *)

Lemma floor_denom_keep (d : R) : eps <= Rabs d -> floor_denom d = d.
Proof. intros H. unfold floor_denom. rewrite Rltb_false; [reflexivity|lra]. Qed.


Lemma clip01_id (x : R) : 0 <= x <= 1 -> clip x 0 1 = x.
Proof.
  intros H. unfold clip, Rmin, Rmax.
  repeat (destruct (Rle_dec _ _)); lra.
Qed.

Lemma clamp_renorm_id (u v w : R) :
  0 <= u -> 0 <= v -> 0 <= w -> u + v + w = 1 -> clamp_renorm (u, v, w) = (u, v, w).
Proof.
  intros Hu Hv Hw Hs. unfold clamp_renorm.
  rewrite !clip01_id by lra. rewrite Hs.
  rewrite floor_total_id by lra.
  unfold Rdiv. rewrite Rinv_1, !Rmult_1_r. reflexivity.
Qed.

(** The 2x2 solve, when the determinant is not floored. *)
Lemma solve_bary_eq (p v0 v1 v2 : vec3) (u v w : R) :
  let edge0 := vsub v1 v0 in
  let edge1 := vsub v2 v0 in
  let d00 := dot edge0 edge0 in
  let d01 := dot edge0 edge1 in
  let d11 := dot edge1 edge1 in
  let d20 := dot (vsub p v0) edge0 in
  let d21 := dot (vsub p v0) edge1 in
  let denom := d00 * d11 - d01 * d01 in
  eps <= Rabs denom ->
  v * denom = d11 * d20 - d01 * d21 ->
  w * denom = d00 * d21 - d01 * d20 ->
  u = 1 - v - w ->
  solve_bary p v0 v1 v2 = (u, v, w).
Proof.
  cbv zeta. intros Hd Hv Hw Hu. unfold solve_bary. cbv zeta.
  rewrite (floor_denom_keep _ Hd).
  set (denom := _ - _) in *.
  assert (Hne : denom <> 0).
  { intros E. rewrite E, Rabs_R0 in Hd. pose proof eps_pos. lra. }
  rewrite <- Hv, <- Hw.
  replace (v * denom / denom) with v by (field; exact Hne).
  replace (w * denom / denom) with w by (field; exact Hne).
  rewrite Hu. reflexivity.
Qed.

Lemma norm_eq (a : vec3) (r : R) : 0 <= r -> dot a a = r * r -> norm a = r.
Proof. intros Hr Hd. unfold norm. rewrite Hd. apply sqrt_square; exact Hr. Qed.


Lemma dot_self_nonneg (a : vec3) : 0 <= dot a a.
Proof. unfold dot. nra. Qed.


Lemma norm_le (a b : vec3) : dot a a <= dot b b -> norm a <= norm b.
Proof. intros H. unfold norm. apply sqrt_le_1_alt. exact H. Qed.

(** A point whose solved coordinates are all non-negative is projected
    without clamping. *)
Lemma projection_eq (p v0 v1 v2 : vec3) (u v w d : R) :
  solve_bary p v0 v1 v2 = (u, v, w) ->
  0 <= u -> 0 <= v -> 0 <= w ->
  0 <= d ->
  dot (vsub p (bary_combine (u, v, w) v0 v1 v2))
      (vsub p (bary_combine (u, v, w) v0 v1 v2)) = d * d ->
  point_to_triangle_distance_and_projection p v0 v1 v2
  = (bary_combine (u, v, w) v0 v1 v2, (u, v, w), d).
Proof.
  intros Hs Hu Hv Hw Hd Hdot.
  pose proof (solve_bary_sum p v0 v1 v2) as Hsum. rewrite Hs in Hsum.
  unfold point_to_triangle_distance_and_projection.
  rewrite Hs, (clamp_renorm_id u v w Hu Hv Hw Hsum).
  rewrite (norm_eq _ d Hd Hdot). reflexivity.
Qed.

Lemma Rabs_sqr (x : R) : Rabs x * Rabs x = x * x.
Proof. unfold Rabs. destruct (Rcase_abs x); ring. Qed.

Ltac eps_le_one :=
  match goal with
  | |- eps <= Rabs ?e =>
      replace e with 1 by (cbv [dot vsub vx vy vz]; lra);
      rewrite Rabs_R1; unfold eps; lra
  end.

Lemma lower_tri_projection (h x y z : R) :
  0 <= y -> y <= x -> x <= 1 ->
  point_to_triangle_distance_and_projection
    (V3 x y z) (tri0 (lower_tri h)) (tri1 (lower_tri h)) (tri2 (lower_tri h))
  = (V3 x y h, (1 - x, x - y, y), Rabs (z - h)).
Proof.
  intros Hy Hxy Hx. cbn [lower_tri tri0 tri1 tri2 fst snd].
  assert (Hc : bary_combine (1 - x, x - y, y) (V3 0 0 h) (V3 1 0 h) (V3 1 1 h) = V3 x y h).
  { cbv [bary_combine vadd vscale vx vy vz]. f_equal; lra. }
  rewrite <- Hc at 1.
  apply projection_eq; try lra.
  - apply solve_bary_eq; cbv zeta; [eps_le_one|..]; cbv [dot vsub vx vy vz]; lra.
  - apply Rabs_pos.
  - rewrite Hc, Rabs_sqr. cbv [dot vsub vx vy vz]. ring.
Qed.

Lemma upper_tri_projection (h x y z : R) :
  0 <= x -> x <= y -> y <= 1 ->
  point_to_triangle_distance_and_projection
    (V3 x y z) (tri0 (upper_tri h)) (tri1 (upper_tri h)) (tri2 (upper_tri h))
  = (V3 x y h, (1 - y, x, y - x), Rabs (z - h)).
Proof.
  intros Hx Hxy Hy. cbn [upper_tri tri0 tri1 tri2 fst snd].
  assert (Hc : bary_combine (1 - y, x, y - x) (V3 0 0 h) (V3 1 1 h) (V3 0 1 h) = V3 x y h).
  { cbv [bary_combine vadd vscale vx vy vz]. f_equal; lra. }
  rewrite <- Hc at 1.
  apply projection_eq; try lra.
  - apply solve_bary_eq; cbv zeta; [eps_le_one|..]; cbv [dot vsub vx vy vz]; lra.
  - apply Rabs_pos.
  - rewrite Hc, Rabs_sqr. cbv [dot vsub vx vy vz]. ring.
Qed.



Lemma floor_norm_one (a : vec3) : dot a a = 1 -> floor_norm a = 1.
Proof.
  intros H. unfold floor_norm. rewrite (norm_eq a 1) by lra.
  unfold Rmax, eps. destruct (Rle_dec _ _); lra.
Qed.

Lemma lower_tri_normal (h : R) : normal_row (lower_tri h) = V3 0 0 1.
Proof.
  unfold normal_row. cbv zeta. cbn [lower_tri tri0 tri1 tri2 fst snd].
  rewrite floor_norm_one by (cbv [cross dot vsub vx vy vz]; ring).
  cbv [vdiv cross vsub vx vy vz]. f_equal; field.
Qed.

Lemma upper_tri_normal (h : R) : normal_row (upper_tri h) = V3 0 0 1.
Proof.
  unfold normal_row. cbv zeta. cbn [upper_tri tri0 tri1 tri2 fst snd].
  rewrite floor_norm_one by (cbv [cross dot vsub vx vy vz]; ring).
  cbv [vdiv cross vsub vx vy vz]. f_equal; field.
Qed.

(** ** The exhaustive strategy on a valid mesh *)

Lemma cp_index_nat {A : Type} (a : list A) (i : nat) (d : A) :
  (i < length a)%nat -> cp_index a (Z.of_nat i) d = nth i a d.
Proof.
  intros Hi. unfold cp_index.
  rewrite Z.mod_small by lia. rewrite Nat2Z.id. reflexivity.
Qed.

Lemma cp_take_valid {A : Type} (a : list A) (idx : list nat) (d : A) :
  Forall (fun i => (i < length a)%nat) idx ->
  cp_take a (map Z.of_nat idx) d = map (fun i => nth i a d) idx.
Proof.
  intros H. unfold cp_take. rewrite map_map.
  apply map_ext_in. intros i Hi. apply cp_index_nat.
  rewrite Forall_forall in H. apply H; assumption.
Qed.

Lemma stack3_corners (tris : list tri) :
  stack3 (map tri0 tris) (map tri1 tris) (map tri2 tris) = tris.
Proof.
  rewrite stack3_map. rewrite <- (map_id tris) at 2.
  apply map_ext. intros [[a b] c]. reflexivity.
Qed.

Lemma cuda_points_valid (fbs : nat) (vertices : list vec3) (faces : list face)
    (points : list vec3) :
  valid_mesh vertices faces ->
  let tris := map (face_tri vertices) faces in
  cuda_points fbs vertices faces points
  = map (cuda_point fbs (length faces) (map tri0 tris) (map tri1 tris) (map tri2 tris)
           (map normal_row tris)) points.
Proof.
  intros Hv. cbv zeta. unfold cuda_points. cbv zeta.
  assert (E0 : cp_take vertices (map (fun f => Z.of_nat (face0 f)) faces) vzero
               = map tri0 (map (face_tri vertices) faces)).
  { rewrite <- (map_map face0 Z.of_nat), cp_take_valid, !map_map.
    - reflexivity.
    - apply Forall_map. eapply Forall_impl; [|exact Hv]. cbn; tauto. }
  assert (E1 : cp_take vertices (map (fun f => Z.of_nat (face1 f)) faces) vzero
               = map tri1 (map (face_tri vertices) faces)).
  { rewrite <- (map_map face1 Z.of_nat), cp_take_valid, !map_map.
    - reflexivity.
    - apply Forall_map. eapply Forall_impl; [|exact Hv]. cbn; tauto. }
  assert (E2 : cp_take vertices (map (fun f => Z.of_nat (face2 f)) faces) vzero
               = map tri2 (map (face_tri vertices) faces)).
  { rewrite <- (map_map face2 Z.of_nat), cp_take_valid, !map_map.
    - reflexivity.
    - apply Forall_map. eapply Forall_impl; [|exact Hv]. cbn; tauto. }
  rewrite E0, E1, E2, stack3_corners. reflexivity.
Qed.

Lemma range_step_single (n fbs : nat) :
  (0 < n)%nat -> (n <= fbs)%nat -> range_step n fbs = [0%nat].
Proof.
  intros Hn Hle. unfold range_step.
  replace ((n + fbs - 1) / fbs)%nat with 1%nat.
  - reflexivity.
  - apply (Nat.div_unique _ _ 1%nat (n - 1)%nat); lia.
Qed.

Lemma slice_all {A : Type} (l : list A) : slice l 0 (length l) = l.
Proof. unfold slice. cbn [skipn]. rewrite Nat.sub_0_r. apply firstn_all. Qed.

(** With all faces in one chunk the offset is the one of the selected
    face. *)
Lemma cuda_point_single_chunk (fbs : nat) (tris : list tri) (p : vec3) :
  tris <> [] -> (length tris <= fbs)%nat ->
  let st := cuda_point fbs (length tris) (map tri0 tris) (map tri1 tris) (map tri2 tris)
              (map normal_row tris) p in
  r_face st = argmin (all_dists tris p) /\
  r_offset st = dot (vsub p (tri0 (nth (r_face st) tris (vzero, vzero, vzero))))
                    (normal_row (nth (r_face st) tris (vzero, vzero, vzero))).
Proof.
  intros Hne Hle. cbv zeta.
  assert (Hpos : (0 < length tris)%nat) by (destruct tris; [congruence|cbn; lia]).
  assert (Hfbs : (0 < fbs)%nat) by lia.
  unfold cuda_point. rewrite (range_step_single _ _ Hpos Hle). cbn [fold_left].
  destruct (cuda_chunk_rows fbs (length tris) (map tri0 tris) (map tri1 tris)
              (map tri2 tris) (map normal_row tris) p cuda_init 0)
    as [Hi Hchunk]; rewrite ?length_map; auto.
  cbv zeta in Hi, Hchunk. rewrite Hchunk. clear Hchunk.
  rewrite stack3_corners in *.
  rewrite Nat.add_0_l, Nat.min_r in * by lia.
  assert (HD : slice (all_dists tris p) 0 (length tris) = all_dists tris p).
  { rewrite <- (length_all_dists tris p) at 1. apply slice_all. }
  rewrite HD in *.
  set (i := argmin (all_dists tris p)) in *.
  cbn [cuda_init r_dist lt_dist r_face r_offset].
  rewrite Nat.add_0_r. split; [reflexivity|].
  rewrite Z.sub_0_r.
  rewrite <- (length_map tri0 tris) at 1. rewrite slice_all.
  rewrite <- (length_map normal_row tris) at 1. rewrite slice_all.
  rewrite !cp_index_nat by (rewrite length_map; lia).
  rewrite (nth_map_lt tri0 _ _ _ (vzero, vzero, vzero)) by lia.
  rewrite (nth_map_lt normal_row _ _ _ (vzero, vzero, vzero)) by lia.
  reflexivity.
Qed.

(** ** The mesh whose last chunk is partial *)

Lemma nth_repeat_lt {A : Type} (a d : A) (m j : nat) :
  (j < m)%nat -> nth j (repeat a m) d = a.
Proof.
  revert j; induction m as [|m IH]; intros j Hj; [lia|].
  destruct j; cbn [repeat nth]; [reflexivity|]. apply IH; lia.
Qed.

Lemma first_min_repeat (d : R) (m : nat) : (0 < m)%nat -> first_min (repeat d m) 0.
Proof.
  intros Hm. repeat split.
  - rewrite repeat_length; exact Hm.
  - intros j Hj. rewrite repeat_length in Hj. rewrite !nth_repeat_lt by lia. lra.
  - intros j Hj. lia.
Qed.

Lemma slice_app_left {A : Type} (l1 l2 : list A) :
  slice (l1 ++ l2) 0 (length l1) = l1.
Proof.
  unfold slice. cbn [skipn]. rewrite Nat.sub_0_r, firstn_app, Nat.sub_diag.
  cbn [firstn]. rewrite firstn_all, app_nil_r. reflexivity.
Qed.

Lemma slice_app_right {A : Type} (l1 l2 : list A) :
  slice (l1 ++ l2) (length l1) (length l1 + length l2) = l2.
Proof.
  unfold slice. rewrite skipn_app, skipn_all, Nat.sub_diag. cbn [skipn app].
  replace (length l1 + length l2 - length l1)%nat with (length l2) by lia.
  apply firstn_all.
Qed.

Lemma range_step_two (m : nat) : (3 <= m)%nat -> range_step (m + 3) m = [0%nat; m].
Proof.
  intros Hm. unfold range_step.
  replace ((m + 3 + m - 1) / m)%nat with 2%nat
    by (apply (Nat.div_unique _ _ 2%nat 2%nat); lia).
  cbn [seq map]. f_equal. f_equal. lia.
Qed.

Lemma chunked_tris (m : nat) :
  map (face_tri Chunked.vertices) (Chunked.faces m)
  = repeat (lower_tri 10) m ++ [lower_tri 0; lower_tri 10; lower_tri 10].
Proof. unfold Chunked.faces. rewrite map_app, map_repeat. reflexivity. Qed.

Lemma chunked_valid (m : nat) : valid_mesh Chunked.vertices (Chunked.faces m).
Proof.
  unfold valid_mesh, Chunked.faces. apply Forall_app. split.
  - apply Forall_forall. intros f Hf. apply repeat_spec in Hf. subst f.
    cbn. lia.
  - repeat constructor; cbn; lia.
Qed.

Lemma chunked_length (m : nat) : length (Chunked.faces m) = (m + 3)%nat.
Proof. unfold Chunked.faces. rewrite length_app, repeat_length. reflexivity. Qed.

(** The narrow-phase row of the query point against the triangle at
    height [h]. *)
Lemma chunked_row (h : R) :
  point_to_triangle_distance_and_projection
    Chunked.point (tri0 (lower_tri h)) (tri1 (lower_tri h)) (tri2 (lower_tri h))
  = (V3 (1 / 2) (1 / 4) h, (1 / 2, 1 / 4, 1 / 4), Rabs (1 / 2 - h)).
Proof.
  unfold Chunked.point. rewrite lower_tri_projection by lra.
  replace (1 - 1 / 2) with (1 / 2) by lra.
  replace (1 / 2 - 1 / 4) with (1 / 4) by lra.
  reflexivity.
Qed.

Lemma chunked_rows (m : nat) :
  face_rows (repeat (lower_tri 10) m ++ [lower_tri 0; lower_tri 10; lower_tri 10])
            Chunked.point
  = repeat (V3 (1 / 2) (1 / 4) 10, (1 / 2, 1 / 4, 1 / 4), 19 / 2) m
    ++ [(V3 (1 / 2) (1 / 4) 0, (1 / 2, 1 / 4, 1 / 4), 1 / 2);
        (V3 (1 / 2) (1 / 4) 10, (1 / 2, 1 / 4, 1 / 4), 19 / 2);
        (V3 (1 / 2) (1 / 4) 10, (1 / 2, 1 / 4, 1 / 4), 19 / 2)].
Proof.
  assert (Hfar : Rabs (1 / 2 - 10) = 19 / 2).
  { unfold Rabs. destruct (Rcase_abs _); lra. }
  assert (Hnear : Rabs (1 / 2 - 0) = 1 / 2).
  { unfold Rabs. destruct (Rcase_abs _); lra. }
  unfold face_rows. rewrite map_app, map_repeat. cbn [map].
  rewrite !chunked_row, Hfar, Hnear. reflexivity.
Qed.

Lemma slice_repeat_left {A : Type} (a : A) (m : nat) (l : list A) :
  slice (repeat a m ++ l) 0 m = repeat a m.
Proof.
  rewrite <- (repeat_length a m) at 2. apply slice_app_left.
Qed.

Lemma slice_repeat_right {A : Type} (a : A) (m : nat) (l : list A) :
  slice (repeat a m ++ l) m (m + length l) = l.
Proof.
  pose proof (slice_app_right (repeat a m) l) as H.
  rewrite repeat_length in H. exact H.
Qed.

Lemma nth_repeat_app {A : Type} (a d : A) (m j : nat) (l : list A) :
  nth (m + j) (repeat a m ++ l) d = nth j l d.
Proof.
  rewrite app_nth2 by (rewrite repeat_length; lia).
  rewrite repeat_length. f_equal. lia.
Qed.

Lemma nth_repeat_end {A : Type} (a d : A) (m : nat) (l : list A) :
  nth m (repeat a m ++ l) d = nth 0 l d.
Proof. rewrite <- (nth_repeat_app a d m 0 l). f_equal. lia. Qed.

(** The face loop on the mesh of [m + 3] faces with chunks of [m] faces:
    the second chunk holds the three last faces, the near face is its
    entry 0, and the offset is read at the index [0 - m]. *)
Lemma chunked_two_chunks (m : nat) :
  (3 <= m)%nat ->
  let tris := repeat (lower_tri 10) m ++ [lower_tri 0; lower_tri 10; lower_tri 10] in
  cuda_point m (m + 3) (map tri0 tris) (map tri1 tris) (map tri2 tris)
    (map normal_row tris) Chunked.point
  = mkRecord m (1 / 2, 1 / 4, 1 / 4)
      (dot (vsub Chunked.point
              (cp_index [V3 0 0 0; V3 0 0 10; V3 0 0 10] (0 - Z.of_nat m) vzero))
           (cp_index [V3 0 0 1; V3 0 0 1; V3 0 0 1] (0 - Z.of_nat m) vzero))
      (Fin (1 / 2)).
Proof.
  intros Hm. cbv zeta.
  set (tris := repeat (lower_tri 10) m ++ [lower_tri 0; lower_tri 10; lower_tri 10]).
  assert (Hlen : length tris = (m + 3)%nat)
    by (unfold tris; rewrite length_app, repeat_length; reflexivity).
  assert (HD : all_dists tris Chunked.point = repeat (19 / 2) m ++ [1 / 2; 19 / 2; 19 / 2]).
  { unfold all_dists, tris. rewrite chunked_rows, map_app, map_repeat. reflexivity. }
  assert (Hd0 : face_dist tris Chunked.point 0 = 19 / 2).
  { rewrite <- all_dists_nth, HD, app_nth1 by (rewrite repeat_length; lia).
    apply nth_repeat_lt; lia. }
  assert (Hdm : face_dist tris Chunked.point m = 1 / 2).
  { rewrite <- all_dists_nth, HD, nth_repeat_end. reflexivity. }
  assert (Hbm : face_bary tris Chunked.point m = (1 / 2, 1 / 4, 1 / 4)).
  { unfold face_bary, tris. rewrite chunked_rows, nth_repeat_end. reflexivity. }
  assert (Hv0 : slice (map tri0 tris) m (m + 3) = [V3 0 0 0; V3 0 0 10; V3 0 0 10]).
  { unfold tris. rewrite map_app, map_repeat.
    apply (slice_repeat_right _ m (map tri0 [lower_tri 0; lower_tri 10; lower_tri 10])). }
  assert (Hn : slice (map normal_row tris) m (m + 3) = [V3 0 0 1; V3 0 0 1; V3 0 0 1]).
  { unfold tris. rewrite map_app, map_repeat.
    rewrite (slice_repeat_right _ m
               (map normal_row [lower_tri 0; lower_tri 10; lower_tri 10])).
    cbn [map]. rewrite !lower_tri_normal. reflexivity. }
  assert (Hs0 : slice (all_dists tris Chunked.point) 0 m = repeat (19 / 2) m)
    by (rewrite HD; apply slice_repeat_left).
  assert (Hs1 : slice (all_dists tris Chunked.point) m (m + 3) = [1 / 2; 19 / 2; 19 / 2]).
  { rewrite HD. apply (slice_repeat_right _ m [1 / 2; 19 / 2; 19 / 2]). }
  assert (Ha0 : argmin (repeat (19 / 2) m) = 0%nat)
    by (apply first_min_argmin, first_min_repeat; lia).
  assert (Ha1 : argmin [1 / 2; 19 / 2; 19 / 2] = 0%nat).
  { unfold argmin. cbn [argmin_from]. rewrite !Rltb_false by lra. reflexivity. }
  unfold cuda_point. rewrite range_step_two by exact Hm. cbn [fold_left].
  destruct (cuda_chunk_rows m (m + 3) (map tri0 tris) (map tri1 tris) (map tri2 tris)
              (map normal_row tris) Chunked.point cuda_init 0)
    as [_ E0]; rewrite ?length_map; try lia.
  cbv zeta in E0. rewrite stack3_corners in E0.
  change (0 + m)%nat with m in E0. rewrite (Nat.min_l m (m + 3)) in E0 by lia.
  rewrite Hs0, Ha0 in E0. cbn [cuda_init r_dist lt_dist] in E0.
  rewrite E0. clear E0.
  change (0 + 0)%nat with 0%nat. rewrite Hd0.
  set (st1 := mkRecord _ _ _ _).
  destruct (cuda_chunk_rows m (m + 3) (map tri0 tris) (map tri1 tris) (map tri2 tris)
              (map normal_row tris) Chunked.point st1 m)
    as [_ E1]; rewrite ?length_map; try lia.
  cbv zeta in E1. rewrite stack3_corners in E1.
  rewrite (Nat.min_r (m + m) (m + 3)) in E1 by lia.
  rewrite Hs1, Ha1 in E1.
  subst st1. cbn [r_dist] in E1.
  rewrite !Nat.add_0_r, Hdm, Hbm, Hv0, Hn in E1.
  cbn [lt_dist] in E1. rewrite Rltb_true in E1 by lra.
  rewrite E1. cbn [Z.of_nat]. rewrite Nat.add_0_l. reflexivity.
Qed.

Lemma chunked_cuda (bs fbs m : nat) :
  (0 < bs)%nat ->
  compute_mapping_cuda_with bs fbs [Chunked.point] Chunked.vertices (Chunked.faces m) 8
  = Return (assemble
      [let tris := repeat (lower_tri 10) m ++ [lower_tri 0; lower_tri 10; lower_tri 10] in
       cuda_point fbs (m + 3) (map tri0 tris) (map tri1 tris) (map tri2 tris)
         (map normal_row tris) Chunked.point]).
Proof.
  intros Hbs. rewrite compute_mapping_cuda_unbatched by exact Hbs.
  rewrite (cuda_points_valid _ _ _ _ (chunked_valid m)).
  cbv zeta. rewrite chunked_tris, chunked_length. reflexivity.
Qed.

(** The same mesh with all its faces in one chunk: the near face is
    selected and the offset is its own. *)
Lemma chunked_one_chunk (fbs m : nat) :
  (0 < m)%nat -> (m + 3 <= fbs)%nat ->
  let tris := repeat (lower_tri 10) m ++ [lower_tri 0; lower_tri 10; lower_tri 10] in
  let st := cuda_point fbs (m + 3) (map tri0 tris) (map tri1 tris) (map tri2 tris)
              (map normal_row tris) Chunked.point in
  r_face st = m /\ r_offset st = 1 / 2.
Proof.
  intros Hm Hfbs. cbv zeta.
  set (tris := repeat (lower_tri 10) m ++ [lower_tri 0; lower_tri 10; lower_tri 10]).
  assert (Hlen : length tris = (m + 3)%nat)
    by (unfold tris; rewrite length_app, repeat_length; reflexivity).
  assert (Hne : tris <> []) by (intros E; rewrite E in Hlen; cbn in Hlen; lia).
  destruct (cuda_point_single_chunk fbs tris Chunked.point Hne ltac:(lia)) as [Hf Ho].
  cbv zeta in Hf, Ho. rewrite Hlen in Hf, Ho.
  assert (Harg : argmin (all_dists tris Chunked.point) = m).
  { unfold all_dists, tris. rewrite chunked_rows, map_app, map_repeat. cbn [map snd].
    pose proof (first_min_app_r (repeat (19 / 2) m) [1 / 2; 19 / 2; 19 / 2] 0) as H.
    rewrite repeat_length, Nat.add_0_r in H. apply first_min_argmin, H.
    - repeat split; cbn [length nth]; try lia.
      intros [|[|[|j]]] Hj; cbn [nth]; try lra. cbn in Hj; lia.
    - intros j Hj. cbn [nth]. rewrite nth_repeat_lt by exact Hj. lra. }
  rewrite Harg in Hf. split; [exact Hf|].
  rewrite Ho, Hf. unfold tris. rewrite nth_repeat_end. cbn [nth].
  rewrite lower_tri_normal.
  cbv [dot vsub Chunked.point lower_tri tri0 fst vx vy vz]. lra.
Qed.

(** The exhaustive strategy with the program's constants on the mesh of
    50003 faces. *)
Lemma cuda_offset_other_face_eval :
  exists res,
    compute_mapping_cuda_with 1000 50000
      [Chunked.point] Chunked.vertices (Chunked.faces 50000) 8 = Return res /\
    face_indices res = [50000%nat] /\
    normal_offsets res = [- (19 / 2)].
Proof.
  rewrite chunked_cuda by (apply Nat.ltb_lt; vm_compute; reflexivity).
  cbv zeta. rewrite chunked_two_chunks by (apply Nat.leb_le; vm_compute; reflexivity).
  eexists. split; [reflexivity|].
  cbn [assemble map face_indices normal_offsets r_face r_offset].
  split; [reflexivity|].
  f_equal. unfold cp_index. cbn [length].
  replace (Z.to_nat ((0 - Z.of_nat 50000) mod Z.of_nat 3)) with 1%nat
    by (vm_compute; reflexivity).
  cbn [nth]. cbv [dot vsub Chunked.point vx vy vz]. lra.
Qed.

(** ** C1: the normal offset *)

(** C1 (the code departs from it).  On the mesh of 50003 faces whose face
    50000 lies directly below the query point, the exhaustive strategy
    with its own constants selects face 50000 and stores the offset
    -19/2, while the offset along the normal of face 50000 from its
    vertex 0 is 1/2: in the second face chunk the offset is read from
    entry (0 - 50000) mod 3 = 1 of the chunk, which is face 50001. *)
Theorem cuda_offset_of_other_face :
  exists res,
    compute_mapping_cuda [Chunked.point] Chunked.vertices (Chunked.faces 50000) 8
    = Return res /\
    face_indices res = [50000%nat] /\
    normal_offsets res = [- (19 / 2)] /\
    (let t := face_tri Chunked.vertices (nth 50000 (Chunked.faces 50000) (0, 0, 0)%nat) in
     dot (vsub Chunked.point (tri0 t)) (normal_row t) = 1 / 2).
Proof.
  destruct cuda_offset_other_face_eval as (res & Hres & Hf & Ho).
  exists res. unfold compute_mapping_cuda. repeat split; try assumption.
  cbv zeta. unfold Chunked.faces. rewrite nth_repeat_end. cbn [nth].
  change (face_tri Chunked.vertices Chunked.near_face) with (lower_tri 0).
  rewrite lower_tri_normal.
  cbv [dot vsub Chunked.point lower_tri tri0 fst vx vy vz]. lra.
Qed.

(** ** C8: batch size and face-chunk size *)


(** C8 (the code departs from it).  On the mesh of 50003 faces, the
    face-chunk size 50000 of the program gives the normal offset -19/2
    and the face-chunk size 50003 gives 1/2: the stored offsets depend on
    the chunk size. *)
Theorem chunk_size_changes_offsets :
  exists res res',
    compute_mapping_cuda_with 1000 50000
      [Chunked.point] Chunked.vertices (Chunked.faces 50000) 8 = Return res /\
    compute_mapping_cuda_with 1000 50003
      [Chunked.point] Chunked.vertices (Chunked.faces 50000) 8 = Return res' /\
    normal_offsets res = [- (19 / 2)] /\
    normal_offsets res' = [1 / 2] /\
    res <> res'.
Proof.
  destruct cuda_offset_other_face_eval as (res & Hres & _ & Hoff).
  pose proof (chunked_one_chunk 50003 50000
                ltac:(apply Nat.ltb_lt; vm_compute; reflexivity)
                ltac:(apply Nat.leb_le; vm_compute; reflexivity)) as Hone.
  cbv zeta in Hone. destruct Hone as [_ Ho].
  exists res. eexists.
  split; [exact Hres|].
  rewrite chunked_cuda by (apply Nat.ltb_lt; vm_compute; reflexivity).
  split; [reflexivity|].
  cbv zeta. cbn [assemble map normal_offsets]. rewrite Ho.
  split; [exact Hoff|]. split; [reflexivity|].
  intros E. rewrite E in Hoff. cbn [assemble map normal_offsets] in Hoff.
  rewrite Ho in Hoff. inversion Hoff. lra.
Qed.

(** ** C2: the concrete scenario *)

(** The record of the exhaustive strategy on a valid mesh that fits in
    one chunk. *)
Lemma cuda_record_single_chunk (fbs : nat) (tris : list tri) (p : vec3) :
  tris <> [] -> (length tris <= fbs)%nat ->
  let i := argmin (all_dists tris p) in
  cuda_point fbs (length tris) (map tri0 tris) (map tri1 tris) (map tri2 tris)
    (map normal_row tris) p
  = mkRecord i (face_bary tris p i)
      (dot (vsub p (tri0 (nth i tris (vzero, vzero, vzero))))
           (normal_row (nth i tris (vzero, vzero, vzero))))
      (Fin (face_dist tris p i)).
Proof.
  intros Hne Hle. cbv zeta.
  destruct (cuda_point_single_chunk fbs tris p Hne Hle) as [Hf Ho].
  assert (Hpos : (0 < length tris)%nat) by (destruct tris; [congruence|cbn; lia]).
  destruct (cuda_point_select fbs (length tris) (map tri0 tris) (map tri1 tris)
              (map tri2 tris) (map normal_row tris) p)
    as (_ & Hb & Hd); rewrite ?length_map; auto; try lia.
  cbv zeta in *. rewrite stack3_corners in *.
  destruct (cuda_point _ _ _ _ _ _ _) as [f b o d].
  cbn [r_face r_bary r_offset r_dist] in *. subst. reflexivity.
Qed.

Lemma square_tris :
  map (face_tri Square.vertices) Square.faces = [lower_tri 0; upper_tri 0].
Proof. reflexivity. Qed.

Lemma square_valid : valid_mesh Square.vertices Square.faces.
Proof. repeat constructor; cbn; lia. Qed.

Lemma square_rows :
  face_rows [lower_tri 0; upper_tri 0] Square.point
  = [(V3 (1 / 4) (1 / 4) 0, (3 / 4, 0, 1 / 4), 1 / 2);
     (V3 (1 / 4) (1 / 4) 0, (3 / 4, 1 / 4, 0), 1 / 2)].
Proof.
  unfold face_rows, Square.point. cbn [map].
  rewrite lower_tri_projection, upper_tri_projection by lra.
  replace (Rabs (1 / 2 - 0)) with (1 / 2)
    by (unfold Rabs; destruct (Rcase_abs _); lra).
  replace (1 - 1 / 4) with (3 / 4) by lra.
  replace (1 / 4 - 1 / 4) with 0 by lra.
  reflexivity.
Qed.

Lemma square_argmin : argmin (all_dists [lower_tri 0; upper_tri 0] Square.point) = 0%nat.
Proof.
  unfold all_dists. rewrite square_rows. cbn [map snd].
  unfold argmin. cbn [argmin_from]. rewrite Rltb_false by lra. reflexivity.
Qed.

(** The exhaustive strategy on the unit square. *)
Lemma square_cuda :
  compute_mapping_cuda [Square.point] Square.vertices Square.faces 8
  = Return (mkResult [0%nat] [(3 / 4, 0, 1 / 4)] [1 / 2] [Fin (1 / 2)]).
Proof.
  unfold compute_mapping_cuda.
  rewrite compute_mapping_cuda_unbatched by (apply Nat.ltb_lt; vm_compute; reflexivity).
  rewrite (cuda_points_valid _ _ _ _ square_valid). cbv zeta.
  rewrite square_tris. cbn [map].
  change (length Square.faces) with (length [lower_tri 0; upper_tri 0]).
  change [tri0 (lower_tri 0); tri0 (upper_tri 0)] with (map tri0 [lower_tri 0; upper_tri 0]).
  change [tri1 (lower_tri 0); tri1 (upper_tri 0)] with (map tri1 [lower_tri 0; upper_tri 0]).
  change [tri2 (lower_tri 0); tri2 (upper_tri 0)] with (map tri2 [lower_tri 0; upper_tri 0]).
  change [normal_row (lower_tri 0); normal_row (upper_tri 0)]
    with (map normal_row [lower_tri 0; upper_tri 0]).
  rewrite cuda_record_single_chunk;
    [|discriminate|apply Nat.leb_le; vm_compute; reflexivity].
  cbv zeta. rewrite square_argmin.
  unfold face_bary, face_dist. rewrite square_rows. cbn [nth fst snd].
  rewrite lower_tri_normal.
  unfold assemble. cbn [map r_face r_bary r_offset r_dist].
  f_equal. f_equal. f_equal.
  cbv [dot vsub Square.point lower_tri tri0 fst vx vy vz]. lra.
Qed.

Lemma Rltb_irrefl (x : R) : Rltb x x = false.
Proof. apply Rltb_false. lra. Qed.

Lemma square_query :
  RefKDTree.query (map centroid_row [lower_tri 0; upper_tri 0]) Square.point 8
  = [0; 1; 2; 2; 2; 2; 2; 2]%nat.
Proof.
  unfold RefKDTree.query, RefKDTree.sorted_by.
  cbn [length map seq fold_right RefKDTree.insert_by nth].
  assert (E : norm (vsub (centroid_row (upper_tri 0)) Square.point)
              = norm (vsub (centroid_row (lower_tri 0)) Square.point)).
  { unfold norm. f_equal.
    cbv [dot vsub centroid_row vdiv vadd upper_tri lower_tri tri0 tri1 tri2
         fst snd Square.point vx vy vz].
    field. }
  rewrite E, Rltb_irrefl. reflexivity.
Qed.

(** The index-accelerated strategy on the unit square, with the
    reference centroid search. *)
Lemma square_cpu :
  compute_mapping_cpu RefKDTree.kdtree RefKDTree.KDTree RefKDTree.query
    [Square.point] Square.vertices Square.faces 8
  = Return (mkResult [0%nat] [(3 / 4, 0, 1 / 4)] [1 / 2] [Fin (1 / 2)]).
Proof.
  unfold compute_mapping_cpu.
  rewrite compute_mapping_cpu_unbatched by (apply Nat.ltb_lt; vm_compute; reflexivity).
  rewrite (compute_face_data_valid _ _ square_valid), square_tris.
  cbn [bind]. unfold RefKDTree.KDTree at 1. cbn [bind].
  unfold cpu_points. cbn [mapM bind].
  rewrite square_query.
  change (length Square.faces) with (length [lower_tri 0; upper_tri 0]).
  assert (Hd0 : face_dist [lower_tri 0; upper_tri 0] Square.point 0 = 1 / 2)
    by (unfold face_dist; rewrite square_rows; reflexivity).
  assert (Hd1 : face_dist [lower_tri 0; upper_tri 0] Square.point 1 = 1 / 2)
    by (unfold face_dist; rewrite square_rows; reflexivity).
  assert (Hb0 : face_bary [lower_tri 0; upper_tri 0] Square.point 0 = (3 / 4, 0, 1 / 4))
    by (unfold face_bary; rewrite square_rows; reflexivity).
  unfold cpu_point. cbn [foldM].
  repeat (rewrite cpu_candidate_step by reflexivity;
          cbn [bind length Nat.leb fst cpu_init lt_dist];
          rewrite ?Hd0, ?Hd1, ?Hb0, ?Rltb_irrefl).
  cbn [bind map nth np_index nth_error].
  rewrite lower_tri_normal.
  unfold assemble. cbn [map concat r_face r_bary r_offset r_dist].
  f_equal. f_equal. f_equal.
  cbv [dot vsub Square.point lower_tri tri0 fst vx vy vz]. lra.
Qed.

(** C2 (as announced it fails).  On the unit square the point
    (0.25, 0.25, 0.5) gets the barycentric row (3/4, 0, 1/4): its first
    coordinate is not within tolerance of 0.5, in both strategies. *)
Lemma square_bary_not_as_announced :
  (exists res,
      compute_mapping_cuda [Square.point] Square.vertices Square.faces 8 = Return res /\
      ~ scenario_announced res) /\
  (exists res,
      compute_mapping_cpu RefKDTree.kdtree RefKDTree.KDTree RefKDTree.query
        [Square.point] Square.vertices Square.faces 8 = Return res /\
      ~ scenario_announced res).
Proof.
  assert (H : ~ scenario_announced (mkResult [0%nat] [(3 / 4, 0, 1 / 4)] [1 / 2] [Fin (1 / 2)])).
  { intros (u & v & w & o & d & E & Hu & _). inversion E; subst.
    unfold approx in Hu. revert Hu. unfold Rabs. destruct (Rcase_abs _); lra. }
  split; eexists; (split; [first [apply square_cuda | apply square_cpu]|exact H]).
Qed.

(** C2 (amended).  On the unit square the point (0.25, 0.25, 0.5) is
    mapped to face 0 with the barycentric row (3/4, 0, 1/4), the normal
    offset 1/2 and the distance 1/2, by the exhaustive strategy and by
    the index-accelerated strategy with the reference centroid search. *)
Theorem square_scenario :
  compute_mapping_cuda [Square.point] Square.vertices Square.faces 8
  = Return (mkResult [0%nat] [(3 / 4, 0, 1 / 4)] [1 / 2] [Fin (1 / 2)]) /\
  compute_mapping_cpu RefKDTree.kdtree RefKDTree.KDTree RefKDTree.query
    [Square.point] Square.vertices Square.faces 8
  = Return (mkResult [0%nat] [(3 / 4, 0, 1 / 4)] [1 / 2] [Fin (1 / 2)]).
Proof. split; [apply square_cuda|apply square_cpu]. Qed.

(** ** C3: agreement of the two strategies *)
























(** ** C5: round trip on the undeformed mesh *)

Lemma stack3_length_min (v0 v1 v2 : list vec3) :
  length (stack3 v0 v1 v2) = Nat.min (length v0) (Nat.min (length v1) (length v2)).
Proof.
  revert v1 v2; induction v0 as [|a v0 IH]; intros [|b v1] [|c v2];
    cbn [stack3 length Nat.min]; try reflexivity.
  rewrite IH. reflexivity.
Qed.

Lemma combine_map_l {A B C : Type} (f : A -> B) (g : A -> C) (l : list A) :
  combine (map f l) (map g l) = map (fun a => (f a, g a)) l.
Proof. induction l as [|a l IH]; cbn [map combine]; [reflexivity|]. rewrite IH; reflexivity. Qed.

(** [reconstruct_positions] on a result whose face indices are valid. *)
Lemma reconstruct_assemble (vertices : list vec3) (faces : list face) (rs : list record) :
  valid_mesh vertices faces ->
  Forall (fun r => (r_face r < length faces)%nat) rs ->
  reconstruct_positions vertices faces (assemble rs)
  = Return (map (reconstruct_one vertices faces) rs).
Proof.
  intros Hv Hrs. unfold reconstruct_positions.
  cbn [assemble face_indices bary_coords normal_offsets].
  rewrite (np_take_valid faces (map r_face rs) (0, 0, 0)%nat)
    by (apply Forall_map; exact Hrs).
  cbn [bind]. rewrite !map_map.
  assert (Hidx : forall (sel : face -> nat),
             (forall f, In f faces -> (sel f < length vertices)%nat) ->
             Forall (fun i => (i < length vertices)%nat)
                    (map (fun r => sel (nth (r_face r) faces (0, 0, 0)%nat)) rs)).
  { intros sel Hsel. apply Forall_map. eapply Forall_impl; [|exact Hrs].
    cbn. intros r Hr. apply Hsel, nth_In, Hr. }
  unfold valid_mesh in Hv. rewrite Forall_forall in Hv.
  rewrite (np_take_valid vertices _ vzero) by (apply Hidx; intros f Hf; apply (Hv f Hf)).
  cbn [bind].
  rewrite (np_take_valid vertices _ vzero) by (apply Hidx; intros f Hf; apply (Hv f Hf)).
  cbn [bind].
  rewrite (np_take_valid vertices _ vzero) by (apply Hidx; intros f Hf; apply (Hv f Hf)).
  cbn [bind]. rewrite !map_map.
  rewrite (stack3_map
             (fun r => nth (face0 (nth (r_face r) faces (0, 0, 0)%nat)) vertices vzero)
             (fun r => nth (face1 (nth (r_face r) faces (0, 0, 0)%nat)) vertices vzero)
             (fun r => nth (face2 (nth (r_face r) faces (0, 0, 0)%nat)) vertices vzero)).
  rewrite combine_map_l, !map_map, combine_map_l, combine_map_l, map_map.
  reflexivity.
Qed.
















(** ** C6: empty inputs *)

Lemma range_step_zero (step : nat) : (0 < step)%nat -> range_step 0 step = [].
Proof.
  intros Hs. unfold range_step. cbn [Nat.add].
  rewrite Nat.div_small by lia. reflexivity.
Qed.

Lemma cuda_points_no_faces (fbs : nat) (vertices positions : list vec3) :
  (0 < fbs)%nat ->
  cuda_points fbs vertices [] positions = map (fun _ => cuda_init) positions.
Proof.
  intros Hfbs. unfold cuda_points. cbv zeta. cbn [map length cp_take stack3].
  apply map_ext. intros p. unfold cuda_point.
  rewrite range_step_zero by exact Hfbs. reflexivity.
Qed.

(** C6 (as stated it fails).  With a mesh of zero faces the exhaustive
    strategy raises nothing: it returns one record for the query point,
    with face index 0, barycentric row (0, 0, 0), offset 0 and infinite
    distance. *)
Lemma zero_faces_not_rejected :
  compute_mapping_cuda [Square.point] Square.vertices [] 8
  = Return (mkResult [0%nat] [(0, 0, 0)] [0] [PInf]).
Proof.
  unfold compute_mapping_cuda.
  rewrite compute_mapping_cuda_unbatched by (apply Nat.ltb_lt; vm_compute; reflexivity).
  rewrite cuda_points_no_faces by (apply Nat.ltb_lt; vm_compute; reflexivity).
  reflexivity.
Qed.

(** C6 (amended).  Mapping an empty point set against a mesh with at
    least one face returns a result with zero records and raises no error
    (in the index-accelerated strategy, on a mesh whose face indices are
    valid and on which the centroid tree is built).  No strategy validates
    the face count: with zero faces the exhaustive strategy returns one
    starting-value record per point (face 0, barycentric row (0, 0, 0),
    offset 0, infinite distance), and the index-accelerated strategy,
    when the tree is built, raises an IndexError at the first point. *)
Theorem empty_inputs
    (kdtree : Type) (KDTree : list vec3 -> outcome kdtree)
    (query : kdtree -> vec3 -> nat -> list nat)
    (cpu_batch_size batch_size face_batch_size k_nearest : nat)
    (positions vertices : list vec3) (faces : list face) :
  (0 < cpu_batch_size)%nat -> (0 < batch_size)%nat -> (0 < face_batch_size)%nat ->
  (forall tree,
      faces <> [] -> valid_mesh vertices faces ->
      KDTree (map centroid_row (map (face_tri vertices) faces)) = Return tree ->
      compute_mapping_cpu_with kdtree KDTree query cpu_batch_size
        [] vertices faces k_nearest = Return (mkResult [] [] [] [])) /\
  compute_mapping_cuda_with batch_size face_batch_size [] vertices faces k_nearest
  = Return (mkResult [] [] [] []) /\
  compute_mapping_cuda_with batch_size face_batch_size positions vertices [] k_nearest
  = Return (assemble (map (fun _ => cuda_init) positions)) /\
  (forall tree p,
      KDTree [] = Return tree ->
      compute_mapping_cpu_with kdtree KDTree query cpu_batch_size
        (p :: positions) vertices [] k_nearest = Raise IndexError).
Proof.
  intros Hcbs Hbs Hfbs. split; [|split; [|split]].
  - intros tree Hne Hv Htree.
    rewrite compute_mapping_cpu_unbatched by assumption.
    rewrite (compute_face_data_valid _ _ Hv). cbn [bind]. rewrite Htree. reflexivity.
  - rewrite compute_mapping_cuda_unbatched by assumption. reflexivity.
  - rewrite compute_mapping_cuda_unbatched by assumption.
    rewrite cuda_points_no_faces by assumption. reflexivity.
  - intros tree p Htree.
    rewrite compute_mapping_cpu_unbatched by assumption.
    cbn [compute_face_data np_take mapM map bind stack3]. rewrite Htree. cbn [bind].
    unfold cpu_points. cbn [mapM]. unfold cpu_point at 1.
    assert (Hfold : forall cands best,
               foldM (cpu_candidate (length (@nil face)) [] p) cands best = Return best).
    { induction cands as [|c cands IH]; intros best; [reflexivity|].
      cbn [foldM]. unfold cpu_candidate at 1. cbn [length Nat.leb bind]. apply IH. }
    rewrite Hfold. reflexivity.
Qed.

Lemma empty_inputs_witness :
  compute_mapping_cuda_with 1000 50000 [] Square.vertices Square.faces 8
  = Return (mkResult [] [] [] []) /\
  compute_mapping_cpu_with RefKDTree.kdtree RefKDTree.KDTree RefKDTree.query 10000
    [] Square.vertices Square.faces 8 = Return (mkResult [] [] [] []).
Proof.
  destruct (empty_inputs RefKDTree.kdtree RefKDTree.KDTree RefKDTree.query
              10000 1000 50000 8 [] Square.vertices Square.faces)
    as (Hcpu & Hcuda & _).
  - apply Nat.ltb_lt; vm_compute; reflexivity.
  - apply Nat.ltb_lt; vm_compute; reflexivity.
  - apply Nat.ltb_lt; vm_compute; reflexivity.
  - split; [exact Hcuda|].
    apply (Hcpu (map centroid_row (map (face_tri Square.vertices) Square.faces))).
    + discriminate.
    + exact square_valid.
    + reflexivity.
Defined.

(** ** C7: degenerate triangles *)








(** ** C10: [save_mapping] with an unknown format *)

(** C10.  For every result, output path and world, [save_mapping] with a
    format other than "npz", "bin" and "json" raises a ValueError and
    leaves the world as it was: no file is created or modified (and
    nothing is printed). *)
Theorem save_mapping_unknown_format
    (result : MappingResult) (output_path format : string) (w : world) :
  format <> "npz"%string -> format <> "bin"%string -> format <> "json"%string ->
  save_mapping result output_path format w
  = (Raise (ValueError ("Unknown format: " ++ format)%string), w).
Proof.
  intros Hnpz Hbin Hjson. unfold save_mapping.
  apply String.eqb_neq in Hnpz, Hbin, Hjson.
  rewrite Hnpz, Hbin, Hjson. reflexivity.
Qed.

Lemma save_mapping_unknown_format_witness :
  save_mapping (mkResult [0%nat] [(3 / 4, 0, 1 / 4)] [1 / 2] [Fin (1 / 2)])
    "mapping.out" "csv" empty_world
  = (Raise (ValueError "Unknown format: csv"), empty_world).
Proof.
  apply (save_mapping_unknown_format
           (mkResult [0%nat] [(3 / 4, 0, 1 / 4)] [1 / 2] [Fin (1 / 2)])
           "mapping.out" "csv" empty_world); discriminate.
Defined.

(** ** C9 and C4 on the unit square *)

Lemma face_index_in_range_witness :
  exists res_cpu res_cuda,
    compute_mapping_cpu_with RefKDTree.kdtree RefKDTree.KDTree RefKDTree.query 10000
      [Square.point] Square.vertices Square.faces 8 = Return res_cpu /\
    Forall (fun f => (f < 2)%nat) (face_indices res_cpu) /\
    compute_mapping_cuda_with 1000 50000
      [Square.point] Square.vertices Square.faces 8 = Return res_cuda /\
    Forall (fun f => (f < 2)%nat) (face_indices res_cuda).
Proof.
  destruct (face_index_in_range RefKDTree.kdtree RefKDTree.KDTree RefKDTree.query
              10000 1000 50000 8 [Square.point] Square.vertices Square.faces)
    as (Hcpu & Hret & res_cuda & Hcuda & Hin).
  - apply Nat.ltb_lt; vm_compute; reflexivity.
  - apply Nat.ltb_lt; vm_compute; reflexivity.
  - apply Nat.ltb_lt; vm_compute; reflexivity.
  - discriminate.
  - destruct (Hret (map centroid_row (map (face_tri Square.vertices) Square.faces))
                square_valid eq_refl) as [res_cpu Hres].
    exists res_cpu, res_cuda. repeat split; try assumption.
    apply (Hcpu res_cpu Hres).
Defined.



(** * Further properties of the program *)

Lemma records_of_assemble (rs : list record) : records_of (assemble rs) = rs.
Proof.
  unfold records_of, assemble. cbn [face_indices bary_coords normal_offsets distances].
  induction rs as [|[f b o d] rs IH]; cbn [map zip_records r_face r_bary r_offset r_dist];
    [reflexivity|].
  rewrite IH. reflexivity.
Qed.

Lemma mapM_Forall2 {A B : Type} (f : A -> outcome B) (l : list A) (rs : list B) :
  mapM f l = Return rs -> Forall2 (fun a b => f a = Return b) l rs.
Proof.
  revert rs; induction l as [|a l IH]; cbn [mapM bind]; intros rs H.
  - inversion H. constructor.
  - destruct (f a) as [b|] eqn:Hfa; cbn [bind] in H; [|discriminate].
    destruct (mapM f l) as [bs|]; cbn [bind] in H; [|discriminate].
    inversion H; subst. constructor; [assumption|]. apply IH. reflexivity.
Qed.


Lemma Forall2_impl_in {A B : Type} (P Q : A -> B -> Prop) (l : list A) (l' : list B) :
  (forall a b, In a l -> P a b -> Q a b) -> Forall2 P l l' -> Forall2 Q l l'.
Proof.
  intros H HF. induction HF as [|a b l l' Hab _ IH]; constructor.
  - apply H; [left; reflexivity|assumption].
  - apply IH. intros a' b' Ha'. apply H. right; assumption.
Qed.


Lemma face_tri_nth (vertices : list vec3) (faces : list face) (g : nat) :
  (g < length faces)%nat ->
  nth g (map (face_tri vertices) faces) (vzero, vzero, vzero)
  = face_tri vertices (nth g faces (0, 0, 0)%nat).
Proof. intros Hg. apply nth_map_lt. exact Hg. Qed.

(** ** The records of the index-accelerated strategy *)

Section IndexStrategyRecords.

Variable kdtree : Type.
Variable KDTree : list vec3 -> outcome kdtree.
Variable query : kdtree -> vec3 -> nat -> list nat.

Lemma cpu_records batch_size positions vertices faces k res :
  (0 < batch_size)%nat -> faces <> [] ->
  compute_mapping_cpu_with kdtree KDTree query batch_size positions vertices faces k
  = Return res ->
  let tris := map (face_tri vertices) faces in
  exists tree,
    valid_mesh vertices faces /\
    KDTree (map centroid_row tris) = Return tree /\
    Forall2 (fun p r =>
               cpu_loop_inv (length faces) tris p (query tree p k)
                 (r_dist r, r_face r, r_bary r) /\
               (r_face r < length faces)%nat /\
               r_offset r = offset_of_face vertices faces p (r_face r))
            positions (records_of res).
Proof.
  intros Hbs Hne Hres. cbv zeta.
  destruct (compute_mapping_cpu_Return _ _ _ _ _ _ _ _ _ Hbs Hres)
    as (tree & rs & Hv & Htree & Hrs & ->).
  exists tree. split; [exact Hv|]. split; [exact Htree|].
  rewrite records_of_assemble.
  unfold cpu_points in Hrs. apply mapM_Forall2 in Hrs.
  pose proof (faces_nonempty_pos faces Hne) as Hpos.
  eapply Forall2_impl_in; [|exact Hrs]. cbn beta.
  intros p r _ Hr.
  destruct (cpu_point_spec (length faces)
              (map normal_row (map (face_tri vertices) faces))
              (map (face_tri vertices) faces) p (query tree p k))
    as (bd & bf & bb & Hinv & Hbf & _ & Hp); rewrite ?length_map; auto.
  rewrite Hp in Hr. inversion Hr; subst r. cbn [r_face r_bary r_offset r_dist].
  split; [exact Hinv|]. split; [exact Hbf|].
  unfold offset_of_face. cbv zeta.
  rewrite (nth_map_lt normal_row _ _ _ (vzero, vzero, vzero)) by (rewrite length_map; exact Hbf).
  rewrite (face_tri_nth vertices faces bf Hbf). reflexivity.
Qed.

End IndexStrategyRecords.

(** X1.  In the index-accelerated strategy, on a mesh with at least one
    face, the normal offset of every record is the dot product of
    (point - vertex 0 of the selected face) with the unit normal of that
    same face. *)
Theorem cpu_offset_of_selected_face
    (kdtree : Type) (KDTree : list vec3 -> outcome kdtree)
    (query : kdtree -> vec3 -> nat -> list nat)
    (batch_size k_nearest : nat)
    (positions vertices : list vec3) (faces : list face) (res : MappingResult) :
  (0 < batch_size)%nat -> faces <> [] ->
  compute_mapping_cpu_with kdtree KDTree query batch_size
    positions vertices faces k_nearest = Return res ->
  Forall2 (fun p r => r_offset r = offset_of_face vertices faces p (r_face r))
          positions (records_of res).
Proof.
  intros Hbs Hne Hres.
  destruct (cpu_records kdtree KDTree query _ _ _ _ _ _ Hbs Hne Hres)
    as (tree & _ & _ & HF).
  eapply Forall2_impl_in; [|exact HF]. cbn beta. tauto.
Qed.

(** The index-accelerated strategy with the reference centroid search
    returns on the unit square. *)
Lemma square_cpu_returns (bs k : nat) (points : list vec3) :
  (0 < bs)%nat ->
  exists res,
    compute_mapping_cpu_with RefKDTree.kdtree RefKDTree.KDTree RefKDTree.query bs
      points Square.vertices Square.faces k = Return res.
Proof.
  intros Hbs.
  destruct (compute_mapping_cpu_returns RefKDTree.kdtree RefKDTree.KDTree RefKDTree.query
              bs points Square.vertices Square.faces k
              (map centroid_row (map (face_tri Square.vertices) Square.faces)))
    as (rs & _ & Hcpu); auto.
  - exact square_valid.
  - discriminate.
  - eexists; exact Hcpu.
Qed.

Lemma pos_10000 : (0 < 10000)%nat.
Proof. apply Nat.ltb_lt; vm_compute; reflexivity. Qed.



Lemma cpu_offset_of_selected_face_witness :
  exists res,
    compute_mapping_cpu_with RefKDTree.kdtree RefKDTree.KDTree RefKDTree.query 10000
      [Square.point; Square.inner] Square.vertices Square.faces 8 = Return res /\
    Forall2 (fun p r =>
               r_offset r = offset_of_face Square.vertices Square.faces p (r_face r))
            [Square.point; Square.inner] (records_of res).
Proof.
  destruct (square_cpu_returns 10000 8 [Square.point; Square.inner] pos_10000)
    as [res Hres].
  exists res. split; [exact Hres|].
  apply (cpu_offset_of_selected_face RefKDTree.kdtree RefKDTree.KDTree RefKDTree.query
           10000 8 [Square.point; Square.inner] Square.vertices Square.faces res).
  - exact pos_10000.
  - discriminate.
  - exact Hres.
Defined.

(** ** Batch sizes *)

(** X2.  The point batch size changes nothing: for any two positive batch
    sizes the index-accelerated strategy has the same outcome (the same
    result or the same exception), and so has the exhaustive strategy for
    a fixed face-chunk size. *)
Theorem point_batch_size_irrelevant
    (kdtree : Type) (KDTree : list vec3 -> outcome kdtree)
    (query : kdtree -> vec3 -> nat -> list nat)
    (bs bs' face_batch_size k_nearest : nat)
    (positions vertices : list vec3) (faces : list face) :
  (0 < bs)%nat -> (0 < bs')%nat ->
  compute_mapping_cpu_with kdtree KDTree query bs positions vertices faces k_nearest
  = compute_mapping_cpu_with kdtree KDTree query bs' positions vertices faces k_nearest /\
  compute_mapping_cuda_with bs face_batch_size positions vertices faces k_nearest
  = compute_mapping_cuda_with bs' face_batch_size positions vertices faces k_nearest.
Proof.
  intros Hbs Hbs'. split.
  - rewrite !compute_mapping_cpu_unbatched by assumption. reflexivity.
  - rewrite !compute_mapping_cuda_unbatched by assumption. reflexivity.
Qed.

Lemma point_batch_size_irrelevant_witness :
  compute_mapping_cpu_with RefKDTree.kdtree RefKDTree.KDTree RefKDTree.query 1
    [Square.point; Square.inner] Square.vertices Square.faces 8
  = compute_mapping_cpu_with RefKDTree.kdtree RefKDTree.KDTree RefKDTree.query 10000
      [Square.point; Square.inner] Square.vertices Square.faces 8 /\
  compute_mapping_cuda_with 1 50000
    [Square.point; Square.inner] Square.vertices Square.faces 8
  = compute_mapping_cuda_with 1000 50000
      [Square.point; Square.inner] Square.vertices Square.faces 8.
Proof.
  apply (point_batch_size_irrelevant RefKDTree.kdtree RefKDTree.KDTree RefKDTree.query
           1 10000 50000 8 [Square.point; Square.inner] Square.vertices Square.faces).
  - lia.
  - exact pos_10000.
Defined.



(** ** Selection *)




Lemma cpu_result_assembled
    (kdtree : Type) (KDTree : list vec3 -> outcome kdtree)
    (query : kdtree -> vec3 -> nat -> list nat)
    (bs k : nat) (positions vertices : list vec3) (faces : list face)
    (res : MappingResult) :
  (0 < bs)%nat ->
  compute_mapping_cpu_with kdtree KDTree query bs positions vertices faces k = Return res ->
  res = assemble (records_of res) /\ length (records_of res) = length positions.
Proof.
  intros Hbs Hres.
  destruct (compute_mapping_cpu_Return _ _ _ _ _ _ _ _ _ Hbs Hres)
    as (tree & rs & _ & _ & Hrs & ->).
  rewrite records_of_assemble. split; [reflexivity|].
  unfold cpu_points in Hrs. apply (mapM_length _ _ _ Hrs).
Qed.

Lemma cuda_result_assembled (bs fbs k : nat) (positions vertices : list vec3)
    (faces : list face) :
  (0 < bs)%nat ->
  exists res,
    compute_mapping_cuda_with bs fbs positions vertices faces k = Return res /\
    res = assemble (records_of res) /\ length (records_of res) = length positions.
Proof.
  intros Hbs. rewrite compute_mapping_cuda_unbatched by assumption.
  eexists. split; [reflexivity|]. rewrite records_of_assemble.
  split; [reflexivity|]. unfold cuda_points. cbv zeta. apply length_map.
Qed.



(** ** Distances and array lengths *)



(** X7.  The result is index-aligned with the point set: its four arrays
    all have one entry per query point, in both strategies (whatever the
    positive batch and chunk sizes). *)
Theorem result_arrays_aligned
    (kdtree : Type) (KDTree : list vec3 -> outcome kdtree)
    (query : kdtree -> vec3 -> nat -> list nat)
    (cpu_batch_size batch_size face_batch_size k_nearest : nat)
    (positions vertices : list vec3) (faces : list face) :
  (0 < cpu_batch_size)%nat -> (0 < batch_size)%nat ->
  (forall res,
      compute_mapping_cpu_with kdtree KDTree query cpu_batch_size
        positions vertices faces k_nearest = Return res ->
      length (face_indices res) = length positions /\
      length (bary_coords res) = length positions /\
      length (normal_offsets res) = length positions /\
      length (distances res) = length positions) /\
  (exists res,
      compute_mapping_cuda_with batch_size face_batch_size
        positions vertices faces k_nearest = Return res /\
      length (face_indices res) = length positions /\
      length (bary_coords res) = length positions /\
      length (normal_offsets res) = length positions /\
      length (distances res) = length positions).
Proof.
  intros Hcbs Hbs. split.
  - intros res Hres.
    destruct (cpu_result_assembled kdtree KDTree query _ _ _ _ _ _ Hcbs Hres) as [Hasm Hlen].
    rewrite Hasm. cbn [assemble face_indices bary_coords normal_offsets distances].
    rewrite !length_map. auto.
  - destruct (cuda_result_assembled batch_size face_batch_size k_nearest positions
                vertices faces Hbs) as (res & Hres & Hasm & Hlen).
    exists res. split; [exact Hres|].
    rewrite Hasm. cbn [assemble face_indices bary_coords normal_offsets distances].
    rewrite !length_map. auto.
Qed.

Lemma result_arrays_aligned_witness :
  exists res_cpu res_cuda,
    compute_mapping_cpu_with RefKDTree.kdtree RefKDTree.KDTree RefKDTree.query 1
      [Square.point; Square.inner] Square.vertices Square.faces 8 = Return res_cpu /\
    length (face_indices res_cpu) = 2%nat /\
    compute_mapping_cuda_with 1 1
      [Square.point; Square.inner] Square.vertices Square.faces 8 = Return res_cuda /\
    length (face_indices res_cuda) = 2%nat.
Proof.
  destruct (square_cpu_returns 1 8 [Square.point; Square.inner] ltac:(lia))
    as [res Hres].
  destruct (result_arrays_aligned RefKDTree.kdtree RefKDTree.KDTree RefKDTree.query
              1 1 1 8 [Square.point; Square.inner] Square.vertices Square.faces
              ltac:(lia) ltac:(lia)) as [Hcpu (res_cuda & Hrc & Hl & _)].
  exists res, res_cuda. repeat split; try assumption.
  apply (Hcpu res Hres).
Defined.

(** ** The offset of the exhaustive strategy *)






(** ** Face attributes *)

Lemma np_take_raises {A : Type} (a : list A) (idx : list nat) (e : exn) :
  np_take a idx = Raise e -> e = IndexError.
Proof.
  unfold np_take. induction idx as [|i idx IH]; cbn [mapM bind]; [discriminate|].
  unfold np_index at 1. destruct (nth_error a i); cbn [bind].
  - destruct (mapM (np_index a) idx) as [xs|e'] eqn:E; cbn [bind]; [discriminate|].
    intros H; inversion H; subst. apply IH. reflexivity.
  - intros H; inversion H. reflexivity.
Qed.

Lemma compute_face_data_raises (vertices : list vec3) (faces : list face) (e : exn) :
  compute_face_data vertices faces = Raise e -> e = IndexError.
Proof.
  unfold compute_face_data.
  destruct (np_take vertices (map face0 faces)) as [v0|e0] eqn:E0; cbn [bind].
  - destruct (np_take vertices (map face1 faces)) as [v1|e1] eqn:E1; cbn [bind].
    + destruct (np_take vertices (map face2 faces)) as [v2|e2] eqn:E2; cbn [bind].
      * discriminate.
      * intros H; inversion H; subst. apply (np_take_raises _ _ _ E2).
    + intros H; inversion H; subst. apply (np_take_raises _ _ _ E1).
  - intros H; inversion H; subst. apply (np_take_raises _ _ _ E0).
Qed.

(** X9.  [compute_face_data] returns exactly when every vertex index of
    every face is in range, and raises an IndexError otherwise.  When it
    returns, the three arrays have one entry per face: the corners of the
    face, their centroid and their normal. *)
Theorem compute_face_data_outcome (vertices : list vec3) (faces : list face) :
  (valid_mesh vertices faces ->
   exists centroids normals face_verts,
     compute_face_data vertices faces = Return (centroids, normals, face_verts) /\
     length centroids = length faces /\ length normals = length faces /\
     face_verts = map (face_tri vertices) faces /\
     centroids = map centroid_row face_verts /\
     normals = map normal_row face_verts) /\
  (~ valid_mesh vertices faces ->
   compute_face_data vertices faces = Raise IndexError).
Proof.
  split.
  - intros Hv. rewrite (compute_face_data_valid _ _ Hv).
    eexists. eexists. eexists. split; [reflexivity|].
    rewrite !length_map. auto.
  - intros Hnv.
    destruct (compute_face_data vertices faces) as [[[c n] fv]|e] eqn:E.
    + apply compute_face_data_Return in E. tauto.
    + rewrite (compute_face_data_raises _ _ _ E). reflexivity.
Qed.

Lemma compute_face_data_outcome_witness :
  (exists centroids normals face_verts,
      compute_face_data Square.vertices Square.faces
      = Return (centroids, normals, face_verts) /\
      length centroids = 2%nat /\ length normals = 2%nat) /\
  compute_face_data Square.vertices [(0, 1, 4)%nat] = Raise IndexError.
Proof.
  split.
  - destruct (proj1 (compute_face_data_outcome Square.vertices Square.faces) square_valid)
      as (c & n & fv & H & Hc & Hn & _).
    exists c, n, fv. auto.
  - apply (proj2 (compute_face_data_outcome Square.vertices [(0, 1, 4)%nat])).
    intros Hv. inversion Hv as [|f fs (_ & _ & H2) _]; subst.
    cbn in H2. lia.
Defined.







(** ** The narrow phase above a triangle *)

Lemma gram_det_lagrange (t : tri) : gram_det t = dot (raw_normal t) (raw_normal t).
Proof.
  destruct t as [[[a1 a2 a3] [b1 b2 b3]] [c1 c2 c3]].
  cbv [gram_det raw_normal cross dot vsub tri0 tri1 tri2 fst snd vx vy vz]. ring.
Qed.

Lemma gram_det_nonneg (t : tri) : 0 <= gram_det t.
Proof. rewrite gram_det_lagrange. apply dot_self_nonneg. Qed.



(** ** Round trip for points off the surface *)


















(** ** [reconstruct_positions]: errors and moved meshes *)

Lemma np_take_not_Return {A : Type} (a : list A) (idx : list nat) :
  ~ Forall (fun i => (i < length a)%nat) idx -> np_take a idx = Raise IndexError.
Proof.
  intros Hn. destruct (np_take a idx) as [l|e] eqn:E.
  - destruct idx as [|i idx'].
    + exfalso. apply Hn. constructor.
    + assert (d : A).
      { unfold np_take in E. cbn [mapM] in E.
        destruct (np_index a i) as [x|] eqn:Hx; [exact x|discriminate]. }
      exfalso. apply Hn. apply (np_take_Return a _ l d E).
  - rewrite (np_take_raises _ _ _ E). reflexivity.
Qed.

(** X14.  On a valid mesh [reconstruct_positions] returns exactly when
    every face index of the result is below F, one position per record:
    the barycentric combination of the corners of the record's face plus
    the stored offset times the unit normal of that face.  With a face
    index of F or more it raises an IndexError. *)
Theorem reconstruct_positions_outcome (vertices : list vec3) (faces : list face)
    (rs : list record) :
  valid_mesh vertices faces ->
  (Forall (fun r => (r_face r < length faces)%nat) rs ->
   reconstruct_positions vertices faces (assemble rs)
   = Return (map (reconstruct_one vertices faces) rs)) /\
  (~ Forall (fun r => (r_face r < length faces)%nat) rs ->
   reconstruct_positions vertices faces (assemble rs) = Raise IndexError).
Proof.
  intros Hv. split.
  - intros Hrs. apply reconstruct_assemble; assumption.
  - intros Hn. unfold reconstruct_positions. cbn [assemble face_indices].
    rewrite np_take_not_Return; [reflexivity|].
    intros HF. apply Hn. rewrite Forall_map in HF. exact HF.
Qed.

Lemma reconstruct_positions_outcome_witness :
  reconstruct_positions Square.vertices Square.faces
    (assemble [mkRecord 1 (1 / 3, 1 / 3, 1 / 3) 0 PInf])
  = Return (map (reconstruct_one Square.vertices Square.faces)
              [mkRecord 1 (1 / 3, 1 / 3, 1 / 3) 0 PInf]) /\
  reconstruct_positions Square.vertices Square.faces
    (assemble [mkRecord 2 (1 / 3, 1 / 3, 1 / 3) 0 PInf])
  = Raise IndexError.
Proof.
  split.
  - apply (proj1 (reconstruct_positions_outcome Square.vertices Square.faces
                    [mkRecord 1 (1 / 3, 1 / 3, 1 / 3) 0 PInf] square_valid)).
    repeat constructor.
  - apply (proj2 (reconstruct_positions_outcome Square.vertices Square.faces
                    [mkRecord 2 (1 / 3, 1 / 3, 1 / 3) 0 PInf] square_valid)).
    intros H. inversion H as [|r l Hr _]; subst. cbn in Hr. lia.
Defined.

Lemma vsub_vadd (d a b : vec3) : vsub (vadd d a) (vadd d b) = vsub a b.
Proof.
  destruct d, a, b. cbv [vsub vadd vx vy vz]. f_equal; ring.
Qed.

Lemma normal_row_translate (d : vec3) (t : tri) :
  normal_row (translate_tri d t) = normal_row t.
Proof.
  unfold normal_row, translate_tri. cbn [tri0 tri1 tri2 fst snd].
  rewrite !vsub_vadd. reflexivity.
Qed.

Lemma bary_combine_translate (d : vec3) (b : bary3) (t : tri) :
  bary_total b = 1 ->
  bary_combine b (vadd d (tri0 t)) (vadd d (tri1 t)) (vadd d (tri2 t))
  = vadd d (bary_combine b (tri0 t) (tri1 t) (tri2 t)).
Proof.
  destruct b as [[u v] w]. unfold bary_total. intros Hs.
  assert (Hu : u = 1 - v - w) by lra. subst u.
  destruct d as [d1 d2 d3], t as [[[a1 a2 a3] [b1 b2 b3]] [c1 c2 c3]].
  cbv [bary_combine vadd vscale tri0 tri1 tri2 fst snd vx vy vz]. f_equal; ring.
Qed.

Lemma valid_mesh_translate (d : vec3) (vertices : list vec3) (faces : list face) :
  valid_mesh vertices faces -> valid_mesh (map (vadd d) vertices) faces.
Proof. unfold valid_mesh. rewrite length_map. auto. Qed.

Lemma face_tri_translate (d : vec3) (vertices : list vec3) (f : face) :
  (face0 f < length vertices)%nat /\ (face1 f < length vertices)%nat /\
  (face2 f < length vertices)%nat ->
  face_tri (map (vadd d) vertices) f = translate_tri d (face_tri vertices f).
Proof.
  intros (H0 & H1 & H2). unfold face_tri, translate_tri. cbn [tri0 tri1 tri2 fst snd].
  rewrite !(nth_map_lt (vadd d) vertices _ vzero vzero) by assumption. reflexivity.
Qed.

Lemma reconstruct_one_translate (d : vec3) (vertices : list vec3) (faces : list face)
    (r : record) :
  valid_mesh vertices faces -> (r_face r < length faces)%nat ->
  bary_total (r_bary r) = 1 ->
  reconstruct_one (map (vadd d) vertices) faces r
  = vadd d (reconstruct_one vertices faces r).
Proof.
  intros Hv Hf Hb. unfold reconstruct_one. cbv zeta.
  unfold valid_mesh in Hv. rewrite Forall_forall in Hv.
  rewrite face_tri_translate by (apply Hv, nth_In, Hf).
  rewrite normal_row_translate.
  unfold translate_tri at 1 2 3. cbn [tri0 tri1 tri2 fst snd].
  rewrite bary_combine_translate by exact Hb.
  destruct d, (bary_combine _ _ _ _), (vscale _ _).
  cbv [vadd vx vy vz]. f_equal; ring.
Qed.

(** X15.  Moving the mesh moves the reconstruction: on a valid mesh, for
    records with face indices below F and barycentric rows of sum 1,
    [reconstruct_positions] on the mesh translated by [d] returns the
    positions it returns on the original mesh, each translated by [d]. *)
Theorem reconstruct_follows_translation (d : vec3) (vertices : list vec3)
    (faces : list face) (rs : list record) :
  valid_mesh vertices faces ->
  Forall (fun r => (r_face r < length faces)%nat /\ bary_total (r_bary r) = 1) rs ->
  exists ps,
    reconstruct_positions vertices faces (assemble rs) = Return ps /\
    reconstruct_positions (map (vadd d) vertices) faces (assemble rs)
    = Return (map (vadd d) ps).
Proof.
  intros Hv Hrs.
  assert (Hf : Forall (fun r => (r_face r < length faces)%nat) rs)
    by (eapply Forall_impl; [|exact Hrs]; cbn; tauto).
  exists (map (reconstruct_one vertices faces) rs). split.
  - apply reconstruct_assemble; assumption.
  - rewrite reconstruct_assemble; [|apply valid_mesh_translate; exact Hv|exact Hf].
    f_equal. rewrite map_map. apply map_ext_in. intros r Hr.
    rewrite Forall_forall in Hrs. destruct (Hrs r Hr) as [Hr1 Hr2].
    apply reconstruct_one_translate; assumption.
Qed.

Lemma reconstruct_follows_translation_witness :
  exists ps,
    reconstruct_positions Square.vertices Square.faces
      (assemble [mkRecord 0 (3 / 4, 0, 1 / 4) (1 / 2) (Fin (1 / 2))]) = Return ps /\
    reconstruct_positions (map (vadd (V3 1 2 3)) Square.vertices) Square.faces
      (assemble [mkRecord 0 (3 / 4, 0, 1 / 4) (1 / 2) (Fin (1 / 2))])
    = Return (map (vadd (V3 1 2 3)) ps).
Proof.
  apply (reconstruct_follows_translation (V3 1 2 3) Square.vertices Square.faces
           [mkRecord 0 (3 / 4, 0, 1 / 4) (1 / 2) (Fin (1 / 2))] square_valid).
  constructor; [|constructor].
  split; [cbn; lia|]. cbn [r_bary bary_total]. lra.
Defined.

(** ** Translation of the whole scene *)












(** ** [save_mapping]: the three formats *)

Lemma bin_records_ok (res : MappingResult) (idxs : list nat)
    (written : list (nat * bary3 * R)) :
  Forall (fun i => (i < length (face_indices res))%nat /\
                   (i < length (bary_coords res))%nat /\
                   (i < length (normal_offsets res))%nat) idxs ->
  bin_records res idxs written
  = (written ++ map (fun i => (nth i (face_indices res) 0%nat,
                               nth i (bary_coords res) (0, 0, 0),
                               nth i (normal_offsets res) 0)) idxs,
     Return tt).
Proof.
  intros H. revert written.
  induction H as [|i idxs (Hf & Hb & Ho) _ IH]; intros written; cbn [bin_records map].
  - rewrite app_nil_r. reflexivity.
  - rewrite (np_index_lt (face_indices res) i 0%nat Hf),
      (np_index_lt (bary_coords res) i (0, 0, 0) Hb),
      (np_index_lt (normal_offsets res) i 0 Ho).
    rewrite IH, <- app_assoc. reflexivity.
Qed.

Lemma np_index_ge {A : Type} (a : list A) (i : nat) :
  (length a <= i)%nat -> np_index a i = Raise IndexError.
Proof.
  intros H. unfold np_index.
  rewrite (proj2 (nth_error_None a i) H). reflexivity.
Qed.

Lemma bin_records_raises (res : MappingResult) (idxs : list nat)
    (written : list (nat * bary3 * R)) :
  Forall (fun i => (i < length (face_indices res))%nat) idxs ->
  Exists (fun i => (length (bary_coords res) <= i)%nat \/
                   (length (normal_offsets res) <= i)%nat) idxs ->
  snd (bin_records res idxs written) = Raise IndexError.
Proof.
  intros Hf Hex. revert written.
  induction idxs as [|i idxs IH]; intros written; [inversion Hex|].
  inversion Hf as [|? ? Hi Hf']; subst.
  cbn [bin_records]. rewrite (np_index_lt (face_indices res) i 0%nat Hi).
  destruct (Nat.lt_ge_cases i (length (bary_coords res))) as [Hb|Hb].
  - rewrite (np_index_lt (bary_coords res) i (0, 0, 0) Hb).
    destruct (Nat.lt_ge_cases i (length (normal_offsets res))) as [Ho|Ho].
    + rewrite (np_index_lt (normal_offsets res) i 0 Ho). apply IH; [exact Hf'|].
      inversion Hex as [? ? [H|H]|]; subst; [lia|lia|assumption].
    + rewrite (np_index_ge _ i Ho). reflexivity.
  - rewrite (np_index_ge _ i Hb). reflexivity.
Qed.

Lemma map_nth_seq_combine3 {A B C : Type} (fs : list A) (bs : list B) (os : list C)
    (da : A) (db : B) (dc : C) :
  (length fs <= length bs)%nat -> (length fs <= length os)%nat ->
  map (fun i => (nth i fs da, nth i bs db, nth i os dc)) (seq 0 (length fs))
  = combine (combine fs bs) os.
Proof.
  revert bs os. induction fs as [|f fs IH]; intros bs os Hb Ho; [reflexivity|].
  destruct bs as [|b bs]; [cbn in Hb; lia|].
  destruct os as [|o os]; [cbn in Ho; lia|].
  cbn [length seq map combine nth]. f_equal.
  rewrite <- seq_shift, map_map. cbn [nth].
  apply IH; cbn [length] in *; lia.
Qed.

(** X17.  The [bin] format.  When the barycentric and offset arrays are
    at least as long as the face-index array (N entries), [save_mapping]
    returns, prints one line and writes at the output path the count N
    followed by N records (face index, barycentric row, offset), entry
    by entry of the three arrays; the distances are not written.  When
    one of the two arrays is shorter it raises an IndexError and prints
    nothing. *)
Theorem save_mapping_bin (res : MappingResult) (output_path : string) (w : world) :
  let n := length (face_indices res) in
  ((n <= length (bary_coords res))%nat /\ (n <= length (normal_offsets res))%nat ->
   save_mapping res output_path "bin" w
   = (Return tt,
      print (write_file w output_path
               (BinFile n (combine (combine (face_indices res) (bary_coords res))
                                   (normal_offsets res))))
            ("Saved mapping to " ++ output_path)%string)) /\
  (~ ((n <= length (bary_coords res))%nat /\ (n <= length (normal_offsets res))%nat) ->
   fst (save_mapping res output_path "bin" w) = Raise IndexError /\
   stdout (snd (save_mapping res output_path "bin" w)) = stdout w).
Proof.
  cbv zeta. unfold save_mapping.
  change (String.eqb "bin" "npz") with false.
  change (String.eqb "bin" "bin") with true. cbv iota. cbv zeta.
  split.
  - intros [Hb Ho].
    rewrite bin_records_ok.
    + cbn [app]. rewrite map_nth_seq_combine3 by assumption. reflexivity.
    + apply Forall_forall. intros i Hi. apply in_seq in Hi. lia.
  - intros Hn.
    pose proof (bin_records_raises res (seq 0 (length (face_indices res))) []) as Hr.
    destruct (bin_records res (seq 0 (length (face_indices res))) []) as [written status].
    cbn [snd] in Hr. rewrite Hr.
    + cbn [fst snd write_file stdout]. auto.
    + apply Forall_forall. intros i Hi. apply in_seq in Hi. lia.
    + apply Exists_exists.
      destruct (Nat.le_gt_cases (length (face_indices res)) (length (bary_coords res)))
        as [Hb|Hb].
      * destruct (Nat.le_gt_cases (length (face_indices res))
                    (length (normal_offsets res))) as [Ho|Ho]; [tauto|].
        exists (length (normal_offsets res)). split; [apply in_seq; lia|right; lia].
      * exists (length (bary_coords res)). split; [apply in_seq; lia|left; lia].
Qed.

Lemma save_mapping_bin_witness :
  save_mapping (mkResult [0%nat] [(3 / 4, 0, 1 / 4)] [1 / 2] [Fin (1 / 2)])
    "mapping.bin" "bin" empty_world
  = (Return tt,
     print (write_file empty_world "mapping.bin"
              (BinFile 1 [(0%nat, (3 / 4, 0, 1 / 4), 1 / 2)]))
       "Saved mapping to mapping.bin") /\
  fst (save_mapping (mkResult [0%nat] [] [1 / 2] [Fin (1 / 2)])
         "mapping.bin" "bin" empty_world) = Raise IndexError.
Proof.
  split.
  - apply (proj1 (save_mapping_bin
                    (mkResult [0%nat] [(3 / 4, 0, 1 / 4)] [1 / 2] [Fin (1 / 2)])
                    "mapping.bin" empty_world)).
    cbn. lia.
  - apply (proj2 (save_mapping_bin (mkResult [0%nat] [] [1 / 2] [Fin (1 / 2)])
                    "mapping.bin" empty_world)).
    cbn. lia.
Defined.

Lemma string_length_append (a b : string) :
  String.length (a ++ b) = (String.length a + String.length b)%nat.
Proof. induction a as [|c a IH]; cbn; [reflexivity|]. rewrite IH. reflexivity. Qed.

Lemma append_suffix_neq (a b : string) : b <> EmptyString -> (a ++ b)%string <> a.
Proof.
  intros Hb E. apply (f_equal String.length) in E.
  rewrite string_length_append in E.
  destruct b; [congruence|]. cbn in E. lia.
Qed.

(** X18.  The [npz] format with an output path that does not end in
    ".npz": [save_mapping] returns and the four arrays are stored under
    the path with ".npz" appended; no file is written at the output path
    itself, although the printed line names the output path. *)
Theorem save_mapping_npz_appends_suffix
    (res : MappingResult) (output_path : string) (w : world) :
  ends_with ".npz" output_path = false ->
  exists w',
    save_mapping res output_path "npz" w = (Return tt, w') /\
    files w' (output_path ++ ".npz")%string
    = Some (NpzFile (face_indices res) (bary_coords res) (normal_offsets res)
              (distances res)) /\
    files w' output_path = files w output_path /\
    stdout w' = stdout w ++ [("Saved mapping to " ++ output_path)%string].
Proof.
  intros Hend. unfold save_mapping.
  change (String.eqb "npz" "npz") with true. cbv iota. cbv zeta.
  eexists. split; [reflexivity|].
  unfold npz_path. rewrite Hend. cbn [print write_file files stdout].
  rewrite String.eqb_refl.
  assert (Hne : String.eqb output_path (output_path ++ ".npz") = false).
  { apply String.eqb_neq. intros E. symmetry in E. revert E.
    apply append_suffix_neq. discriminate. }
  rewrite Hne. auto.
Qed.

Lemma save_mapping_npz_appends_suffix_witness :
  exists w',
    save_mapping (mkResult [0%nat] [(3 / 4, 0, 1 / 4)] [1 / 2] [Fin (1 / 2)])
      "mapping" "npz" empty_world = (Return tt, w') /\
    files w' "mapping.npz"
    = Some (NpzFile [0%nat] [(3 / 4, 0, 1 / 4)] [1 / 2] [Fin (1 / 2)]) /\
    files w' "mapping" = None /\
    stdout w' = ["Saved mapping to mapping"%string].
Proof.
  apply (save_mapping_npz_appends_suffix
           (mkResult [0%nat] [(3 / 4, 0, 1 / 4)] [1 / 2] [Fin (1 / 2)])
           "mapping" empty_world).
  reflexivity.
Defined.

(** X19.  What [save_mapping] leaves alone, for every format: a path
    other than the output path and the output path with ".npz" appended
    keeps its content; one line "Saved mapping to <output path>" is
    printed when the call returns and nothing is printed when it
    raises. *)
Theorem save_mapping_effects
    (res : MappingResult) (output_path format : string) (w : world) :
  let out := fst (save_mapping res output_path format w) in
  let w' := snd (save_mapping res output_path format w) in
  (forall q, q <> output_path -> q <> (output_path ++ ".npz")%string ->
             files w' q = files w q) /\
  (out = Return tt ->
   stdout w' = stdout w ++ [("Saved mapping to " ++ output_path)%string]) /\
  (forall e, out = Raise e -> stdout w' = stdout w).
Proof.
  cbv zeta. unfold save_mapping.
  assert (Hw : forall q p c, q <> p -> files (write_file w p c) q = files w q).
  { intros q p c Hq. cbn [write_file files].
    rewrite (proj2 (String.eqb_neq q p) Hq). reflexivity. }
  destruct (String.eqb format "npz").
  - cbn [fst snd print files stdout]. split; [|split].
    + intros q H1 H2. apply Hw. unfold npz_path.
      destruct (ends_with ".npz" output_path); assumption.
    + reflexivity.
    + discriminate.
  - destruct (String.eqb format "bin").
    + cbv zeta.
      destruct (bin_records res (seq 0 (length (face_indices res))) [])
        as [written [[]|e]]; cbn [fst snd print files stdout]; (split; [|split]).
      * intros q H1 _. apply Hw. exact H1.
      * reflexivity.
      * discriminate.
      * intros q H1 _. apply Hw. exact H1.
      * discriminate.
      * reflexivity.
    + destruct (String.eqb format "json"); cbn [fst snd print files stdout];
        (split; [|split]).
      * intros q H1 _. apply Hw. exact H1.
      * reflexivity.
      * discriminate.
      * reflexivity.
      * discriminate.
      * reflexivity.
Qed.

(** ** [load_glb]: the merged mesh *)

Lemma foldM_app {A S : Type} (f : S -> A -> outcome S) (l1 l2 : list A) (s : S) :
  foldM f (l1 ++ l2) s = (s' <- foldM f l1 s ;; foldM f l2 s').
Proof.
  revert s. induction l1 as [|a l1 IH]; intros s; cbn [app foldM bind]; [reflexivity|].
  destruct (f s a) as [s1|e]; cbn [bind]; [apply IH|reflexivity].
Qed.

(** The two nested loops visit the primitives of all meshes in order. *)
Lemma foldM_nested {A S : Type} (f : S -> A -> outcome S) (ls : list (list A)) (s : S) :
  foldM (fun st l => foldM f l st) ls s = foldM f (concat ls) s.
Proof.
  revert s. induction ls as [|l ls IH]; intros s; cbn [concat foldM]; [reflexivity|].
  rewrite foldM_app.
  destruct (foldM f l s) as [s1|e]; cbn [bind]; [apply IH|reflexivity].
Qed.

Lemma reshape3_length (a : list nat) (rows : list face) :
  reshape3 a = Some rows -> length a = (3 * length rows)%nat.
Proof.
  revert a. induction rows as [|r rows IH]; intros a H.
  - destruct a as [|i [|j [|k rest]]]; cbn [reshape3] in H; try discriminate;
      [reflexivity|].
    destruct (reshape3 rest); discriminate.
  - destruct a as [|i [|j [|k rest]]]; cbn [reshape3] in H; try discriminate.
    destruct (reshape3 rest) as [rows'|] eqn:E; [|discriminate].
    inversion H; subst. cbn [length]. rewrite (IH rest E). lia.
Qed.

Lemma reshape3_multiple (n : nat) (a : list nat) :
  length a = (3 * n)%nat -> exists rows, reshape3 a = Some rows.
Proof.
  revert a. induction n as [|n IH]; intros a H.
  - destruct a; [|cbn in H; lia]. exists []. reflexivity.
  - destruct a as [|i [|j [|k rest]]]; cbn [length] in H; try lia.
    destruct (IH rest ltac:(lia)) as [rows E].
    exists ((i, j, k) :: rows). cbn [reshape3]. rewrite E. reflexivity.
Qed.

Lemma reshape3_mod (a : list nat) :
  (length a mod 3 = 0)%nat <-> exists rows, reshape3 a = Some rows.
Proof.
  split.
  - intros H. apply (reshape3_multiple (length a / 3)).
    pose proof (Nat.div_mod_eq (length a) 3). lia.
  - intros [rows E]. rewrite (reshape3_length a rows E).
    rewrite Nat.mul_comm. apply Nat.Div0.mod_mul.
Qed.

Lemma reshape3_In (a : list nat) (rows : list face) (f : face) :
  reshape3 a = Some rows -> In f rows ->
  In (face0 f) a /\ In (face1 f) a /\ In (face2 f) a.
Proof.
  revert a. induction rows as [|r rows IH]; intros a H Hin; [inversion Hin|].
  destruct a as [|i [|j [|k rest]]]; cbn [reshape3] in H; try discriminate.
  destruct (reshape3 rest) as [rows'|] eqn:E; [|discriminate].
  inversion H; subst. destruct Hin as [<-|Hin].
  - unfold face0, face1, face2. cbn [fst snd In]. tauto.
  - destruct (IH rest E Hin) as (H0 & H1 & H2). cbn [In]. tauto.
Qed.

Lemma known_component_type (c : Z) :
  ((c =? 5121) || (c =? 5123) || (c =? 5125))%Z = true
  <-> (c = 5121 \/ c = 5123 \/ c = 5125)%Z.
Proof.
  rewrite !Bool.orb_true_iff, !Z.eqb_eq. tauto.
Qed.

Lemma load_primitive_ok (all_vertices : list (list vec3)) (all_faces : list (list face))
    (vertex_offset : nat) (prim : primitive) :
  prim_well_formed prim ->
  load_primitive (all_vertices, all_faces, vertex_offset) prim
  = Return (all_vertices ++ [prim_vertices prim],
            all_faces ++ [map (shift_face vertex_offset) (prim_faces prim)],
            (vertex_offset + length (prim_vertices prim))%nat).
Proof.
  unfold prim_well_formed, load_primitive, prim_faces, prim_flat, reshape_rows.
  destruct (prim_indices prim) as [[c indices]|]; intros [Hc Hm].
  - rewrite (proj2 (known_component_type c) Hc).
    destruct (proj1 (reshape3_mod indices) Hm) as [rows E]. rewrite E.
    reflexivity.
  - destruct (proj1 (reshape3_mod _) Hm) as [rows E]. rewrite E. reflexivity.
Qed.

Lemma load_primitive_Return (st st' : glb_state) (prim : primitive) :
  load_primitive st prim = Return st' -> prim_well_formed prim.
Proof.
  destruct st as [[av af] off].
  unfold prim_well_formed, load_primitive, prim_flat, reshape_rows.
  destruct (prim_indices prim) as [[c indices]|].
  - destruct ((c =? 5121) || (c =? 5123) || (c =? 5125))%Z eqn:Hc;
      cbn [bind]; [|discriminate].
    destruct (reshape3 indices) as [rows|] eqn:E; cbn [bind]; [|discriminate].
    intros _. split.
    + apply known_component_type. exact Hc.
    + apply reshape3_mod. eauto.
  - destruct (reshape3 (seq 0 (length (prim_vertices prim)))) as [rows|] eqn:E;
      cbn [bind]; [|discriminate].
    intros _. split; [exact I|]. apply reshape3_mod. eauto.
Qed.

Lemma load_primitive_Raise (st : glb_state) (prim : primitive) (e : exn) :
  load_primitive st prim = Raise e -> exists msg, e = ValueError msg.
Proof.
  destruct st as [[av af] off]. unfold load_primitive, reshape_rows.
  destruct (prim_indices prim) as [[c indices]|].
  - destruct ((c =? 5121) || (c =? 5123) || (c =? 5125))%Z; cbn [bind].
    + destruct (reshape3 indices); cbn [bind]; intros H; inversion H. eauto.
    + intros H; inversion H. eauto.
  - destruct (reshape3 _); cbn [bind]; intros H; inversion H. eauto.
Qed.

Lemma foldM_load_ok (prims : list primitive) (all_vertices : list (list vec3))
    (all_faces : list (list face)) (vertex_offset : nat) :
  Forall prim_well_formed prims ->
  foldM load_primitive prims (all_vertices, all_faces, vertex_offset)
  = Return (all_vertices ++ map prim_vertices prims,
            all_faces ++ merged_faces vertex_offset prims,
            (vertex_offset + length (concat (map prim_vertices prims)))%nat).
Proof.
  intros H. revert all_vertices all_faces vertex_offset.
  induction H as [|prim prims Hp _ IH]; intros av af off;
    cbn [foldM map merged_faces concat].
  - rewrite !app_nil_r. cbn [length]. rewrite Nat.add_0_r. reflexivity.
  - rewrite (load_primitive_ok av af off prim Hp). cbn [bind].
    rewrite IH, <- !app_assoc, length_app, Nat.add_assoc. reflexivity.
Qed.

Lemma foldM_load_raises (prims : list primitive) (st : glb_state) :
  ~ Forall prim_well_formed prims ->
  exists msg, foldM load_primitive prims st = Raise (ValueError msg).
Proof.
  revert st. induction prims as [|prim prims IH]; intros st Hn.
  - exfalso. apply Hn. constructor.
  - cbn [foldM]. destruct (load_primitive st prim) as [st'|e] eqn:E; cbn [bind].
    + apply IH. intros HF. apply Hn. constructor; [|exact HF].
      apply (load_primitive_Return st st' prim E).
    + destruct (load_primitive_Raise st prim e E) as [msg ->]. eauto.
Qed.

Lemma nth_shift (pre own rest : list vec3) (i : nat) :
  (i < length own)%nat ->
  nth (i + length pre) (pre ++ own ++ rest) vzero = nth i own vzero.
Proof.
  intros Hi. rewrite app_nth2 by lia.
  replace (i + length pre - length pre)%nat with i by lia.
  apply app_nth1. exact Hi.
Qed.

(** The triangles of the merged mesh are the triangles of the
    primitives, and every merged index is in range. *)
Lemma merged_faces_tris (prims : list primitive) (pre : list vec3) :
  Forall prim_well_formed prims -> Forall prim_in_range prims ->
  let vertices := pre ++ concat (map prim_vertices prims) in
  let faces := concat (merged_faces (length pre) prims) in
  valid_mesh vertices faces /\
  map (face_tri vertices) faces
  = concat (map (fun prim => map (face_tri (prim_vertices prim)) (prim_faces prim)) prims).
Proof.
  intros Hwf. revert pre. cbv zeta.
  induction Hwf as [|prim prims Hp _ IH]; intros pre Hin;
    cbn [map concat merged_faces].
  - split; [constructor|reflexivity].
  - inversion Hin as [|? ? Hr Hin']; subst.
    specialize (IH (pre ++ prim_vertices prim) Hin').
    rewrite length_app, <- app_assoc in IH. destruct IH as [IHv IHt].
    assert (Hrows : forall f, In f (prim_faces prim) ->
               (face0 f < length (prim_vertices prim))%nat /\
               (face1 f < length (prim_vertices prim))%nat /\
               (face2 f < length (prim_vertices prim))%nat).
    { intros f Hf. unfold prim_faces in Hf.
      destruct (reshape3 (prim_flat prim)) as [rows|] eqn:E; [|inversion Hf].
      destruct (reshape3_In _ _ f E Hf) as (H0 & H1 & H2).
      unfold prim_in_range in Hr. rewrite Forall_forall in Hr. auto. }
    split.
    + unfold valid_mesh. apply Forall_app. split; [|exact IHv].
      apply Forall_map. apply Forall_forall. intros f Hf.
      destruct (Hrows f Hf) as (H0 & H1 & H2).
      unfold shift_face, face0, face1, face2. cbn [fst snd].
      rewrite !length_app. unfold face0, face1, face2 in *. lia.
    + rewrite map_app, IHt. f_equal.
      rewrite map_map. apply map_ext_in. intros f Hf.
      destruct (Hrows f Hf) as (H0 & H1 & H2).
      unfold face_tri, shift_face. cbn [face0 face1 face2 fst snd].
      change (fst (fst (fst (fst f) + length pre, snd (fst f) + length pre,
                        snd f + length pre)%nat))
        with (face0 f + length pre)%nat.
      rewrite !nth_shift by assumption. reflexivity.
Qed.

Lemma length_merged_faces (prims : list primitive) (vertex_offset : nat) :
  length (concat (merged_faces vertex_offset prims))
  = length (concat (map prim_faces prims)).
Proof.
  revert vertex_offset. induction prims as [|prim prims IH]; intros off;
    cbn [merged_faces map concat]; [reflexivity|].
  rewrite !length_app, length_map, IH. reflexivity.
Qed.

Lemma load_glb_unfold (meshes : list (list primitive)) (w : world) :
  Forall prim_well_formed (concat meshes) -> concat meshes <> [] ->
  load_glb meshes w
  = (Return (concat (map prim_vertices (concat meshes)),
             concat (merged_faces 0 (concat meshes))),
     print w ("Loaded mesh: "
              ++ str_nat (length (concat (map prim_vertices (concat meshes))))
              ++ " vertices, "
              ++ str_nat (length (concat (merged_faces 0 (concat meshes))))
              ++ " faces")%string).
Proof.
  intros Hwf Hne. unfold load_glb.
  rewrite foldM_nested, (foldM_load_ok _ [] [] 0%nat Hwf). cbn [bind fst snd app].
  destruct (concat meshes) as [|prim prims]; [congruence|].
  cbn [map merged_faces vstack bind]. reflexivity.
Qed.

(** X20.  [load_glb] merges the primitives without changing their
    geometry.  When the file has at least one primitive and every
    primitive has a known index component type (or no indices) and a
    number of indices that is a multiple of 3, it returns and prints the
    two counts; the vertices are the vertex arrays of the primitives
    one after the other.  If moreover every index of a primitive is
    below its own vertex count, every index of the merged faces is
    below the merged vertex count and the triangles of the merged mesh
    are the triangles of the primitives, in order. *)
Theorem load_glb_merges (meshes : list (list primitive)) (w : world) :
  let prims := concat meshes in
  prims <> [] -> Forall prim_well_formed prims ->
  exists vertices faces,
    load_glb meshes w
    = (Return (vertices, faces),
       print w ("Loaded mesh: " ++ str_nat (length vertices) ++ " vertices, "
                ++ str_nat (length faces) ++ " faces")%string) /\
    vertices = concat (map prim_vertices prims) /\
    length faces = length (concat (map prim_faces prims)) /\
    (Forall prim_in_range prims ->
     valid_mesh vertices faces /\
     map (face_tri vertices) faces
     = concat (map (fun prim => map (face_tri (prim_vertices prim)) (prim_faces prim))
                   prims)).
Proof.
  cbv zeta. intros Hne Hwf.
  exists (concat (map prim_vertices (concat meshes))),
         (concat (merged_faces 0 (concat meshes))).
  split; [apply load_glb_unfold; assumption|].
  split; [reflexivity|]. split.
  - apply length_merged_faces.
  - intros Hin. apply (merged_faces_tris (concat meshes) [] Hwf Hin).
Qed.

Lemma glb_plain_well_formed : prim_well_formed Glb.plain.
Proof. split; [exact I|reflexivity]. Qed.

Lemma glb_indexed_well_formed : prim_well_formed Glb.indexed.
Proof. split; [right; left; reflexivity|reflexivity]. Qed.

Lemma glb_well_formed : Forall prim_well_formed (concat Glb.meshes).
Proof.
  constructor; [exact glb_plain_well_formed|].
  constructor; [exact glb_indexed_well_formed|constructor].
Qed.

Lemma load_glb_merges_witness :
  exists vertices faces,
    load_glb Glb.meshes empty_world
    = (Return (vertices, faces),
       print empty_world ("Loaded mesh: " ++ str_nat (length vertices) ++ " vertices, "
                          ++ str_nat (length faces) ++ " faces")%string) /\
    vertices = concat (map prim_vertices (concat Glb.meshes)) /\
    length faces = length (concat (map prim_faces (concat Glb.meshes))) /\
    (Forall prim_in_range (concat Glb.meshes) ->
     valid_mesh vertices faces /\
     map (face_tri vertices) faces
     = concat (map (fun prim => map (face_tri (prim_vertices prim)) (prim_faces prim))
                   (concat Glb.meshes))).
Proof.
  apply (load_glb_merges Glb.meshes empty_world).
  - discriminate.
  - exact glb_well_formed.
Defined.

(** X21.  What [load_glb] rejects.  With no primitive at all it raises
    the ValueError of [np.vstack] on an empty list.  At the first
    primitive whose index accessor has a component type other than
    5121, 5123 and 5125 it raises the ValueError "Unknown index
    component type: <type>".  Whenever some primitive has an unknown
    component type or a number of indices that is not a multiple of 3, a
    ValueError is raised.  In every one of these cases nothing is
    printed. *)
Theorem load_glb_rejects (meshes : list (list primitive)) (w : world) :
  (concat meshes = [] ->
   load_glb meshes w
   = (Raise (ValueError "need at least one array to concatenate"), w)) /\
  (forall pre prim post component_type indices,
      concat meshes = pre ++ prim :: post ->
      Forall prim_well_formed pre ->
      prim_indices prim = Some (component_type, indices) ->
      component_type <> 5121%Z -> component_type <> 5123%Z ->
      component_type <> 5125%Z ->
      load_glb meshes w
      = (Raise (ValueError ("Unknown index component type: "
                            ++ str_int component_type)%string), w)) /\
  (~ Forall prim_well_formed (concat meshes) ->
   exists msg, load_glb meshes w = (Raise (ValueError msg), w)).
Proof.
  split; [|split].
  - intros E. unfold load_glb. rewrite foldM_nested, E. reflexivity.
  - intros pre prim post c indices E Hpre Hidx H1 H2 H3.
    unfold load_glb. rewrite foldM_nested, E, foldM_app.
    rewrite (foldM_load_ok pre [] [] 0%nat Hpre). cbn [bind foldM].
    unfold load_primitive. rewrite Hidx.
    assert (Hc : ((c =? 5121) || (c =? 5123) || (c =? 5125))%Z = false).
    { destruct ((c =? 5121) || (c =? 5123) || (c =? 5125))%Z eqn:Hc; [|reflexivity].
      apply known_component_type in Hc. tauto. }
    rewrite Hc. reflexivity.
  - intros Hn. unfold load_glb. rewrite foldM_nested.
    destruct (foldM_load_raises (concat meshes) ([], [], 0%nat) Hn) as [msg ->].
    exists msg. reflexivity.
Qed.

Lemma load_glb_rejects_witness :
  load_glb [[]; []] empty_world
  = (Raise (ValueError "need at least one array to concatenate"), empty_world) /\
  load_glb [[Glb.plain]; [Glb.float_indexed; Glb.indexed]] empty_world
  = (Raise (ValueError "Unknown index component type: 5126"), empty_world).
Proof.
  split.
  - apply (proj1 (load_glb_rejects [[]; []] empty_world)). reflexivity.
  - apply (proj1 (proj2 (load_glb_rejects [[Glb.plain]; [Glb.float_indexed; Glb.indexed]]
                           empty_world))
             [Glb.plain] Glb.float_indexed [Glb.indexed] 5126%Z [0; 1; 2]%nat).
    + reflexivity.
    + constructor; [exact glb_plain_well_formed|constructor].
    + reflexivity.
    + discriminate.
    + discriminate.
    + discriminate.
Defined.

(** ** [load_ply] *)




Lemma list_index_None (x : string) (l : list string) :
  list_index x l = None <-> ~ In x l.
Proof.
  induction l as [|y l IH]; cbn [list_index In]; [tauto|].
  destruct (String.eqb y x) eqn:E.
  - apply String.eqb_eq in E. split; [discriminate|]. tauto.
  - apply String.eqb_neq in E.
    destruct (list_index x l); cbn [option_map].
    + split; [discriminate|]. intros H. exfalso.
      assert (Hn : ~ In x l) by tauto.
      apply IH in Hn. discriminate.
    + split; [|reflexivity]. intros _ [H|H]; [congruence|].
      destruct IH as [IH _]. apply (IH eq_refl H).
Qed.

Lemma find_xyz_missing (properties : list (string * string)) :
  ~ In "x"%string (map fst properties) \/ ~ In "y"%string (map fst properties)
  \/ ~ In "z"%string (map fst properties) ->
  find_xyz properties = Raise (ValueError "PLY file must have x, y, z properties").
Proof.
  intros H. unfold find_xyz. cbv zeta.
  destruct H as [H|[H|H]]; apply list_index_None in H; rewrite H.
  - reflexivity.
  - destruct (list_index "x" _); reflexivity.
  - destruct (list_index "x" _); [destruct (list_index "y" _)|]; reflexivity.
Qed.

(** X23.  A header that is read without error and declares no property
    named x, or none named y, or none named z (in any element) makes
    [load_ply] raise ValueError "PLY file must have x, y, z properties":
    the data after the header is not looked at, in the binary and in the
    ASCII format alike, and nothing is printed. *)
Theorem load_ply_missing_xyz
    (int : string -> outcome Z) (float : string -> outcome R)
    (read_binary : list (string * string) -> bool -> Z -> string -> outcome (list vec3))
    (lines header_lines body : list string) (w : world)
    (vertex_count : Z) (properties : list (string * string))
    (is_binary is_little_endian : bool) :
  read_header lines = Some (header_lines, body) ->
  parse_header int header_lines
  = Return (vertex_count, properties, is_binary, is_little_endian) ->
  ~ In "x"%string (map fst properties) \/ ~ In "y"%string (map fst properties)
  \/ ~ In "z"%string (map fst properties) ->
  forall body',
    load_ply int float read_binary (firstn (length lines - length body) lines ++ body') w
    = Some (Raise (ValueError "PLY file must have x, y, z properties"), w).
Proof.
  intros Hh Hp Hmiss body'.
  assert (Hsplit : forall ls hs b,
             read_header ls = Some (hs, b) ->
             forall b', read_header (firstn (length ls - length b) ls ++ b')
                        = Some (hs, b')).
  { induction ls as [|raw rest IH]; cbn [read_header]; intros hs b H b';
      [discriminate|].
    destruct (String.eqb (strip raw) "end_header") eqn:E.
    - inversion H; subst. cbn [length].
      replace (S (length b) - length b)%nat with 1%nat by lia.
      cbn [firstn app read_header]. rewrite E. reflexivity.
    - destruct (read_header rest) as [[hs' b0]|] eqn:Er; [|discriminate].
      inversion H; subst.
      assert (Hlen : (length b <= length rest)%nat).
      { clear -Er. revert hs' b Er.
        induction rest as [|r rest IH]; cbn [read_header]; intros hs' b Er;
          [discriminate|].
        destruct (String.eqb (strip r) "end_header").
        - inversion Er; subst. cbn [length]. lia.
        - destruct (read_header rest) as [[h1 b1]|] eqn:E1; [|discriminate].
          inversion Er; subst. specialize (IH _ _ eq_refl). cbn [length]. lia. }
      cbn [length].
      replace (S (length rest) - length b)%nat
        with (S (length rest - length b)) by lia.
      cbn [firstn app read_header]. rewrite E, (IH _ _ eq_refl b'). reflexivity. }
  unfold load_ply. rewrite (Hsplit _ _ _ Hh body'), Hp. cbn [bind].
  rewrite (find_xyz_missing _ Hmiss). reflexivity.
Qed.

Lemma load_ply_missing_xyz_witness :
  load_ply RefPly.int RefPly.float RefPly.read_binary
    (firstn (length PlyFile.no_z - 1) PlyFile.no_z ++ ["7 8 9"%string]) empty_world
  = Some (Raise (ValueError "PLY file must have x, y, z properties"), empty_world).
Proof.
  apply (load_ply_missing_xyz RefPly.int RefPly.float RefPly.read_binary
           PlyFile.no_z
           ["ply"; "format ascii 1.0"; "element vertex 1"; "property float x";
            "property float y"; "end_header"]%string
           [("1 2" ++ PlyFile.nl)%string] empty_world
           1%Z [("x", "float"); ("y", "float")]%string false true).
  - reflexivity.
  - reflexivity.
  - right. right. cbn [map fst In]. intros [H|[H|[]]]; discriminate.
Defined.

Lemma Forall2_mapM {A B : Type} (f : A -> outcome B) (l : list A) (rs : list B) :
  Forall2 (fun a b => f a = Return b) l rs -> mapM f l = Return rs.
Proof.
  induction 1 as [|a b l rs Hab _ IH]; cbn [mapM bind]; [reflexivity|].
  rewrite Hab. cbn [bind]. rewrite IH. reflexivity.
Qed.

Lemma Forall2_map_l {A A' B : Type} (P : A' -> B -> Prop) (g : A -> A')
    (l : list A) (l' : list B) :
  Forall2 (fun a b => P (g a) b) l l' <-> Forall2 P (map g l) l'.
Proof.
  split.
  - induction 1; cbn [map]; constructor; assumption.
  - revert l'. induction l as [|a l IH]; intros l' H; inversion H; subst;
      constructor; auto.
Qed.

Lemma map_nth_seq_firstn {A : Type} (l : list A) (d : A) (n : nat) :
  (n <= length l)%nat -> map (fun i => nth i l d) (seq 0 n) = firstn n l.
Proof.
  revert n. induction l as [|a l IH]; intros n Hn.
  - cbn in Hn. replace n with 0%nat by lia. reflexivity.
  - destruct n as [|n]; [reflexivity|].
    cbn [seq map nth firstn]. f_equal.
    rewrite <- seq_shift, map_map. apply IH. cbn in Hn. lia.
Qed.

Lemma read_ascii_row_empty (float : string -> outcome R) (x_idx y_idx z_idx : nat) :
  read_ascii_row float x_idx y_idx z_idx EmptyString = Raise IndexError.
Proof.
  unfold read_ascii_row. cbn [strip lstrip rstrip split split_from].
  unfold item. destruct x_idx; reflexivity.
Qed.

Lemma read_ascii_Return (float : string -> outcome R) (x_idx y_idx z_idx : nat)
    (vertex_count : Z) (body : list string) (positions : list vec3) :
  read_ascii float x_idx y_idx z_idx vertex_count body = Return positions
  <-> ((0 <= vertex_count)%Z /\
       (Z.to_nat vertex_count <= length body)%nat /\
       Forall2 (fun raw p => read_ascii_row float x_idx y_idx z_idx raw = Return p)
               (firstn (Z.to_nat vertex_count) body) positions).
Proof.
  unfold read_ascii. split.
  - destruct (Z.ltb_spec vertex_count 0) as [Hneg|Hpos]; [discriminate|].
    intros H. apply mapM_Forall2 in H.
    assert (Hle : (Z.to_nat vertex_count <= length body)%nat).
    { destruct (Nat.le_gt_cases (Z.to_nat vertex_count) (length body)) as [Hle|Hgt];
        [exact Hle|exfalso].
      assert (Hin : In (length body) (seq 0 (Z.to_nat vertex_count)))
        by (apply in_seq; lia).
      clear -H Hin. induction H as [|i p l ps Hip _ IH]; [inversion Hin|].
      destruct Hin as [->|Hin]; [|auto].
      rewrite nth_overflow, read_ascii_row_empty in Hip by lia. discriminate. }
    split; [exact Hpos|]. split; [exact Hle|].
    rewrite <- (map_nth_seq_firstn body EmptyString _ Hle).
    apply Forall2_map_l. exact H.
  - intros (Hpos & Hle & HF).
    destruct (Z.ltb_spec vertex_count 0) as [Hneg|_]; [lia|].
    apply Forall2_mapM.
    rewrite <- (map_nth_seq_firstn body EmptyString _ Hle) in HF.
    apply Forall2_map_l in HF. exact HF.
Qed.

(** X24.  The ASCII format.  For a file whose header is read without
    error and does not select a binary format, [load_ply] returns
    exactly when the header has properties named x, y and z, the vertex
    count is not negative, the file has at least that many lines after
    the header and each of the first [vertex_count] of them yields a
    row.  The positions are then those rows, one per declared vertex,
    each made of the tokens at the positions of x, y and z among all
    property lines of the header, and one line with their number is
    printed.  A file with fewer data lines than declared is never
    accepted. *)
Theorem load_ply_ascii
    (int : string -> outcome Z) (float : string -> outcome R)
    (read_binary : list (string * string) -> bool -> Z -> string -> outcome (list vec3))
    (lines header_lines body : list string) (w : world)
    (vertex_count : Z) (properties : list (string * string)) (is_little_endian : bool) :
  read_header lines = Some (header_lines, body) ->
  parse_header int header_lines
  = Return (vertex_count, properties, false, is_little_endian) ->
  forall positions w',
    load_ply int float read_binary lines w = Some (Return positions, w')
    <-> (exists x_idx y_idx z_idx,
            list_index "x" (map fst properties) = Some x_idx /\
            list_index "y" (map fst properties) = Some y_idx /\
            list_index "z" (map fst properties) = Some z_idx /\
            (0 <= vertex_count)%Z /\
            length positions = Z.to_nat vertex_count /\
            (Z.to_nat vertex_count <= length body)%nat /\
            Forall2 (fun raw p => read_ascii_row float x_idx y_idx z_idx raw = Return p)
                    (firstn (Z.to_nat vertex_count) body) positions /\
            w' = print w ("Loaded " ++ str_nat (length positions)
                          ++ " Gaussians from PLY")%string).
Proof.
  intros Hh Hp positions w'. unfold load_ply. rewrite Hh, Hp. cbn [bind].
  unfold find_xyz. cbv zeta. split.
  - destruct (list_index "x" (map fst properties)) as [x_idx|];
      [|cbn [bind]; intros H; inversion H].
    destruct (list_index "y" (map fst properties)) as [y_idx|];
      [|cbn [bind]; intros H; inversion H].
    destruct (list_index "z" (map fst properties)) as [z_idx|];
      [|cbn [bind]; intros H; inversion H].
    cbn [bind].
    destruct (read_ascii float x_idx y_idx z_idx vertex_count body) as [ps|e] eqn:E;
      intros H; inversion H; subst.
    apply read_ascii_Return in E. destruct E as (Hpos & Hle & HF).
    exists x_idx, y_idx, z_idx. repeat split; try assumption; try reflexivity.
    pose proof (Forall2_length HF) as HL. rewrite length_firstn in HL. lia.
  - intros (x_idx & y_idx & z_idx & Hx & Hy & Hz & Hpos & _ & Hle & HF & ->).
    rewrite Hx, Hy, Hz. cbn [bind].
    rewrite (proj2 (read_ascii_Return float x_idx y_idx z_idx vertex_count body positions)
               (conj Hpos (conj Hle HF))).
    reflexivity.
Qed.

Lemma load_ply_ascii_witness :
  load_ply RefPly.int RefPly.float RefPly.read_binary PlyFile.one_point empty_world
  = Some (Return [V3 1 2 3], print empty_world "Loaded 1 Gaussians from PLY").
Proof.
  apply (proj2 (load_ply_ascii RefPly.int RefPly.float RefPly.read_binary
                  PlyFile.one_point
                  ["ply"; "format ascii 1.0"; "element vertex 1"; "property float x";
                   "property float y"; "property float z"; "end_header"]%string
                  [("1 2 3" ++ PlyFile.nl)%string] empty_world
                  1%Z [("x", "float"); ("y", "float"); ("z", "float")]%string true
                  eq_refl eq_refl
                  [V3 1 2 3] (print empty_world "Loaded 1 Gaussians from PLY"))).
  exists 0%nat, 1%nat, 2%nat.
  repeat split; try reflexivity; try (cbn; lia).
  constructor; [reflexivity|constructor].
Defined.
